(** * D3Timeline: data model, serializer and mutation API

    A shallow embedding of [src/D3Timeline.ts] and of the date-aware
    [JSONSerializer] it imports, followed by the properties established
    about them.

    Conventions of the embedding.
    - A JavaScript [number] is an integer ([Z]); the zoom ratios, which are
      quotients, are rationals ([Q]).
    - A [Date] is its time value, a number of milliseconds since the epoch.
      Dates are never mutated and never compared by identity in the code,
      so they are carried as immediate values.
    - Arrays and plain objects live in an object store and are handled
      through references: two references to one location are one object.
    - A method of the class takes the instance ([this]) and the store and
      returns the updated instance and store next to its result.
    - Objects are ordinary: none has a property named [toString] or
      [valueOf] of its own, so converting one to a string or to a number
      does not raise.
    - Drawing (d3 selections, transitions, the DOM) is outside the model:
      [render], [resize] and [fitRange] assign none of [timelines],
      [events] and [timeRange].  What d3 runs of this file while drawing
      are the key functions [(d) => d.id.toString()] of the data joins;
      they raise on a datum without [id].  The methods that add and remove
      draw what they built themselves, each timeline and event with an
      [id] as [TimelineData] and [EventData] declare, and are modelled on
      such instances; [importData] draws whatever payload it is given,
      inside its [try], and there the key functions are modelled. *)

From Stdlib Require Import ZArith QArith Qabs Qminmax String List Lia Bool.
From Stdlib Require Import Sorted Permutation.
From Stdlib Require Import DecimalString DecimalZ.
From stdpp Require Import base tactics option list strings pretty.

Local Open Scope string_scope.
Local Open Scope list_scope.

(** ** JavaScript values and the object store *)
Module JS.

(** A location of the store; a [Date] by its time value. *)
Abbreviation loc := nat (only parsing).
Abbreviation Date := Z (only parsing).

Inductive val :=
  | VUndefined
  | VNull
  | VBool (b : bool)
  | VNum (n : Z)
  | VStr (s : string)
  | VDate (t : Date)
  | VRef (l : loc).

Inductive obj :=
  | OArray (elems : list val)
  | ORecord (props : list (string * val)).

(** [type ID = number | string] *)
Inductive ID :=
  | IDNum (n : Z)
  | IDStr (s : string).

Definition of_ID (i : ID) : val :=
  match i with
  | IDNum n => VNum n
  | IDStr s => VStr s
  end.

(** an optional argument or property: absent reads as [undefined] *)
Definition of_optional {A : Type} (f : A -> val) (o : option A) : val :=
  match o with
  | Some a => f a
  | None => VUndefined
  end.

#[global] Instance val_eq_dec : EqDecision val.
Proof. solve_decision. Defined.

#[global] Instance obj_eq_dec : EqDecision obj.
Proof. solve_decision. Defined.

Inductive Exn :=
  | Error (message : string)
  | TypeError (message : string)
  | SyntaxError (message : string).

Inductive Result (A : Type) :=
  | Ok (a : A)
  | Throw (e : Exn).
Arguments Ok {A} a.
Arguments Throw {A} e.

(** The store: object [l] is the [l]-th allocated one. *)
Abbreviation heap := (list obj) (only parsing).

Definition alloc (o : obj) (h : heap) : loc * heap := (length h, h ++ [o]).

(** Conversion to boolean ([if (v)], [v || w], [!v]). *)
Definition truthy (v : val) : bool :=
  match v with
  | VUndefined | VNull => false
  | VBool b => b
  | VNum n => negb (n =? 0)%Z
  | VStr s => negb (String.eqb s "")
  | VDate _ | VRef _ => true
  end.

(** [a === b] on the values the code compares (identifiers). *)
Definition strict_eq (a b : val) : bool := bool_decide (a = b).

(** [a ?? b] *)
Definition nullish (a b : val) : val :=
  match a with
  | VUndefined | VNull => b
  | _ => a
  end.

(** [a || b] *)
Definition or_else (a b : val) : val := if truthy a then a else b.

Fixpoint assoc (k : string) (props : list (string * val)) : option val :=
  match props with
  | [] => None
  | (k', v) :: rest => if String.eqb k k' then Some v else assoc k rest
  end.

(** [v.k] where [v] is known not to be [null] or [undefined]: a missing
    property, or a property of a primitive, reads as [undefined]. *)
Definition getv (h : heap) (v : val) (k : string) : val :=
  match v with
  | VRef l =>
      match h !! l with
      | Some (ORecord props) => default VUndefined (assoc k props)
      | _ => VUndefined
      end
  | _ => VUndefined
  end.

(** [v.k] in general: reading a property of [null] or [undefined] raises. *)
Definition Get (h : heap) (v : val) (k : string) : Result val :=
  match v with
  | VUndefined =>
      Throw (TypeError ("Cannot read properties of undefined (reading '" ++ k ++ "')"))
  | VNull =>
      Throw (TypeError ("Cannot read properties of null (reading '" ++ k ++ "')"))
  | _ => Ok (getv h v k)
  end.

(** [x <= 0] for a number-typed slot that may hold [undefined] ([None]):
    the comparison with [undefined] is false. *)
Definition le_zero (x : option Z) : bool :=
  match x with
  | Some n => (n <=? 0)%Z
  | None => false
  end.

Fixpoint chars (s : string) : list val :=
  match s with
  | EmptyString => []
  | String c rest => VStr (String c EmptyString) :: chars rest
  end.

(** [[...v]]: arrays and strings are iterable, nothing else here is. *)
Definition spread_array (h : heap) (v : val) : Result (list val) :=
  match v with
  | VRef l =>
      match h !! l with
      | Some (OArray xs) => Ok xs
      | _ => Throw (TypeError "object is not iterable")
      end
  | VStr s => Ok (chars s)
  | _ => Throw (TypeError "value is not iterable")
  end.

Fixpoint index_props (i : nat) (xs : list val) : list (string * val) :=
  match xs with
  | [] => []
  | x :: rest => (pretty i, x) :: index_props (S i) rest
  end.

(** [{...v}]: the own enumerable properties of [v]; never raises. *)
Definition spread_object (h : heap) (v : val) : list (string * val) :=
  match v with
  | VRef l =>
      match h !! l with
      | Some (ORecord props) => props
      | Some (OArray xs) => index_props 0 xs
      | None => []
      end
  | VStr s => index_props 0 (chars s)
  | _ => []
  end.

End JS.
Export JS.

(** ** What the code takes from outside [src/]

    [generateID] comes from [./D3Utility]; the clock, the calendar and the
    textual forms of a [Date] come from the JavaScript runtime. *)
Class Platform := {
  (** the [n]-th identifier handed out by [generateID] *)
  generateID : nat -> ID;
  (** the [n]-th reading of the clock, [new Date()] *)
  clock : nat -> Date;
  (** [new Date(y + k, m, d)] for the local calendar day [(y, m, d)] of a date *)
  shiftYears : Z -> Date -> Date;
  toISOString : Date -> string;
  toLocaleString : Date -> string;
  (** [new Date(s).getTime()] for a string *)
  Date_parse : string -> Date
}.

(** The runtime guarantees that the ISO form of a date reads back. *)
Class PlatformLaws (P : Platform) : Prop := {
  parse_toISOString : forall t : Date, Date_parse (toISOString t) = t;
  toISOString_nonempty : forall t : Date, toISOString t <> ""
}.

(** Everything mutable outside the instance. *)
Record World := {
  store : heap;
  ids : nat;
  ticks : nat
}.

Definition with_store (h : heap) (w : World) : World :=
  {| store := h; ids := ids w; ticks := ticks w |}.

Definition new_object (o : obj) (w : World) : val * World :=
  let '(l, h) := alloc o (store w) in (VRef l, with_store h w).

Section Runtime.
Context {P : Platform}.

Definition fresh_id (w : World) : val * World :=
  (of_ID (generateID (ids w)), {| store := store w; ids := S (ids w); ticks := ticks w |}).

Definition new_Date (w : World) : val * World :=
  (VDate (clock (ticks w)), {| store := store w; ids := ids w; ticks := S (ticks w) |}).
End Runtime.

(** ** D3Logger.ts *)
Module Logger.

Inductive LogLevel := debug | info | warn | error | fatal.

Definition LEVEL_PRIORITY (l : LogLevel) : Z :=
  match l with
  | debug => 0 | info => 1 | warn => 2 | error => 3 | fatal => 4
  end.

(** A logger with what it has written to the console. *)
Record t := {
  logName : string;
  currentLevel : LogLevel;
  console : list (LogLevel * string)
}.

Definition new (name : string) : t :=
  {| logName := name; currentLevel := debug; console := [] |}.

Definition shouldLog (lg : t) (level : LogLevel) : bool :=
  (LEVEL_PRIORITY (currentLevel lg) <=? LEVEL_PRIORITY level)%Z.

Definition _log (level : LogLevel) (content : string) (lg : t) : t :=
  if shouldLog lg level
  then {| logName := logName lg; currentLevel := currentLevel lg;
          console := console lg ++ [(level, content)] |}
  else lg.

Definition log_warn (content : string) (lg : t) : t := _log warn content lg.
Definition log_error (content : string) (lg : t) : t := _log error content lg.
Definition log_debug (content : string) (lg : t) : t := _log debug content lg.
Definition log_info (content : string) (lg : t) : t := _log info content lg.
Definition log_fatal (content : string) (lg : t) : t := _log fatal content lg.

Definition setLevel (level : LogLevel) (lg : t) : t :=
  {| logName := logName lg; currentLevel := level; console := console lg |}.

End Logger.

(** ** JSON documents and the strings that spell them *)
Module JSON.

Unset Elimination Schemes.
Inductive json :=
  | JNull
  | JBool (b : bool)
  | JNum (n : Z)
  | JStr (s : string)
  | JArr (items : list json)
  | JObj (members : list (string * json)).
Set Elimination Schemes.

Fixpoint json_eqb (a b : json) {struct a} : bool :=
  match a, b with
  | JNull, JNull => true
  | JBool x, JBool y => Bool.eqb x y
  | JNum x, JNum y => (x =? y)%Z
  | JStr x, JStr y => String.eqb x y
  | JArr xs, JArr ys =>
      (fix go (xs ys : list json) : bool :=
         match xs, ys with
         | [], [] => true
         | x :: xs', y :: ys' => json_eqb x y && go xs' ys'
         | _, _ => false
         end) xs ys
  | JObj xs, JObj ys =>
      (fix go (xs ys : list (string * json)) : bool :=
         match xs, ys with
         | [], [] => true
         | (k, x) :: xs', (k', y) :: ys' =>
             String.eqb k k' && json_eqb x y && go xs' ys'
         | _, _ => false
         end) xs ys
  | _, _ => false
  end.

(** A string handed to [JSON.parse] or returned by [JSON.stringify] is
    represented by the document it spells together with the indentation
    it was printed with; a string that spells no document is [NotJSON].
    [JSON.parse] inverts [JSON.stringify] by construction. *)
Inductive text :=
  | Rendered (space : Z) (doc : json)
  | NotJSON (raw : string).

(** [s === t] on strings *)
Definition text_eqb (s t : text) : bool :=
  match s, t with
  | Rendered n a, Rendered m b => (n =? m)%Z && json_eqb a b
  | NotJSON a, NotJSON b => String.eqb a b
  | _, _ => false
  end.

(** Run [f] over a list from left to right, threading the store; [None]
    as soon as one call gives no result. *)
Definition thread {A B : Type} (f : A -> heap -> option (B * heap))
  : list A -> heap -> option (list B * heap) :=
  fix go (xs : list A) (h : heap) : option (list B * heap) :=
    match xs with
    | [] => Some ([], h)
    | x :: rest =>
        match f x h with
        | None => None
        | Some (y, h1) =>
            match go rest h1 with
            | None => None
            | Some (ys, h2) => Some (y :: ys, h2)
            end
        end
    end.

Definition slots (o : obj) : list val :=
  match o with
  | OArray xs => xs
  | ORecord ps => snd <$> ps
  end.

Definition with_slots (o : obj) (vs : list val) : obj :=
  match o with
  | OArray _ => OArray vs
  | ORecord ps => ORecord (zip (fst <$> ps) vs)
  end.

(** An array element that serializes to [undefined] is printed [null]. *)
Definition array_items (rs : list (option json)) : list json :=
  default JNull <$> rs.

(** An object member that serializes to [undefined] is left out. *)
Fixpoint object_members (ks : list string) (rs : list (option json))
  : list (string * json) :=
  match ks, rs with
  | k :: ks', Some j :: rs' => (k, j) :: object_members ks' rs'
  | _ :: ks', None :: rs' => object_members ks' rs'
  | _, _ => []
  end.

Definition keys (o : obj) : list string :=
  match o with
  | OArray _ => []
  | ORecord ps => fst <$> ps
  end.

(** [SerializeJSONArray] and [SerializeJSONObject], given what the
    elements or property values serialize to. *)
Definition json_of (o : obj) (rs : list (option json)) : json :=
  match o with
  | OArray _ => JArr (array_items rs)
  | ORecord ps => JObj (object_members (fst <$> ps) rs)
  end.

Section Stringify.
Context {P : Platform}.
(** the replacer function: called on each value, may write to the store *)
Variable replacer : val -> heap -> val * heap.

(** [SerializeJSONProperty] of ECMAScript, once the value has been read
    from its holder: [toJSON] first (a [Date] has one), then the
    replacer, then by case on the outcome.  The outer [None] is the
    traversal running out of [fuel], which is what happens, for every
    amount of it, on the cyclic structures [JSON.stringify] rejects. *)
Fixpoint SerializeJSONProperty (fuel : nat) (value : val) (h : heap)
  : option (option json * heap) :=
  let value := match value with
               | VDate d => VStr (toISOString d)
               | _ => value
               end in
  let '(value, h) := replacer value h in
  match value with
  | VUndefined => Some (None, h)
  | VNull => Some (Some JNull, h)
  | VBool b => Some (Some (JBool b), h)
  | VNum n => Some (Some (JNum n), h)
  | VStr s => Some (Some (JStr s), h)
  | VDate _ => Some (Some (JObj []), h)
  | VRef l =>
      match fuel, h !! l with
      | S fuel', Some o =>
          match thread (SerializeJSONProperty fuel') (slots o) h with
          | None => None
          | Some (rs, h') => Some (Some (json_of o rs), h')
          end
      | _, _ => None
      end
  end.

(** [JSON.stringify(value, replacer, space)]; the inner [None] is the
    [undefined] it returns for a value that has no JSON form. *)
Definition JSON_stringify (fuel : nat) (value : val) (space : Z) (h : heap)
  : option (option text * heap) :=
  match SerializeJSONProperty fuel value h with
  | None => None
  | Some (r, h') => Some (Rendered space <$> r, h')
  end.
End Stringify.

(** Run [f] over the values of a list of members, threading the store. *)
Definition thread_members {A : Type} (f : A -> heap -> val * heap)
  : list (string * A) -> heap -> list (string * val) * heap :=
  fix go (ms : list (string * A)) (h : heap) : list (string * val) * heap :=
    match ms with
    | [] => ([], h)
    | (k, x) :: rest =>
        let '(v, h1) := f x h in
        let '(ps, h2) := go rest h1 in
        ((k, v) :: ps, h2)
    end.

Definition thread_items {A : Type} (f : A -> heap -> val * heap)
  : list A -> heap -> list val * heap :=
  fix go (xs : list A) (h : heap) : list val * heap :=
    match xs with
    | [] => ([], h)
    | x :: rest =>
        let '(v, h1) := f x h in
        let '(vs, h2) := go rest h1 in
        (v :: vs, h2)
    end.

Section Parse.
(** the reviver function: reads the store, returns the value to keep *)
Variable reviver : val -> heap -> val.

(** [InternalizeJSONProperty]: children first, then the reviver on the
    object built from them. *)
Fixpoint Internalize (j : json) (h : heap) {struct j} : val * heap :=
  match j with
  | JNull => (reviver VNull h, h)
  | JBool b => (reviver (VBool b) h, h)
  | JNum n => (reviver (VNum n) h, h)
  | JStr s => (reviver (VStr s) h, h)
  | JArr items =>
      let '(vs, h1) := thread_items Internalize items h in
      let '(l, h2) := alloc (OArray vs) h1 in
      (reviver (VRef l) h2, h2)
  | JObj members =>
      let '(ps, h1) := thread_members Internalize members h in
      let '(l, h2) := alloc (ORecord ps) h1 in
      (reviver (VRef l) h2, h2)
  end.

(** [JSON.parse(text, reviver)] *)
Definition JSON_parse (t : text) (h : heap) : Result val * heap :=
  match t with
  | NotJSON raw => (Throw (SyntaxError "Unexpected token"), h)
  | Rendered _ doc => let '(v, h') := Internalize doc h in (Ok v, h')
  end.
End Parse.

End JSON.
Export JSON.

(** ** D3Serializer: the date-aware serializer *)
Module JSONSerializer.

Inductive DateFormat := iso | timestamp | formatted.

Record Options := {
  opt_dateFormat : option DateFormat;
  opt_space : option Z
}.

Record t := {
  dateFormat : DateFormat;
  space : Z
}.

(** [constructor(options = {})] *)
Definition new (options : Options) : t :=
  {| dateFormat := default iso (opt_dateFormat options);
     space := default 2%Z (opt_space options) |}.

Definition no_options : Options :=
  {| opt_dateFormat := None; opt_space := None |}.

Section Methods.
Context {P : Platform}.
Variable this : t.

Definition dateReplacer (v : Date) : obj :=
  match dateFormat this with
  | timestamp => ORecord [("$type", VStr "Date"); ("$value", VNum v)]
  | formatted =>
      ORecord [("$type", VStr "Date");
               ("$value", VStr (toLocaleString v));
               ("$iso", VStr (toISOString v))]
  | iso => ORecord [("$type", VStr "Date"); ("$value", VStr (toISOString v))]
  end.

(** [for (const subKey in v) if (v[subKey] instanceof Date)
      v[subKey] = dateReplacer(v[subKey])]
    over the property values of [v], in order. *)
Fixpoint replace_dates (vs : list val) (h : heap) : list val * heap :=
  match vs with
  | [] => ([], h)
  | VDate d :: rest =>
      let '(l, h1) := alloc (dateReplacer d) h in
      let '(rest', h2) := replace_dates rest h1 in
      (VRef l :: rest', h2)
  | x :: rest =>
      let '(rest', h2) := replace_dates rest h in
      (x :: rest', h2)
  end.

Definition is_object (v : val) : bool :=
  match v with
  | VNull | VDate _ | VRef _ => true
  | _ => false
  end.

(** The function [(_, v) => ...] handed to [JSON.stringify]. *)
Definition replacer (v : val) (h : heap) : val * heap :=
  if truthy v && is_object v then
    match v with
    | VRef l =>
        match h !! l with
        | Some o =>
            let '(vs, h1) := replace_dates (slots o) h in
            (v, <[l := with_slots o vs]> h1)
        | None => (v, h)
        end
    | _ => (v, h)
    end
  else
    match v with
    | VDate d => let '(l, h1) := alloc (dateReplacer d) h in (VRef l, h1)
    | _ => (v, h)
    end.

Definition stringify (fuel : nat) (value : val) (h : heap)
  : option (option text * heap) :=
  JSON_stringify replacer fuel value (space this) h.

(** [new Date(x)] *)
Definition Date_of (x : val) : Date :=
  match x with
  | VNum n => n
  | VStr s => Date_parse s
  | VDate d => d
  | VNull => 0%Z
  | VBool b => if b then 1%Z else 0%Z
  | VUndefined => Date_parse "undefined"
  | VRef _ => Date_parse "[object Object]"
  end.

Definition is_formatted : bool :=
  match dateFormat this with
  | formatted => true
  | _ => false
  end.

(** The function [(k, v) => ...] handed to [JSON.parse]. *)
Definition reviver (v : val) (h : heap) : val :=
  if strict_eq (getv h v "$type") (VStr "Date") then
    VDate (Date_of (if is_formatted && truthy (getv h v "$iso")
                    then getv h v "$iso"
                    else getv h v "$value"))
  else v.

Definition parse (t : text) (h : heap) : Result val * heap :=
  JSON_parse reviver t h.

Definition deepClone (fuel : nat) (obj : val) (h : heap)
  : option (Result val * heap) :=
  match stringify fuel obj h with
  | None => None
  | Some (None, h1) => Some (Throw (SyntaxError "undefined is not valid JSON"), h1)
  | Some (Some t, h1) => Some (parse t h1)
  end.

Definition deepEqual (fuel : nat) (a b : val) (h : heap)
  : option (bool * heap) :=
  match stringify fuel a h with
  | None => None
  | Some (ta, h1) =>
      match stringify fuel b h1 with
      | None => None
      | Some (tb, h2) =>
          Some (match ta, tb with
                | Some x, Some y => text_eqb x y
                | None, None => true
                | _, _ => false
                end, h2)
      end
  end.
End Methods.

End JSONSerializer.

(** ** D3Timeline.ts *)
Module D3Timeline.

Module Margin.
Record t := { top : Z; right : Z; bottom : Z; left : Z }.
End Margin.

Inductive PathType := straight | arc | fluid | magnet | grid.

Module StageLineParams.
Record t := {
  path : PathType;
  size : Z;
  color : string;
  dash : bool;
  arrow : bool;
  animation : bool
}.
End StageLineParams.

(** [TimelineOptions]: what the caller may pass, every field optional.
    A key that is present holds a value of its declared type, except
    that [width] and [height], the two the constructor tests, may be
    present with the value [undefined] ([Some None]), which the type
    [width?: number] admits. *)
Module TimelineOptions.
Record t := {
  id : option ID;
  width : option (option Z);
  height : option (option Z);
  margin : option Margin.t;
  timelineHeight : option Z;
  timelineSpacing : option Z;
  axisHeight : option Z;
  zoomMin : option Z;
  zoomMax : option Z;
  animationDuration : option Z;
  stageLineParams : option StageLineParams.t;
  locale : option string
}.

Definition empty : t :=
  {| id := None; width := None; height := None; margin := None;
     timelineHeight := None; timelineSpacing := None; axisHeight := None;
     zoomMin := None; zoomMax := None; animationDuration := None;
     stageLineParams := None; locale := None |}.
End TimelineOptions.

(** [Required<TimelineOptions>]; [width] and [height] are [None] when
    they hold [undefined]. *)
Module Options.
Record t := {
  id : val;
  width : option Z;
  height : option Z;
  margin : Margin.t;
  timelineHeight : Z;
  timelineSpacing : Z;
  axisHeight : Z;
  zoomMin : Z;
  zoomMax : Z;
  animationDuration : Z;
  stageLineParams : StageLineParams.t;
  locale : string
}.

Definition set_width (x : option Z) (o : t) : t :=
  {| id := id o; width := x; height := height o; margin := margin o;
     timelineHeight := timelineHeight o; timelineSpacing := timelineSpacing o;
     axisHeight := axisHeight o; zoomMin := zoomMin o; zoomMax := zoomMax o;
     animationDuration := animationDuration o;
     stageLineParams := stageLineParams o; locale := locale o |}.

Definition set_height (x : option Z) (o : t) : t :=
  {| id := id o; width := width o; height := x; margin := margin o;
     timelineHeight := timelineHeight o; timelineSpacing := timelineSpacing o;
     axisHeight := axisHeight o; zoomMin := zoomMin o; zoomMax := zoomMax o;
     animationDuration := animationDuration o;
     stageLineParams := stageLineParams o; locale := locale o |}.

(** [{ ...defaults, ...options }]: a key that is present overrides
    the default, also when its value is [undefined]. *)
Definition merge (d : t) (o : TimelineOptions.t) : t :=
  {| id := default (id d) (of_ID <$> TimelineOptions.id o);
     width := default (width d) (TimelineOptions.width o);
     height := default (height d) (TimelineOptions.height o);
     margin := default (margin d) (TimelineOptions.margin o);
     timelineHeight := default (timelineHeight d) (TimelineOptions.timelineHeight o);
     timelineSpacing := default (timelineSpacing d) (TimelineOptions.timelineSpacing o);
     axisHeight := default (axisHeight d) (TimelineOptions.axisHeight o);
     zoomMin := default (zoomMin d) (TimelineOptions.zoomMin o);
     zoomMax := default (zoomMax d) (TimelineOptions.zoomMax o);
     animationDuration := default (animationDuration d) (TimelineOptions.animationDuration o);
     stageLineParams := default (stageLineParams d) (TimelineOptions.stageLineParams o);
     locale := default (locale d) (TimelineOptions.locale o) |}.
End Options.

(** [Partial<EventData>]: the event configuration handed to [addEvent]. *)
Module PartialEventData.
Record t := {
  id : option ID;
  timelineId : option ID;
  title : option string;
  description : option string;
  startTime : option Date;
  endTime : option Date;
  color : option string;
  (** a reference to the caller's [{id, index}] object *)
  stage : option val
}.
End PartialEventData.

(** The part of the container element the class reads. *)
Module HTMLElement.
Record t := { clientWidth : Z; clientHeight : Z }.
End HTMLElement.

(** The instance.  [timelines] and [events] are the contents of the two
    private arrays, which are never handed out (the getters and
    [exportData] copy them); their elements are references into the
    store.  [scaleExtent] is the one of the zoom behaviour. *)
Record t := {
  logger : Logger.t;
  container : HTMLElement.t;
  options : Options.t;
  timelines : list val;
  events : list val;
  timeRange : val;
  stageLinesVisible : bool;
  scaleExtent : Q * Q
}.

Definition set_options (x : Options.t) (this : t) : t :=
  {| logger := logger this; container := container this; options := x;
     timelines := timelines this; events := events this;
     timeRange := timeRange this;
     stageLinesVisible := stageLinesVisible this;
     scaleExtent := scaleExtent this |}.

Definition set_timelines (x : list val) (this : t) : t :=
  {| logger := logger this; container := container this;
     options := options this; timelines := x; events := events this;
     timeRange := timeRange this;
     stageLinesVisible := stageLinesVisible this;
     scaleExtent := scaleExtent this |}.

Definition set_events (x : list val) (this : t) : t :=
  {| logger := logger this; container := container this;
     options := options this; timelines := timelines this; events := x;
     timeRange := timeRange this;
     stageLinesVisible := stageLinesVisible this;
     scaleExtent := scaleExtent this |}.

Definition set_timeRange (x : val) (this : t) : t :=
  {| logger := logger this; container := container this;
     options := options this; timelines := timelines this;
     events := events this; timeRange := x;
     stageLinesVisible := stageLinesVisible this;
     scaleExtent := scaleExtent this |}.

Definition set_stageLinesVisible (x : bool) (this : t) : t :=
  {| logger := logger this; container := container this;
     options := options this; timelines := timelines this;
     events := events this; timeRange := timeRange this;
     stageLinesVisible := x; scaleExtent := scaleExtent this |}.

Definition set_scaleExtent (x : Q * Q) (this : t) : t :=
  {| logger := logger this; container := container this;
     options := options this; timelines := timelines this;
     events := events this; timeRange := timeRange this;
     stageLinesVisible := stageLinesVisible this; scaleExtent := x |}.

Definition set_logger (x : Logger.t) (this : t) : t :=
  {| logger := x; container := container this;
     options := options this; timelines := timelines this;
     events := events this; timeRange := timeRange this;
     stageLinesVisible := stageLinesVisible this;
     scaleExtent := scaleExtent this |}.

Definition defaultOptions (generated : val) : Options.t :=
  {| Options.id := generated;
     Options.width := Some 0;
     Options.height := Some 0;
     Options.margin := {| Margin.top := 20; Margin.right := 20;
                          Margin.bottom := 20; Margin.left := 120 |};
     Options.timelineHeight := 60;
     Options.timelineSpacing := 20;
     Options.axisHeight := 20;
     Options.zoomMin := 8 * 24 * 60 * 60 * 1000;
     Options.zoomMax := 365 * 24 * 60 * 60 * 1000;
     Options.animationDuration := 300;
     Options.stageLineParams :=
       {| StageLineParams.path := straight; StageLineParams.size := 2;
          StageLineParams.color := "#9f86c0"; StageLineParams.dash := true;
          StageLineParams.arrow := true; StageLineParams.animation := false |};
     Options.locale := "en" |}%Z.

(** [d.getTime()]; only ever applied to a [Date]. *)
Definition getTime (d : val) : Z :=
  match d with
  | VDate t => t
  | _ => 0%Z
  end.

Definition Math_max (a b : Q) : Q := if Qle_bool a b then b else a.

Definition calculateHeight (this : t) : Z :=
  (Margin.top (Options.margin (options this)) +
   Margin.bottom (Options.margin (options this)) +
   Options.axisHeight (options this) +
   Z.of_nat (length (timelines this)) *
     (Options.timelineSpacing (options this) +
      Options.timelineHeight (options this)))%Z.

(** [resize]: the new size; the redraw it ends with is not modelled.
    [clientWidth || width]. *)
Definition resize (this : t) : t :=
  let w := if (HTMLElement.clientWidth (container this) =? 0)%Z
           then Options.width (options this)
           else Some (HTMLElement.clientWidth (container this)) in
  let this := set_options (Options.set_width w (options this)) this in
  set_options (Options.set_height (Some (calculateHeight this)) (options this)) this.

(** [render] and [fitRange] only draw. *)
Definition render (this : t) : t := this.
Definition fitRange (this : t) : t := this.

(** The two inner sizes; [None] is the [NaN] the subtraction gives when
    the width or the height is [undefined]. *)
Definition getTimelineInnerWidth (this : t) : option Z :=
  (fun width =>
     width - Margin.left (Options.margin (options this)) -
     Margin.right (Options.margin (options this)))%Z <$> Options.width (options this).

Definition getTimelineInnerHeight (excludeAxis : option bool) (this : t) : option Z :=
  (fun height =>
     height - Margin.top (Options.margin (options this)) -
     Margin.bottom (Options.margin (options this)) -
     (if default false excludeAxis then Options.axisHeight (options this) else 0))%Z
  <$> Options.height (options this).

(** An element of the array handed to [addTimelines]. *)
Module TimelineConfig.
Record t := {
  name : string;
  color : option string;
  id : option ID
}.
End TimelineConfig.

Section Methods.
Context {P : Platform}.

Definition setupTimeRange (this : t) (w : World) : t * World :=
  let '(currentDate, w) := new_Date w in
  let startDate := VDate (shiftYears (-10) (getTime currentDate)) in
  let endDate := VDate (shiftYears 10 (getTime currentDate)) in
  let '(range, w) := new_object (ORecord [("start", startDate); ("end", endDate)]) w in
  (set_timeRange range this, w).

(** The two quotients are taken in [Q]: the model is that of a time
    range that is not empty and of a [zoomMin] other than 0, where
    JavaScript's division has no [Infinity] or [NaN] to give. *)
Definition setupZoom (this : t) (h : heap) : t :=
  let initialRange :=
    (getTime (getv h (timeRange this) "end") -
     getTime (getv h (timeRange this) "start"))%Z in
  let minScale :=
    (inject_Z (Options.zoomMax (options this)) / inject_Z initialRange)%Q in
  let maxScale :=
    (inject_Z initialRange / inject_Z (Options.zoomMin (options this)))%Q in
  set_scaleExtent (Math_max 1%Q minScale, Math_max 1%Q maxScale) this.

Definition init (this : t) (w : World) : t * World :=
  let '(this, w) := setupTimeRange this w in
  let this := setupZoom this (store w) in
  (render this, w).

(** The options after the constructor has filled in the container size. *)
Definition resolveSize (container : HTMLElement.t) (o : Options.t) : Options.t :=
  let o := if le_zero (Options.width o) && (0 <? HTMLElement.clientWidth container)%Z
           then Options.set_width (Some (HTMLElement.clientWidth container)) o
           else o in
  if le_zero (Options.height o) && (0 <? HTMLElement.clientHeight container)%Z
  then Options.set_height (Some (HTMLElement.clientHeight container)) o
  else o.

Definition constructor (container : HTMLElement.t) (options : TimelineOptions.t)
    (w : World) : Result t * World :=
  let '(generated, w) := fresh_id w in
  let opts := resolveSize container (Options.merge (defaultOptions generated) options) in
  if le_zero (Options.width opts) then
    (Throw (Error "D3Timeline err: width is zero."), w)
  else
    let this := {| logger := Logger.new "D3Timeline";
                   container := container;
                   options := opts;
                   timelines := [];
                   events := [];
                   timeRange := VUndefined;
                   stageLinesVisible := true;
                   scaleExtent := (0%Q, 0%Q) |} in
    let '(this, w) := init this w in
    (Ok this, w).

(** [this.timelines.find((t) => t.id === timelineId)] *)
Definition find_timeline (h : heap) (this : t) (timelineId : val) : option val :=
  List.find (fun t => strict_eq (getv h t "id") timelineId) (timelines this).

Definition addTimeline (name : string) (color : option string) (id : option ID)
    (autofit : option bool) (this : t) (w : World) : val * t * World :=
  let '(tid, w) := match id with
                   | Some i => (of_ID i, w)
                   | None => fresh_id w
                   end in
  let '(timeline, w) :=
    new_object (ORecord [("id", tid); ("name", VStr name);
                         ("color", VStr (default "#667eea" color))]) w in
  let this := set_timelines (timelines this ++ [timeline]) this in
  let this := if default true autofit then resize this else this in
  (timeline, this, w).

Definition removeTimeline (id : ID) (this : t) (w : World) : t * World :=
  let h := store w in
  let this := set_timelines
    (List.filter (fun t => negb (strict_eq (getv h t "id") (of_ID id)))
                 (timelines this)) this in
  let this := set_events
    (List.filter (fun e => negb (strict_eq (getv h e "timelineId") (of_ID id)))
                 (events this)) this in
  (resize this, w).

(** The object literal [eventData] of [addEvent] and [addEvents]. *)
Definition make_eventData (event : PartialEventData.t) (timelineId timeline : val)
    (w : World) : val * World :=
  let '(eid, w) := match PartialEventData.id event with
                   | Some i => (of_ID i, w)
                   | None => fresh_id w
                   end in
  let title := or_else (of_optional VStr (PartialEventData.title event)) (VStr "") in
  let description :=
    or_else (of_optional VStr (PartialEventData.description event)) (VStr "") in
  let '(startTime, w) := match PartialEventData.startTime event with
                         | Some d => (VDate d, w)
                         | None => new_Date w
                         end in
  let '(endTime, w) := match PartialEventData.endTime event,
                             PartialEventData.startTime event with
                       | Some d, _ => (VDate d, w)
                       | None, Some d => (VDate d, w)
                       | None, None => new_Date w
                       end in
  let color := or_else (of_optional VStr (PartialEventData.color event))
                       (getv (store w) timeline "color") in
  let type := if truthy (of_optional VDate (PartialEventData.endTime event))
              then VStr "range" else VStr "point" in
  new_object (ORecord [("id", eid); ("timelineId", timelineId);
                       ("title", title); ("description", description);
                       ("startTime", startTime); ("endTime", endTime);
                       ("color", color); ("type", type);
                       ("stage", default VUndefined (PartialEventData.stage event))]) w.

Definition addEvent (event : PartialEventData.t) (timelineId : option ID)
    (autofit : option bool) (this : t) (w : World) : Result val * t * World :=
  match find_timeline (store w) this (of_optional of_ID timelineId) with
  | None => (Ok VNull, this, w)
  | Some timeline =>
      let timelineId := nullish (of_optional of_ID timelineId)
                                (of_optional of_ID (PartialEventData.timelineId event)) in
      if negb (truthy timelineId) then
        (Throw (Error "The timelineId is not specified."), this, w)
      else
        let '(eventData, w) := make_eventData event timelineId timeline w in
        let this := set_events (events this ++ [eventData]) this in
        let this := render this in
        let this := if default true autofit then fitRange this else this in
        (Ok eventData, this, w)
  end.

(** The callback of [events.map(...)] in [addEvents]. *)
Definition addEvents_item (timelineId : option ID) (this : t)
    (event : PartialEventData.t) (w : World) : Result val * World :=
  let targetTimelineId := nullish (of_optional of_ID timelineId)
                                  (of_optional of_ID (PartialEventData.timelineId event)) in
  if negb (truthy targetTimelineId) then
    (Throw (Error "The timelineId is not specified."), w)
  else
    match find_timeline (store w) this targetTimelineId with
    | None => (Throw (Error "The timeineId is invalid."), w)
    | Some timeline =>
        let '(eventData, w) := make_eventData event targetTimelineId timeline w in
        (Ok eventData, w)
    end.

(** [events.map(callback)]: stops at the first callback that raises. *)
Fixpoint map_events (f : PartialEventData.t -> World -> Result val * World)
    (events : list PartialEventData.t) (w : World) : Result (list val) * World :=
  match events with
  | [] => (Ok [], w)
  | e :: rest =>
      match f e w with
      | (Throw x, w) => (Throw x, w)
      | (Ok v, w) =>
          match map_events f rest w with
          | (Throw x, w) => (Throw x, w)
          | (Ok vs, w) => (Ok (v :: vs), w)
          end
      end
  end.

(** Returns the added events, or [None] for the [null] of an empty batch. *)
Definition addEvents (events_ : list PartialEventData.t) (timelineId : option ID)
    (autofit : option bool) (this : t) (w : World)
  : Result (option (list val)) * t * World :=
  match events_ with
  | [] => (Ok None, this, w)
  | _ =>
      match map_events (addEvents_item timelineId this) events_ w with
      | (Throw x, w) => (Throw x, this, w)
      | (Ok addedEvents, w) =>
          let this := set_events (events this ++ addedEvents) this in
          let this := render this in
          let this := if default true autofit then fitRange this else this in
          (Ok (Some addedEvents), this, w)
      end
  end.

Definition showStageLines (this : t) : t := set_stageLinesVisible true this.
Definition hideStageLines (this : t) : t := set_stageLinesVisible false this.

Definition exportData (this : t) (w : World) : val * World :=
  let '(ts, w) := new_object (OArray (timelines this)) w in
  let '(es, w) := new_object (OArray (events this)) w in
  let '(range, w) := new_object (ORecord (spread_object (store w) (timeRange this))) w in
  new_object (ORecord [("timelines", ts); ("events", es); ("timeRange", range)]) w.

Definition exportDataString (fuel : nat) (autoFormat : option bool) (this : t)
    (w : World) : option (option text * World) :=
  let serializer :=
    JSONSerializer.new
      {| JSONSerializer.opt_dateFormat := None;
         JSONSerializer.opt_space :=
           Some (if default false autoFormat then 2%Z else 0%Z) |} in
  let '(data, w) := exportData this w in
  match JSONSerializer.stringify serializer fuel data (store w) with
  | None => None
  | Some (s, h) => Some (s, with_store h w)
  end.

Definition message (e : Exn) : string :=
  match e with
  | Error m | TypeError m | SyntaxError m => m
  end.

(** The [catch] clause of [importData]. *)
Definition importData_catch (e : Exn) (this : t) (w : World) : Result bool * t * World :=
  (Ok false,
   set_logger (Logger.log_error ("数据导入失败: " ++ message e) (logger this)) this,
   w).

(** The key function of the data joins of [renderTimelines],
    [renderTimelineLabels] and [renderEvents]: [(d) => d.id.toString()].
    d3 only compares the strings; what matters here is whether the
    call raises. *)
Definition key (h : heap) (d : val) : Result unit :=
  match Get h d "id" with
  | Throw e => Throw e
  | Ok VUndefined =>
      Throw (TypeError "Cannot read properties of undefined (reading 'toString')")
  | Ok VNull =>
      Throw (TypeError "Cannot read properties of null (reading 'toString')")
  | Ok _ => Ok tt
  end.

(** [selection.data(data, key)] calls [key] on each datum in turn. *)
Fixpoint join_keys (h : heap) (data : list val) : Result unit :=
  match data with
  | [] => Ok tt
  | d :: rest =>
      match key h d with
      | Throw e => Throw e
      | Ok _ => join_keys h rest
      end
  end.

(** What [render(true)] runs of this file before anything is drawn:
    the keys of the timelines, then those of the events. *)
Definition render_keys (h : heap) (this : t) : Result unit :=
  match join_keys h (timelines this) with
  | Throw e => Throw e
  | Ok _ => join_keys h (events this)
  end.

(** [resize()] sets the size and then calls [render(true)], all of it
    inside the [try]. *)
Definition importData (data : val) (this : t) (w : World) : Result bool * t * World :=
  match Get (store w) data "timelines" with
  | Throw e => importData_catch e this w
  | Ok x =>
  match spread_array (store w) x with
  | Throw e => importData_catch e this w
  | Ok ts =>
  let this := set_timelines ts this in
  match Get (store w) data "events" with
  | Throw e => importData_catch e this w
  | Ok x =>
  match spread_array (store w) x with
  | Throw e => importData_catch e this w
  | Ok es =>
  let this := set_events es this in
  match Get (store w) data "timeRange" with
  | Throw e => importData_catch e this w
  | Ok x =>
  let '(range, w) := new_object (ORecord (spread_object (store w) x)) w in
  let this := set_timeRange range this in
  let this := resize this in
  match render_keys (store w) this with
  | Throw e => importData_catch e this w
  | Ok _ => (Ok true, this, w)
  end
  end end end end end.

Definition importDataString (data : text) (this : t) (w : World)
  : Result bool * t * World :=
  match JSONSerializer.parse (JSONSerializer.new JSONSerializer.no_options)
                             data (store w) with
  | (Throw e, h) => (Throw e, this, with_store h w)
  | (Ok v, h) => importData v this (with_store h w)
  end.

(** The callback of [timelineConfigs.map(...)] in [addTimelines], over
    the whole array. *)
Fixpoint map_configs (configs : list TimelineConfig.t) (w : World) : list val * World :=
  match configs with
  | [] => ([], w)
  | config :: rest =>
      let '(tid, w) := match TimelineConfig.id config with
                       | Some i => (of_ID i, w)
                       | None => fresh_id w
                       end in
      let '(timeline, w) :=
        new_object (ORecord [("id", tid); ("name", VStr (TimelineConfig.name config));
                             ("color", VStr (default "#667eea" (TimelineConfig.color config)))])
          w in
      let '(added, w) := map_configs rest w in
      (timeline :: added, w)
  end.

(** Returns the elements of the array of added timelines. *)
Definition addTimelines (timelineConfigs : list TimelineConfig.t) (autofit : option bool)
    (this : t) (w : World) : list val * t * World :=
  match timelineConfigs with
  | [] => ([], this, w)
  | _ =>
      let '(addedTimelines, w) := map_configs timelineConfigs w in
      let this := set_timelines (timelines this ++ addedTimelines) this in
      let this := if default true autofit then resize this else this in
      (addedTimelines, this, w)
  end.

(** [removeEvent(id: number)] *)
Definition removeEvent (id : Z) (this : t) (w : World) : t * World :=
  let h := store w in
  let this := set_events
    (List.filter (fun e => negb (strict_eq (getv h e "id") (VNum id))) (events this))
    this in
  (render this, w).

Definition setTimeRange (start end_ : Date) (this : t) (w : World) : t * World :=
  let '(range, w) := new_object (ORecord [("start", VDate start); ("end", VDate end_)]) w in
  (render (set_timeRange range this), w).

(** [[...this.timelines]] and [[...this.events]]: a new array each time. *)
Definition getTimelines (this : t) (w : World) : val * World :=
  new_object (OArray (timelines this)) w.

Definition getEvents (this : t) (w : World) : val * World :=
  new_object (OArray (events this)) w.
End Methods.

(** *** Event handlers

    [eventBindings] holds one [Set] of handlers per event type; [on],
    [off] and [emit] read and write nothing else of the instance.  A
    handler is a function object, known by its identity; a [Set] keeps
    its elements in insertion order. *)
Inductive EventType := click | zoom | zoom_end.

Module EventBindings.
Record t := {
  on_click : list nat;
  on_zoom : list nat;
  on_zoom_end : list nat
}.

(** the field initializer: three empty sets *)
Definition empty : t := {| on_click := []; on_zoom := []; on_zoom_end := [] |}.

Definition get (eventType : EventType) (b : t) : list nat :=
  match eventType with
  | click => on_click b
  | zoom => on_zoom b
  | zoom_end => on_zoom_end b
  end.

Definition set (eventType : EventType) (handlers : list nat) (b : t) : t :=
  match eventType with
  | click => {| on_click := handlers; on_zoom := on_zoom b; on_zoom_end := on_zoom_end b |}
  | zoom => {| on_click := on_click b; on_zoom := handlers; on_zoom_end := on_zoom_end b |}
  | zoom_end => {| on_click := on_click b; on_zoom := on_zoom b; on_zoom_end := handlers |}
  end.
End EventBindings.

(** [Set.prototype.has], [add] and [delete] *)
Definition Set_has (x : nat) (s : list nat) : bool := bool_decide (x ∈ s).
Definition Set_add (x : nat) (s : list nat) : list nat :=
  if bool_decide (x ∈ s) then s else s ++ [x].
Definition Set_delete (x : nat) (s : list nat) : list nat :=
  List.filter (fun y => negb (bool_decide (y = x))) s.

Definition on (eventType : EventType) (handler : nat) (b : EventBindings.t)
  : EventBindings.t :=
  if negb (Set_has handler (EventBindings.get eventType b))
  then EventBindings.set eventType (Set_add handler (EventBindings.get eventType b)) b
  else b.

Definition off (eventType : EventType) (handler : nat) (b : EventBindings.t)
  : EventBindings.t :=
  EventBindings.set eventType (Set_delete handler (EventBindings.get eventType b)) b.

(** [emit]: the handlers called, in the order of the calls. *)
Definition emit (eventType : EventType) (b : EventBindings.t) : list nat :=
  EventBindings.get eventType b.

(** *** Stage connectors *)

(** One drawing command of an SVG path, with its coordinates. *)
Inductive PathCmd :=
  | M (x y : Q)
  | L (x y : Q)
  | Qcurve (cx cy x y : Q)
  | Ccurve (c1x c1y c2x c2y x y : Q).

Module Point.
Record t := { x : Q; y : Q; event : val; width : Q }.
End Point.

(** A [<g class="stage-line-group stage-ID">] with its [<path>] and arrows.
    [d] keeps the pieces in the order they were appended to [pathData]. *)
Module StageLine.
Record t := {
  stageId : val;
  d : list (list PathCmd);
  arrows : list (Point.t * Point.t)
}.
End StageLine.

Definition generatePathSegment (start end_ : Point.t) (pathType : PathType)
  : list PathCmd :=
  match pathType with
  | arc =>
      let midX := ((Point.x start + Point.x end_) / 2)%Q in
      let arcHeight := (Qabs (Point.x end_ - Point.x start) * (2 # 10))%Q in
      [Qcurve midX (Qmin (Point.y start) (Point.y end_) - arcHeight)%Q
              (Point.x end_) (Point.y end_)]
  | fluid =>
      let cp1x := (Point.x start + (Point.x end_ - Point.x start) * (5 # 10))%Q in
      let cp1y := Point.y start in
      let cp2x := (Point.x start + (Point.x end_ - Point.x start) * (5 # 10))%Q in
      let cp2y := Point.y end_ in
      [Ccurve cp1x cp1y cp2x cp2y (Point.x end_) (Point.y end_)]
  | magnet =>
      let midY := ((Point.y start + Point.y end_) / 2)%Q in
      [L (Point.x start) midY; L (Point.x end_) midY;
       L (Point.x end_) (Point.y end_)]
  | grid =>
      let offset := 30%Q in
      if Qlt_le_dec (Qabs (Point.y start - Point.y end_)) 5 then
        [L (Point.x end_) (Point.y end_)]
      else
        [L (Point.x start + offset)%Q (Point.y start);
         L (Point.x start + offset)%Q (Point.y end_);
         L (Point.x end_) (Point.y end_)]
  | straight => [L (Point.x end_) (Point.y end_)]
  end.

(** [stageGroups.get(key).push(event)], creating the entry at the end of
    the [Map] when the key is new. *)
Fixpoint group_push (key event : val) (groups : list (val * list val))
  : list (val * list val) :=
  match groups with
  | [] => [(key, [event])]
  | (k, es) :: rest =>
      if strict_eq k key then (k, es ++ [event]) :: rest
      else (k, es) :: group_push key event rest
  end.

(** The [forEach] that fills [stageGroups]. *)
Definition stageGroups (h : heap) (events : list val) : list (val * list val) :=
  fold_left
    (fun groups event =>
       if truthy (getv h event "stage")
       then group_push (getv h (getv h event "stage") "id") event groups
       else groups)
    events [].

(** [event.stage.index || 0] as a number *)
Definition stage_index (h : heap) (event : val) : Z :=
  match or_else (getv h (getv h event "stage") "index") (VNum 0) with
  | VNum n => n
  | _ => 0%Z
  end.

(** [events.sort((a, b) => index a - index b)]: the sort is stable. *)
Fixpoint sort_insert (h : heap) (e : val) (sorted : list val) : list val :=
  match sorted with
  | [] => [e]
  | x :: rest =>
      if (stage_index h e <=? stage_index h x)%Z then e :: x :: rest
      else x :: sort_insert h e rest
  end.

Definition sort_by_index (h : heap) (events : list val) : list val :=
  fold_right (sort_insert h) [] events.

(** [this.timelines.indexOf(timeline)] *)
Fixpoint indexOf (x : val) (xs : list val) : Z :=
  match xs with
  | [] => (-1)%Z
  | y :: rest =>
      if strict_eq y x then 0%Z
      else let i := indexOf x rest in if (i <? 0)%Z then (-1)%Z else (i + 1)%Z
  end.

Definition calculateTimelineOffsetY (this : t) (timeline : option val) : Z :=
  match timeline with
  | Some tl =>
      ((Z.of_nat (length (timelines this)) - indexOf tl (timelines this) - 1) *
       (Options.timelineHeight (options this) +
        Options.timelineSpacing (options this)) +
       Margin.top (Options.margin (options this)))%Z
  | None => 0%Z
  end.

Section StageLines.
(** the time scale of the instance, a d3 object *)
Variable xScale : val -> Q.

(** The callback of [events.map(...)] that places an event. *)
Definition stage_point (this : t) (h : heap) (event : val) : Point.t :=
  let timeline :=
    List.find (fun t => strict_eq (getv h t "id") (getv h event "timelineId"))
              (timelines this) in
  let x := xScale (getv h event "startTime") in
  let y := match timeline with
           | Some _ =>
               (inject_Z (calculateTimelineOffsetY this timeline) +
                inject_Z (Options.timelineHeight (options this)) / 2)%Q
           | None => 0%Q
           end in
  let width := if strict_eq (getv h event "type") (VStr "range")
               then (xScale (getv h event "endTime") -
                     xScale (getv h event "startTime"))%Q
               else 0%Q in
  {| Point.x := x; Point.y := y; Point.event := event; Point.width := width |}.

(** The loop [for (i = 0; i < points.length - 1; i++)] that builds
    [pathData], seen from index [i] on; [first] is [i === 0]. *)
Fixpoint pathData_from (first : bool) (pathType : PathType)
    (points : list Point.t) : list (list PathCmd) :=
  match points with
  | start :: ((end_ :: _) as rest) =>
      (if first then [[M (Point.x start) (Point.y start)]] else []) ++
      generatePathSegment start end_ pathType ::
      pathData_from false pathType rest
  | _ => []
  end.

Fixpoint adjacent_pairs (points : list Point.t) : list (Point.t * Point.t) :=
  match points with
  | a :: ((b :: _) as rest) => (a, b) :: adjacent_pairs rest
  | _ => []
  end.

(** The body of [stageGroups.forEach((events, stageId) => ...)]: [None]
    when it returns before drawing. *)
Definition render_stage (this : t) (h : heap) (group : val * list val)
  : option StageLine.t :=
  let '(stageId, events) := group in
  let events := sort_by_index h events in
  if (length events <? 2)%nat then None
  else
    let params := Options.stageLineParams (options this) in
    let points := map (stage_point this h) events in
    let pathData := pathData_from true (StageLineParams.path params) points in
    Some {| StageLine.stageId := stageId;
            StageLine.d := pathData;
            StageLine.arrows :=
              if StageLineParams.arrow params && (2 <=? length points)%nat
              then adjacent_pairs points else [] |}.

(** [renderStageLines]; [dom] is what the stage-line layer holds on
    entry, the result what it holds on return. *)
Definition renderStageLines (this : t) (h : heap) (dom : list StageLine.t)
  : list StageLine.t :=
  if negb (stageLinesVisible this) then dom
  else omap (render_stage this h) (stageGroups h (events this)).
End StageLines.

End D3Timeline.

(** ** A runtime to compute with

    Examples need a concrete runtime.  This one prints a date as its time
    value in decimal behind a letter, counts identifiers from [1000] and
    reads the clock as the number of readings so far. *)
Module Sample.

Definition decimal (z : Z) : string :=
  ("T" ++ DecimalString.NilEmpty.string_of_int (Z.to_int z))%string.

Definition undecimal (s : string) : Z :=
  match s with
  | String _ rest =>
      match DecimalString.NilEmpty.int_of_string rest with
      | Some i => Z.of_int i
      | None => 0%Z
      end
  | EmptyString => 0%Z
  end.

Definition year : Z := 31557600000.

Definition runtime : Platform := {|
  generateID := fun n => IDNum (1000 + Z.of_nat n);
  clock := fun n => Z.of_nat n;
  shiftYears := fun k d => (d + k * year)%Z;
  toISOString := decimal;
  toLocaleString := fun d => ("local " ++ decimal d)%string;
  Date_parse := undecimal
|}.

Definition world0 : World := {| store := []; ids := 0; ticks := 0 |}.

Definition container0 : D3Timeline.HTMLElement.t :=
  {| D3Timeline.HTMLElement.clientWidth := 800;
     D3Timeline.HTMLElement.clientHeight := 0 |}.

(** A container that has no size yet. *)
Definition collapsed : D3Timeline.HTMLElement.t :=
  {| D3Timeline.HTMLElement.clientWidth := 0;
     D3Timeline.HTMLElement.clientHeight := 0 |}.

(** [{width: x}], with [None] for [undefined] *)
Definition width_option (x : option Z) : D3Timeline.TimelineOptions.t :=
  {| D3Timeline.TimelineOptions.id := None;
     D3Timeline.TimelineOptions.width := Some x;
     D3Timeline.TimelineOptions.height := None;
     D3Timeline.TimelineOptions.margin := None;
     D3Timeline.TimelineOptions.timelineHeight := None;
     D3Timeline.TimelineOptions.timelineSpacing := None;
     D3Timeline.TimelineOptions.axisHeight := None;
     D3Timeline.TimelineOptions.zoomMin := None;
     D3Timeline.TimelineOptions.zoomMax := None;
     D3Timeline.TimelineOptions.animationDuration := None;
     D3Timeline.TimelineOptions.stageLineParams := None;
     D3Timeline.TimelineOptions.locale := None |}.

(** An instance that has not been through [init], for the branch of the
    scenario below that is never taken. *)
Definition unbuilt : D3Timeline.t :=
  {| D3Timeline.logger := Logger.new "D3Timeline";
     D3Timeline.container := container0;
     D3Timeline.options := D3Timeline.defaultOptions VUndefined;
     D3Timeline.timelines := [];
     D3Timeline.events := [];
     D3Timeline.timeRange := VUndefined;
     D3Timeline.stageLinesVisible := true;
     D3Timeline.scaleExtent := (0%Q, 0%Q) |}.

(** [new D3Timeline(container)] *)
Definition built : D3Timeline.t * World :=
  let '(r, w) := D3Timeline.constructor (P := runtime) container0
                   D3Timeline.TimelineOptions.empty world0 in
  (match r with Ok this => this | Throw _ => unbuilt end, w).

(** [addTimeline("Plan", undefined, 0); addTimeline("Build", "#222222", "b")] *)
Definition planned : D3Timeline.t * World :=
  let '(this, w) := built in
  let '(_, this, w) :=
    D3Timeline.addTimeline (P := runtime) "Plan" None (Some (IDNum 0)) None this w in
  let '(_, this, w) :=
    D3Timeline.addTimeline (P := runtime) "Build" (Some "#222222") (Some (IDStr "b"))
      None this w in
  (this, w).

Definition kickoff (stage : option val) : D3Timeline.PartialEventData.t :=
  {| D3Timeline.PartialEventData.id := Some (IDNum 1);
     D3Timeline.PartialEventData.timelineId := None;
     D3Timeline.PartialEventData.title := Some "kickoff";
     D3Timeline.PartialEventData.description := None;
     D3Timeline.PartialEventData.startTime := Some 1000%Z;
     D3Timeline.PartialEventData.endTime := None;
     D3Timeline.PartialEventData.color := None;
     D3Timeline.PartialEventData.stage := stage |}.

Definition rollout (stage : option val) : D3Timeline.PartialEventData.t :=
  {| D3Timeline.PartialEventData.id := Some (IDNum 2);
     D3Timeline.PartialEventData.timelineId := Some (IDStr "b");
     D3Timeline.PartialEventData.title := Some "rollout";
     D3Timeline.PartialEventData.description := Some "two weeks";
     D3Timeline.PartialEventData.startTime := Some 2000%Z;
     D3Timeline.PartialEventData.endTime := Some 3000%Z;
     D3Timeline.PartialEventData.color := Some "#00aa00";
     D3Timeline.PartialEventData.stage := stage |}.

(** Two events of the stage ["s1"] on the timeline ["b"], the later one
    first in the stage:
    [addEvent({..., stage: {id: "s1", index: 1}}, "b");
     addEvent({..., stage: {id: "s1", index: 0}}, "b")] *)
Definition staged : D3Timeline.t * World :=
  let '(this, w) := planned in
  let '(s1, w) := new_object (ORecord [("id", VStr "s1"); ("index", VNum 1)]) w in
  let '(s2, w) := new_object (ORecord [("id", VStr "s1"); ("index", VNum 0)]) w in
  let '(_, this, w) :=
    D3Timeline.addEvent (P := runtime) (kickoff (Some s1)) (Some (IDStr "b")) None this w in
  let '(_, this, w) :=
    D3Timeline.addEvent (P := runtime) (rollout (Some s2)) (Some (IDStr "b")) None this w in
  (this, w).

(** The same instance after [exportDataString()]: the dates of its
    events are records now. *)
Definition exported : D3Timeline.t * World :=
  match D3Timeline.exportDataString (P := runtime) 4 None (fst staged) (snd staged) with
  | Some (_, w) => (fst staged, w)
  | None => staged
  end.

(** The same instance after [hideStageLines()]. *)
Definition hidden : D3Timeline.t := D3Timeline.hideStageLines (fst staged).

(** A payload with timelines and no events: [{timelines: [], events: null}] *)
Definition truncated : val * World :=
  let '(ts, w) := new_object (OArray []) (snd planned) in
  new_object (ORecord [("timelines", ts); ("events", VNull)]) w.

(** A payload whose timeline has no identifier:
    [{timelines: [{name: "x"}], events: []}] *)
Definition unidentified : val * World :=
  let '(tl, w) := new_object (ORecord [("name", VStr "x")]) (snd planned) in
  let '(ts, w) := new_object (OArray [tl]) w in
  let '(es, w) := new_object (OArray []) w in
  new_object (ORecord [("timelines", ts); ("events", es)]) w.

(** The horizontal scale: a pixel per millisecond. *)
Definition xScale (v : val) : Q := inject_Z (D3Timeline.getTime v).

(** An event configured without times. *)
Definition untimed : D3Timeline.PartialEventData.t :=
  {| D3Timeline.PartialEventData.id := None;
     D3Timeline.PartialEventData.timelineId := None;
     D3Timeline.PartialEventData.title := Some "review";
     D3Timeline.PartialEventData.description := None;
     D3Timeline.PartialEventData.startTime := None;
     D3Timeline.PartialEventData.endTime := None;
     D3Timeline.PartialEventData.color := None;
     D3Timeline.PartialEventData.stage := None |}.

End Sample.
(** * Vocabulary of the properties *)

Module AddTimelineCall.
Record t := {
  name : string;
  color : option string;
  id : option ID;
  autofit : option bool
}.
End AddTimelineCall.

Section Vocabulary.
Context {P : Platform}.
Import D3Timeline.

(** The resolved width as the specification glosses it: the explicit
    option, else the container's client width. *)
Definition claimedWidth (container : HTMLElement.t) (options : TimelineOptions.t) : Z :=
  match TimelineOptions.width options with
  | Some (Some x) => x
  | _ => HTMLElement.clientWidth container
  end.

(** The width the constructor falls back to: the explicit option when
    it is positive, else the container's client width. *)
Definition resolvedWidth (container : HTMLElement.t) (options : TimelineOptions.t) : Z :=
  match TimelineOptions.width options with
  | Some (Some x) => if (0 <? x)%Z then x else HTMLElement.clientWidth container
  | _ => HTMLElement.clientWidth container
  end.

(** The options whose width, when given, is a number. *)
Definition width_is_number (options : TimelineOptions.t) : Prop :=
  TimelineOptions.width options <> Some None.

(** The span of the instance's time range, in milliseconds. *)
Definition span (this : t) (h : heap) : Z :=
  (getTime (getv h (timeRange this) "end") -
   getTime (getv h (timeRange this) "start"))%Z.

(** Every timeline carries an identifier, as [TimelineData] declares. *)
Definition timelines_have_ids (h : heap) (this : t) : Prop :=
  Forall (fun tl => exists i : ID, getv h tl "id" = of_ID i) (timelines this).

(** The event as stored agrees with its configuration: [range] when
    an end time was supplied, else [point] with the supplied start
    time as its end time. *)
Definition classified (h : heap) (event : PartialEventData.t) (stored : val) : Prop :=
  match PartialEventData.endTime event with
  | Some e =>
      getv h stored "type" = VStr "range" /\ getv h stored "endTime" = VDate e
  | None =>
      getv h stored "type" = VStr "point" /\
      forall s, PartialEventData.startTime event = Some s ->
                getv h stored "endTime" = VDate s /\
                getv h stored "startTime" = VDate s
  end.

(** The timeline an event of a batch is meant for: the one of the
    [timelineId] argument, else the one the event names. *)
Definition target (timelineId : option ID) (event : PartialEventData.t) : val :=
  nullish (of_optional of_ID timelineId)
          (of_optional of_ID (PartialEventData.timelineId event)).

(** The event can be filed: its target is a usable identifier and
    names a timeline of the instance. *)
Definition fileable (h : heap) (this : t) (timelineId : option ID)
    (event : PartialEventData.t) : Prop :=
  truthy (target timelineId event) = true /\
  is_Some (find_timeline h this (target timelineId event)).

(** A sequence of [addTimeline] calls, with the timelines they return. *)
Fixpoint addTimeline_calls (calls : list AddTimelineCall.t) (this : t) (w : World)
  : list val * t * World :=
  match calls with
  | [] => ([], this, w)
  | c :: rest =>
      let '(tl, this, w) :=
        addTimeline (AddTimelineCall.name c) (AddTimelineCall.color c)
                    (AddTimelineCall.id c) (AddTimelineCall.autofit c) this w in
      let '(tls, this, w) := addTimeline_calls rest this w in
      (tl :: tls, this, w)
  end.

(** The timeline object a call asks for. *)
Definition timeline_of (h : heap) (c : AddTimelineCall.t) (tl : val) : Prop :=
  getv h tl "name" = VStr (AddTimelineCall.name c) /\
  getv h tl "color" = VStr (default "#667eea" (AddTimelineCall.color c)) /\
  (exists i : ID, getv h tl "id" = of_ID i) /\
  forall i, AddTimelineCall.id c = Some i -> getv h tl "id" = of_ID i.

(** [[...data.timelines]] and [[...data.events]] *)
Definition payload_timelines (h : heap) (data : val) : Result (list val) :=
  match Get h data "timelines" with
  | Throw e => Throw e
  | Ok x => spread_array h x
  end.

Definition payload_events (h : heap) (data : val) : Result (list val) :=
  match Get h data "events" with
  | Throw e => Throw e
  | Ok x => spread_array h x
  end.

(** The store once [importData] has copied the time range of the
    payload, which is when it starts to draw. *)
Definition store_with_range (h : heap) (data : val) : heap :=
  h ++ [ORecord (spread_object h (getv h data "timeRange"))].

(** The malformed payloads: the ones on which some step of the import
    fails.  Either the timelines or the events cannot be read as an
    array ([data] is [null] or [undefined], or the property is not
    iterable), or one of their elements cannot be drawn because it has
    no [id]. *)
Definition malformed (h : heap) (data : val) : Prop :=
  (exists e, payload_timelines h data = Throw e) \/
  (exists e, payload_events h data = Throw e) \/
  (exists ts es d e,
     payload_timelines h data = Ok ts /\ payload_events h data = Ok es /\
     d ∈ ts ++ es /\ key (store_with_range h data) d = Throw e).

(** No rollback: what a failed import leaves in the instance.  Each
    of [timelines], [events] and [timeRange] that was assigned before
    the failing step holds the value taken from the payload; the ones
    after it are as they were. *)
Definition not_rolled_back (h : heap) (data : val) (this this' : t) : Prop :=
  match payload_timelines h data, payload_events h data with
  | Throw _, _ =>
      timelines this' = timelines this /\ events this' = events this /\
      timeRange this' = timeRange this
  | Ok ts, Throw _ =>
      timelines this' = ts /\ events this' = events this /\
      timeRange this' = timeRange this
  | Ok ts, Ok es =>
      timelines this' = ts /\ events this' = es /\
      timeRange this' = VRef (length h)
  end.

(** [this.logger.error] has been called once, with the import message. *)
Definition logged_error (before after : Logger.t) : Prop :=
  exists msg, after = Logger.log_error ("数据导入失败: " ++ msg) before.

(** The anchor points of a path: where each piece appended to
    [pathData] ends. *)
Definition end_of (c : PathCmd) : Q * Q :=
  match c with
  | M x y | L x y | Qcurve _ _ x y | Ccurve _ _ _ _ x y => (x, y)
  end.

Definition anchors (d : list (list PathCmd)) : list (Q * Q) :=
  omap (fun piece => end_of <$> last piece) d.

Definition point_xy (p : Point.t) : Q * Q := (Point.x p, Point.y p).

(** The events of one stage, as the specification speaks of them:
    those that carry a stage whose identifier is [stageId]. *)
Definition has_stage (h : heap) (stageId : val) (e : val) : bool :=
  truthy (getv h e "stage") && strict_eq (getv h (getv h e "stage") "id") stageId.

Definition stage_members (h : heap) (events : list val) (stageId : val) : list val :=
  List.filter (has_stage h stageId) events.

(** The events a [Map] of stage groups holds under a key. *)
Definition members_in (groups : list (val * list val)) (key : val) : list val :=
  match List.find (fun g => strict_eq (fst g) key) groups with
  | Some g => snd g
  | None => []
  end.

(** The [Map] after the events [pre] have been filed: one entry per
    stage in use, holding the events of that stage in their order. *)
Definition grouped (h : heap) (pre : list val) (groups : list (val * list val)) : Prop :=
  NoDup (map fst groups) /\
  (forall k, members_in groups k = stage_members h pre k) /\
  (forall k, k ∈ map fst groups <-> stage_members h pre k <> []).

(** in ascending order of stage index *)
Definition ascending (h : heap) (l : list val) : Prop :=
  Sorted (fun a b => (stage_index h a <= stage_index h b)%Z) l.

(** What the stage-line layer holds for one stage. *)
Definition drawn_for (stageId : val) (layer : list StageLine.t) : list StageLine.t :=
  List.filter (fun g => strict_eq (StageLine.stageId g) stageId) layer.
End Vocabulary.

(** ** Reading the store *)

(** A value of the store read as a tree: what deep equality compares. *)
Unset Elimination Schemes.
Inductive tree :=
  | TUndefined
  | TNull
  | TBool (b : bool)
  | TNum (n : Z)
  | TStr (s : string)
  | TDate (d : Date)
  | TArr (items : list tree)
  | TObj (members : list (string * tree)).
Set Elimination Schemes.

(** [reify n h v]: the tree under [v], when it is at most [n] objects
    deep (a [Date] is an object); [None] for deeper and for cyclic ones. *)
Fixpoint reify (n : nat) (h : heap) (v : val) : option tree :=
  match v with
  | VUndefined => Some TUndefined
  | VNull => Some TNull
  | VBool b => Some (TBool b)
  | VNum z => Some (TNum z)
  | VStr s => Some (TStr s)
  | VDate d => match n with 0 => None | S _ => Some (TDate d) end
  | VRef l =>
      match n, h !! l with
      | S n', Some o =>
          match mapM (reify n' h) (slots o) with
          | Some ts =>
              Some match o with
                   | OArray _ => TArr ts
                   | ORecord ps => TObj (zip (fst <$> ps) ts)
                   end
          | None => None
          end
      | _, _ => None
      end
  end.

Fixpoint tree_assoc (k : string) (ms : list (string * tree)) : option tree :=
  match ms with
  | [] => None
  | (k', t) :: rest => if String.eqb k k' then Some t else tree_assoc k rest
  end.

Definition is_TUndefined (t : tree) : bool :=
  match t with
  | TUndefined => true
  | _ => false
  end.

(** [t === "Date"] for a property read from a tree *)
Definition names_Date (t : option tree) : bool :=
  match t with
  | Some (TStr x) => String.eqb x "Date"
  | _ => false
  end.

(** A tree without the members whose value is [undefined], which no
    JSON text carries. *)
Fixpoint prune (t : tree) : tree :=
  match t with
  | TArr items => TArr (prune <$> items)
  | TObj ms =>
      TObj ((fix members (ms : list (string * tree)) : list (string * tree) :=
               match ms with
               | [] => []
               | (k, c) :: rest =>
                   if is_TUndefined c then members rest
                   else (k, prune c) :: members rest
               end) ms)
  | _ => t
  end.

(** Data as the interfaces of [D3Timeline.ts] describe it: objects have
    one value per key and none passes for an encoded date (no [$type]
    member equal to ["Date"]); arrays hold no [undefined]. *)
Fixpoint plain (t : tree) : bool :=
  match t with
  | TArr items => forallb (fun c => negb (is_TUndefined c) && plain c) items
  | TObj ms =>
      bool_decide (NoDup (fst <$> ms)) &&
      negb (names_Date (tree_assoc "$type" ms)) &&
      forallb (fun '(_, c) => plain c) ms
  | _ => true
  end.

Section Exported.
Context {P : Platform}.

(** The members of the record [{$type: "Date", $value: iso}] that an
    export writes where a stored object held a date, with the date it
    stands for: [iso] is the ISO string of a date. *)
Definition encoded_date (ms : list (string * tree)) : option Date :=
  match ms with
  | [(k1, TStr ty); (k2, TStr iso)] =>
      if String.eqb k1 "$type" && String.eqb ty "Date" && String.eqb k2 "$value" &&
         String.eqb (toISOString (Date_parse iso)) iso
      then Some (Date_parse iso)
      else None
  | _ => None
  end.

(** The data of an instance, whether or not it has been exported
    before: as [plain], except that an object whose [$type] is
    ["Date"] is allowed when it is such a record. *)
Fixpoint canonical (t : tree) : bool :=
  match t with
  | TArr items => forallb (fun c => negb (is_TUndefined c) && canonical c) items
  | TObj ms =>
      bool_decide (NoDup (fst <$> ms)) &&
      (if names_Date (tree_assoc "$type" ms)
       then bool_decide (is_Some (encoded_date ms))
       else forallb (fun '(_, c) => canonical c) ms)
  | _ => true
  end.

(** A tree as it reads after an export and an import: the records of
    encoded dates are the dates again, and the members whose value is
    [undefined] are gone. *)
Fixpoint settle (t : tree) : tree :=
  match t with
  | TArr items => TArr (settle <$> items)
  | TObj ms =>
      match encoded_date ms with
      | Some d => TDate d
      | None =>
          TObj ((fix members (ms : list (string * tree)) : list (string * tree) :=
                   match ms with
                   | [] => []
                   | (k, c) :: rest =>
                       if is_TUndefined c then members rest
                       else (k, settle c) :: members rest
                   end) ms)
      end
  | _ => t
  end.

Definition settle_members (ms : list (string * tree)) : list (string * tree) :=
  omap (fun '(k, c) => if is_TUndefined c then None else Some (k, settle c)) ms.
End Exported.

(** A timeline or an event with an identifier, as [TimelineData] and
    [EventData] declare: an object whose [id] is a number or a string. *)
Definition identified (t : tree) : bool :=
  match t with
  | TObj ms =>
      match tree_assoc "id" ms with
      | Some (TNum _ | TStr _) => true
      | _ => false
      end
  | _ => false
  end.

(** The depth of a JSON document in objects and arrays. *)
Fixpoint json_depth (j : json) : nat :=
  match j with
  | JArr items => S (max_list (json_depth <$> items))
  | JObj ms => S (max_list ((fun '(_, x) => json_depth x) <$> ms))
  | _ => 0
  end.

Definition tree_truthy (t : tree) : bool :=
  match t with
  | TUndefined | TNull => false
  | TBool b => b
  | TNum n => negb (n =? 0)%Z
  | TStr x => negb (String.eqb x "")
  | _ => true
  end.

Definition is_TDate (t : tree) : bool :=
  match t with
  | TDate _ => true
  | _ => false
  end.

Section Printing.
Context {P : Platform}.
Variable f : JSONSerializer.DateFormat.

(** The JSON form of the record [dateReplacer] builds. *)
Definition tag_json (d : Date) : json :=
  match f with
  | JSONSerializer.timestamp => JObj [("$type", JStr "Date"); ("$value", JNum d)]
  | JSONSerializer.formatted =>
      JObj [("$type", JStr "Date");
            ("$value", JStr (toLocaleString d));
            ("$iso", JStr (toISOString d))]
  | JSONSerializer.iso => JObj [("$type", JStr "Date"); ("$value", JStr (toISOString d))]
  end.

(** What [stringify] prints for a value, computed without touching
    the store.  A [Date] held by an object or an array is printed as
    its tagged record, one on its own through [toJSON]. *)
Fixpoint print (n : nat) (h : heap) (v : val) : option (option json) :=
  match v with
  | VUndefined => Some None
  | VNull => Some (Some JNull)
  | VBool b => Some (Some (JBool b))
  | VNum z => Some (Some (JNum z))
  | VStr x => Some (Some (JStr x))
  | VDate d => Some (Some (JStr (toISOString d)))
  | VRef l =>
      match n, h !! l with
      | S n', Some o =>
          match mapM (fun c => match c with
                               | VDate d =>
                                   match n' with
                                   | 0 => None
                                   | S _ => Some (Some (tag_json d))
                                   end
                               | _ => print n' h c
                               end) (slots o) with
          | Some rs => Some (Some (json_of o rs))
          | None => None
          end
      | _, _ => None
      end
  end.

Definition print_slot (n : nat) (h : heap) (c : val) : option (option json) :=
  match c with
  | VDate d => match n with 0 => None | S _ => Some (Some (tag_json d)) end
  | _ => print n h c
  end.

(** The same on trees. *)
Fixpoint encode (t : tree) : option json :=
  match t with
  | TUndefined => None
  | TNull => Some JNull
  | TBool b => Some (JBool b)
  | TNum z => Some (JNum z)
  | TStr x => Some (JStr x)
  | TDate d => Some (JStr (toISOString d))
  | TArr items =>
      Some (JArr (array_items
                    ((fun c => match c with
                               | TDate d => Some (tag_json d)
                               | _ => encode c
                               end) <$> items)))
  | TObj ms =>
      Some (JObj (object_members (fst <$> ms)
                    ((fun '(_, c) => match c with
                                     | TDate d => Some (tag_json d)
                                     | _ => encode c
                                     end) <$> ms)))
  end.

Definition encode_slot (c : tree) : option json :=
  match c with
  | TDate d => Some (tag_json d)
  | _ => encode c
  end.

(** [new Date(x)] on trees *)
Definition Date_of_tree (t : tree) : Date :=
  match t with
  | TNum n => n
  | TStr x => Date_parse x
  | TDate d => d
  | TNull => 0%Z
  | TBool b => if b then 1%Z else 0%Z
  | TUndefined => Date_parse "undefined"
  | TArr _ | TObj _ => Date_parse "[object Object]"
  end.

(** The reviver on trees. *)
Definition revive (t : tree) : tree :=
  match t with
  | TObj ms =>
      if names_Date (tree_assoc "$type" ms) then
        TDate (Date_of_tree
                 (if match f with JSONSerializer.formatted => true | _ => false end
                     && tree_truthy (default TUndefined (tree_assoc "$iso" ms))
                  then default TUndefined (tree_assoc "$iso" ms)
                  else default TUndefined (tree_assoc "$value" ms)))
      else t
  | _ => t
  end.

(** What [parse] builds from a document. *)
Fixpoint decode (j : json) : tree :=
  match j with
  | JNull => TNull
  | JBool b => TBool b
  | JNum n => TNum n
  | JStr x => TStr x
  | JArr items => TArr (decode <$> items)
  | JObj ms => revive (TObj ((fun '(k, x) => (k, decode x)) <$> ms))
  end.
End Printing.

Section Serializer.
Context {P : Platform}.
Variable s : JSONSerializer.t.

(** [v] is the record [dateReplacer] builds for the date [d]. *)
Definition tagged (h : heap) (v : val) (d : Date) : Prop :=
  exists r, v = VRef r /\ h !! r = Some (JSONSerializer.dateReplacer s d).

(** The value that stands for a date in the date format of [s]: its
    ISO string, its time value or its locale string. *)
Definition date_value (d : Date) : val :=
  match JSONSerializer.dateFormat s with
  | JSONSerializer.iso => VStr (toISOString d)
  | JSONSerializer.timestamp => VNum d
  | JSONSerializer.formatted => VStr (toLocaleString d)
  end.

(** [v] is a plain record [{$type: "Date", $value: ...}] for the date
    [d]: a new object whose [$type] is the string ["Date"] and whose
    [$value] stands for [d]; the format [formatted] keeps the ISO
    string next to it, as [$iso].  It has no other property. *)
Definition date_record (h : heap) (v : val) (d : Date) : Prop :=
  exists r ps,
    v = VRef r /\ h !! r = Some (ORecord ps) /\
    assoc "$type" ps = Some (VStr "Date") /\
    assoc "$value" ps = Some (date_value d) /\
    match JSONSerializer.dateFormat s with
    | JSONSerializer.formatted =>
        fst <$> ps = ["$type"; "$value"; "$iso"] /\
        assoc "$iso" ps = Some (VStr (toISOString d))
    | _ => fst <$> ps = ["$type"; "$value"]
    end.

(** How [stringify] may change a property value: not at all, or from
    a [Date] to its tagged record. *)
Definition slot_evolves (h' : heap) (v v' : val) : Prop :=
  v' = v \/ exists d, v = VDate d /\ tagged h' v' d.

Definition obj_evolves (h' : heap) (o o' : obj) : Prop :=
  exists vs, o' = with_slots o vs /\ Forall2 (slot_evolves h') (slots o) vs.

Definition evolves (h h' : heap) : Prop :=
  forall l o, h !! l = Some o -> exists o', h' !! l = Some o' /\ obj_evolves h' o o'.
End Serializer.

Definition is_Date (v : val) : bool :=
  match v with
  | VDate _ => true
  | _ => false
  end.

Definition is_ref (v : val) : bool :=
  match v with
  | VRef _ => true
  | _ => false
  end.

(** An object [stringify] has been through holds no [Date] any more. *)
Definition settled (h : heap) (l : loc) : Prop :=
  exists o, h !! l = Some o /\ forallb (fun v => negb (is_Date v)) (slots o) = true.

(** The objects and arrays [stringify] walks through from [v]. *)
Inductive reachable (h : heap) : val -> loc -> Prop :=
  | reach_here l o : h !! l = Some o -> reachable h (VRef l) l
  | reach_step l o v l' :
      h !! l = Some o -> v ∈ slots o -> reachable h v l' -> reachable h (VRef l) l'.

(** The depth of a tree in objects, a [Date] being one. *)
Fixpoint tree_depth (t : tree) : nat :=
  match t with
  | TDate _ => 1
  | TArr items => S (max_list (tree_depth <$> items))
  | TObj ms => S (max_list ((fun '(_, c) => tree_depth c) <$> ms))
  | _ => 0
  end.

(** What [stringify] has done to a property value: a [Date] has become
    its tagged record, anything else is as it was. *)
Definition rewritten {P : Platform} (s : JSONSerializer.t) (h' : heap) (v v' : val) : Prop :=
  match v with
  | VDate d => tagged s h' v' d
  | _ => v' = v
  end.

(** The same in the terms of the specification: a [Date] has become a
    [{$type: "Date", $value: ...}] record for it. *)
Definition replaced {P : Platform} (s : JSONSerializer.t) (h' : heap) (v v' : val) : Prop :=
  match v with
  | VDate d => date_record s h' v' d
  | _ => v' = v
  end.

(** The data of an instance read from the store: its timelines, its
    events and its time range. *)
Definition state_tree (n : nat) (h : heap) (this : D3Timeline.t)
  : option (list tree * list tree * tree) :=
  match mapM (reify n h) (D3Timeline.timelines this),
        mapM (reify n h) (D3Timeline.events this),
        reify n h (D3Timeline.timeRange this) with
  | Some ts, Some es, Some r => Some (ts, es, r)
  | _, _, _ => None
  end.

(** The serializers [exportDataString] and [importDataString] build. *)
Definition export_serializer (autoFormat : option bool) : JSONSerializer.t :=
  JSONSerializer.new
    {| JSONSerializer.opt_dateFormat := None;
       JSONSerializer.opt_space := Some (if default false autoFormat then 2%Z else 0%Z) |}.

Definition import_serializer : JSONSerializer.t :=
  JSONSerializer.new JSONSerializer.no_options.

(** The members of an object that [prune] keeps. *)
Definition prune_members (ms : list (string * tree)) : list (string * tree) :=
  omap (fun '(k, c) => if is_TUndefined c then None else Some (k, prune c)) ms.

(** The four objects [exportData] allocates. *)
Definition exported (this : D3Timeline.t) (h : heap) : heap :=
  [OArray (D3Timeline.timelines this);
   OArray (D3Timeline.events this);
   ORecord (spread_object
              (h ++ [OArray (D3Timeline.timelines this); OArray (D3Timeline.events this)])
              (D3Timeline.timeRange this));
   ORecord [("timelines", VRef (length h));
            ("events", VRef (length h + 1));
            ("timeRange", VRef (length h + 2))]].


(** ** Vocabulary of the further properties *)

(** The [addTimeline] call that does what [addTimelines] does for one
    element of its array. *)
Definition call_of (autofit : option bool) (c : D3Timeline.TimelineConfig.t)
  : AddTimelineCall.t :=
  {| AddTimelineCall.name := D3Timeline.TimelineConfig.name c;
     AddTimelineCall.color := D3Timeline.TimelineConfig.color c;
     AddTimelineCall.id := D3Timeline.TimelineConfig.id c;
     AddTimelineCall.autofit := autofit |}.

(** The height one timeline takes with the gap above it. *)
Definition row (this : D3Timeline.t) : Z :=
  (D3Timeline.Options.timelineSpacing (D3Timeline.options this) +
   D3Timeline.Options.timelineHeight (D3Timeline.options this))%Z.

(** Every event carries an identifier, as [EventData] declares. *)
Definition events_have_ids (h : heap) (this : D3Timeline.t) : Prop :=
  Forall (fun e => exists i : ID, getv h e "id" = of_ID i) (D3Timeline.events this).

(** A piece of a path made of straight strokes, each horizontal or
    vertical, drawn from the point [from]. *)
Fixpoint strokes_axis_parallel (from : Q * Q) (cmds : list D3Timeline.PathCmd) : Prop :=
  match cmds with
  | [] => True
  | D3Timeline.L x y :: rest =>
      (x == fst from \/ y == snd from)%Q /\ strokes_axis_parallel (x, y) rest
  | _ => False
  end.

(** The events of a list whose stage index is [k], in their order. *)
Definition with_index (h : heap) (k : Z) (l : list val) : list val :=
  List.filter (fun e => (D3Timeline.stage_index h e =? k)%Z) l.

(** The calls that add and remove timelines and events. *)
Inductive Op :=
  | AddTimeline (name : string) (color : option string) (id : option ID)
      (autofit : option bool)
  | AddTimelines (configs : list D3Timeline.TimelineConfig.t) (autofit : option bool)
  | AddEvent (event : D3Timeline.PartialEventData.t) (timelineId : option ID)
      (autofit : option bool)
  | AddEvents (events : list D3Timeline.PartialEventData.t) (timelineId : option ID)
      (autofit : option bool)
  | RemoveTimeline (id : ID)
  | RemoveEvent (id : Z).

Section Runs.
Context {P : Platform}.
Import D3Timeline.

(** One call, its result dropped (an exception leaves the instance as
    [addEvent] and [addEvents] left it). *)
Definition apply_op (op : Op) (this : t) (w : World) : t * World :=
  match op with
  | AddTimeline name color id autofit =>
      let '(_, this, w) := addTimeline name color id autofit this w in (this, w)
  | AddTimelines configs autofit =>
      let '(_, this, w) := addTimelines configs autofit this w in (this, w)
  | AddEvent event timelineId autofit =>
      let '(_, this, w) := addEvent event timelineId autofit this w in (this, w)
  | AddEvents events_ timelineId autofit =>
      let '(_, this, w) := addEvents events_ timelineId autofit this w in (this, w)
  | RemoveTimeline id => removeTimeline id this w
  | RemoveEvent id => removeEvent id this w
  end.

Fixpoint run (ops : list Op) (this : t) (w : World) : t * World :=
  match ops with
  | [] => (this, w)
  | op :: rest => let '(this, w) := apply_op op this w in run rest this w
  end.

(** The event [e] names a timeline of the instance. *)
Definition belongs (h : heap) (this : t) (e : val) : Prop :=
  exists tl, tl ∈ timelines this /\
             getv h tl "id" = getv h e "timelineId" /\
             getv h e "timelineId" <> VUndefined.

Definition attached (h : heap) (this : t) : Prop :=
  Forall (belongs h this) (events this).

(** What the calls keep true of an instance. *)
Definition consistent (h : heap) (this : t) : Prop :=
  timelines_have_ids h this /\ attached h this.

(** The instance [addTimelines] and the successive calls both reach. *)
Definition batch_result (autofit : option bool) (configs : list TimelineConfig.t)
    (added : list val) (this : t) : t :=
  match configs with
  | [] => this
  | _ =>
      let this' := set_timelines (timelines this ++ added) this in
      if default true autofit then resize this' else this'
  end.
End Runs.

(** A session on the sample instance: two timelines; an event on the
    second one; a batch that raises, its second event naming no
    timeline; the same batch with the timeline given; then the first
    event and the first timeline removed.  Two events are left. *)
Definition sample_session : list Op :=
  [AddTimeline "Plan" None (Some (IDNum 0)) None;
   AddTimelines [{| D3Timeline.TimelineConfig.name := "Build";
                    D3Timeline.TimelineConfig.color := None;
                    D3Timeline.TimelineConfig.id := Some (IDStr "b") |}] None;
   AddEvent (Sample.kickoff None) (Some (IDStr "b")) None;
   AddEvents [Sample.rollout None; Sample.untimed] None None;
   AddEvents [Sample.rollout None; Sample.untimed] (Some (IDStr "b")) None;
   RemoveEvent 1;
   RemoveTimeline (IDNum 0)].

(** A value that is no reference to an object older than the store of
    size [k]. *)
Definition fresh_from (k : nat) (v : val) : Prop :=
  match v with
  | VRef l => k <= l
  | _ => True
  end.

(** Objects that hold no reference to an object older than that. *)
Definition news_fresh (k : nat) (news : list obj) : Prop :=
  Forall (fun o => Forall (fresh_from k) (slots o)) news.

(** A text to import: one timeline, one event with an encoded date. *)
Definition sample_text : text :=
  Rendered 0
    (JObj [("timelines", JArr [JObj [("id", JStr "t"); ("name", JStr "T");
                                     ("color", JStr "#000000")]]);
           ("events",
            JArr [JObj [("id", JNum 7); ("timelineId", JStr "t");
                        ("startTime", JObj [("$type", JStr "Date");
                                            ("$value", JStr "T1000")])]]);
           ("timeRange", JObj [])]).

(** Parsing the document [j] creates only objects that refer to objects
    it has created, and returns such a value. *)
Definition allocates_fresh {P : Platform} (s : JSONSerializer.t) (j : json) : Prop :=
  forall h, exists news,
    snd (Internalize (JSONSerializer.reviver s) j h) = h ++ news /\
    fresh_from (length h) (fst (Internalize (JSONSerializer.reviver s) j h)) /\
    news_fresh (length h) news.
(** * Properties *)

(** ** Construction *)
Section Construction.
Context {P : Platform}.
Import D3Timeline.

Lemma resolveSize_width container generated options :
  width_is_number options ->
  Options.width (resolveSize container (Options.merge (defaultOptions generated) options))
  = Some (if (0 <? resolvedWidth container options)%Z
          then resolvedWidth container options
          else default 0%Z (default (Some 0%Z) (TimelineOptions.width options))).
Proof.
  unfold resolveSize, resolvedWidth, width_is_number.
  destruct options as [oid [[x|]|] oh om oth ots oa ozmin ozmax oan osl olo]; cbn;
    intros Hn; try done;
    repeat (match goal with
            | |- context [(?a <=? ?b)%Z] => destruct (Z.leb_spec a b)
            | |- context [(?a <? ?b)%Z] => destruct (Z.ltb_spec a b)
            | H : context [(?a <? ?b)%Z] |- _ => destruct (Z.ltb_spec a b)
            | |- context [le_zero (Options.height ?o)] =>
                destruct (le_zero (Options.height o))
            | |- context [le_zero ?o] => destruct (le_zero o)
            end; cbn in *);
    try reflexivity; try lia.
Qed.

End Construction.

(** A container without height and no height option: the constructor
    goes through. *)
Example constructor_ignores_height :
  exists this,
    fst (D3Timeline.constructor (P := Sample.runtime) Sample.container0
           D3Timeline.TimelineOptions.empty Sample.world0)
    = Ok this /\
    D3Timeline.Options.height (D3Timeline.options this) = Some 0%Z.
Proof. eexists. split; reflexivity. Qed.


(** [new D3Timeline(container, {width: undefined})] in a container that
    has no size: [undefined <= 0] is false, the width error is not
    raised and the instance has no width. *)
Example constructor_undefined_width :
  exists this,
    fst (D3Timeline.constructor (P := Sample.runtime) Sample.collapsed
           (Sample.width_option None) Sample.world0)
    = Ok this /\
    D3Timeline.Options.width (D3Timeline.options this) = None /\
    D3Timeline.getTimelineInnerWidth this = None.
Proof. eexists. repeat split; reflexivity. Qed.

(** ** Zoom bounds *)
Section Zoom.
Context {P : Platform}.
Import D3Timeline.

(** What [setupZoom] hands to [scaleExtent]. *)
Lemma setupZoom_scaleExtent this h :
  scaleExtent (setupZoom this h)
  = (Math_max 1 (inject_Z (Options.zoomMax (options this)) / inject_Z (span this h)),
     Math_max 1 (inject_Z (span this h) / inject_Z (Options.zoomMin (options this)))).
Proof. reflexivity. Qed.
End Zoom.

(** C1. An instance built with the default options: its range spans
    twenty years ([7305] days), [zoomMax] is one year.  The upper bound
    of the scale extent is [max(1, span/zoomMin)], but the lower bound
    is [1], which is [max(1, zoomMax/span)] and not the
    [max(1, span/zoomMax)] the visible-span limit calls for. *)
Theorem setupZoom_default_extent :
  exists this,
    fst (D3Timeline.constructor (P := Sample.runtime) Sample.container0
           D3Timeline.TimelineOptions.empty Sample.world0) = Ok this /\
    let S := inject_Z (span this (store (snd (D3Timeline.constructor (P := Sample.runtime)
               Sample.container0 D3Timeline.TimelineOptions.empty Sample.world0)))) in
    let zoomMin := inject_Z (D3Timeline.Options.zoomMin (D3Timeline.options this)) in
    let zoomMax := inject_Z (D3Timeline.Options.zoomMax (D3Timeline.options this)) in
    (S == 7305 * 86400000 /\
     snd (D3Timeline.scaleExtent this) == D3Timeline.Math_max 1 (S / zoomMin) /\
     fst (D3Timeline.scaleExtent this) == 1 /\
     D3Timeline.Math_max 1 (S / zoomMax) == 7305 # 365 /\
     ~ fst (D3Timeline.scaleExtent this) == D3Timeline.Math_max 1 (S / zoomMax))%Q.
Proof.
  eexists. split; [reflexivity|].
  cbv zeta. repeat split; try (vm_compute; congruence).
Qed.

(** ** Adding events *)
Section Events.
Context {P : Platform}.
Import D3Timeline.

Lemma of_ID_defined i : of_ID i <> VUndefined /\ of_ID i <> VNull.
Proof. destruct i; split; discriminate. Qed.

Lemma getv_app h h2 v k :
  getv h v k <> VUndefined -> getv (h ++ h2) v k = getv h v k.
Proof.
  destruct v; cbn; try congruence.
  destruct (h !! l) as [o|] eqn:E; [|congruence].
  intros _. by rewrite (lookup_app_l_Some _ _ _ _ E).
Qed.

Lemma getv_new h o k : getv (h ++ [ORecord o]) (VRef (length h)) k
                       = default VUndefined (assoc k o).
Proof. unfold getv. by rewrite list_lookup_middle. Qed.

Lemma find_timeline_app h h2 this x :
  timelines_have_ids h this ->
  find_timeline (h ++ h2) this x = find_timeline h this x.
Proof.
  unfold find_timeline, timelines_have_ids.
  induction 1 as [|tl tls [i Hi] _ IH]; [reflexivity|].
  cbn. rewrite getv_app, IH; [reflexivity|].
  rewrite Hi. apply of_ID_defined.
Qed.

Lemma timelines_have_ids_app h h2 this :
  timelines_have_ids h this -> timelines_have_ids (h ++ h2) this.
Proof.
  unfold timelines_have_ids. intros H. eapply Forall_impl; [exact H|].
  cbn. intros tl [i Hi].
  exists i. rewrite getv_app; [done|]. rewrite Hi. apply of_ID_defined.
Qed.

Lemma find_timeline_undefined h this :
  timelines_have_ids h this -> find_timeline h this VUndefined = None.
Proof.
  unfold find_timeline, timelines_have_ids.
  induction 1 as [|tl tls [i Hi] _ IH]; [reflexivity|].
  cbn. rewrite Hi, IH. unfold strict_eq.
  rewrite bool_decide_eq_false_2; [done|]. apply of_ID_defined.
Qed.

Lemma find_timeline_Some h this x tl :
  find_timeline h this x = Some tl -> In tl (timelines this) /\ getv h tl "id" = x.
Proof.
  unfold find_timeline. intros H. apply find_some in H as [H1 H2].
  split; [done|]. unfold strict_eq in H2. by apply bool_decide_eq_true in H2.
Qed.

(** [make_eventData] allocates one record and nothing else. *)
Lemma make_eventData_spec event tid tl w :
  exists o,
    make_eventData event tid tl w
    = (VRef (length (store w)),
       with_store (store w ++ [ORecord o]) (snd (make_eventData event tid tl w))) /\
    store (snd (make_eventData event tid tl w)) = store w ++ [ORecord o] /\
    classified (store w ++ [ORecord o]) event (VRef (length (store w))) /\
    getv (store w ++ [ORecord o]) (VRef (length (store w))) "timelineId" = tid.
Proof.
  unfold make_eventData, classified.
  destruct event as [eid etl eti ede [st|] [en|] eco esg]; destruct eid as [i|];
    cbn; eexists; (split; [reflexivity|]); (split; [reflexivity|]).
  all: rewrite ?list_lookup_middle by done; cbn; repeat split; try done.
  all: congruence.
Qed.

Lemma classified_app h hs event v :
  classified h event v -> classified (h ++ hs) event v.
Proof.
  unfold classified. destruct (PartialEventData.endTime event).
  - intros [H1 H2]. rewrite !getv_app; [done| |]; congruence.
  - intros [H1 H2]. split; [rewrite getv_app; congruence|].
    intros s Hs. destruct (H2 s Hs) as [H3 H4].
    rewrite !getv_app; [done| |]; congruence.
Qed.

Lemma addEvents_item_cases tid this event w :
  let target := nullish (of_optional of_ID tid)
                        (of_optional of_ID (PartialEventData.timelineId event)) in
  (truthy target = false /\
   addEvents_item tid this event w
   = (Throw (Error "The timelineId is not specified."), w)) \/
  (find_timeline (store w) this target = None /\
   addEvents_item tid this event w = (Throw (Error "The timeineId is invalid."), w)) \/
  (exists tl o w',
     find_timeline (store w) this target = Some tl /\
     addEvents_item tid this event w = (Ok (VRef (length (store w))), w') /\
     store w' = store w ++ [ORecord o] /\
     classified (store w') event (VRef (length (store w)))).
Proof.
  intros target. unfold addEvents_item. fold target.
  destruct (truthy target) eqn:Ht; cbn; [|by left].
  destruct (find_timeline (store w) this target) as [tl|] eqn:Hf; [|right; by left].
  right; right.
  destruct (make_eventData_spec event target tl w) as (o & H1 & H2 & H3 & _).
  rewrite H1. exists tl, o. eexists. split; [done|]. split; [reflexivity|].
  cbn. by rewrite <- H2 in H3 |- *.
Qed.

Lemma map_events_Ok tid this events_ : forall w vs w',
  map_events (addEvents_item tid this) events_ w = (Ok vs, w') ->
  Forall2 (classified (store w')) events_ vs /\ exists hs, store w' = store w ++ hs.
Proof.
  induction events_ as [|e rest IH]; intros w vs w'; cbn.
  - intros [= <- <-]. split; [constructor|]. exists []. by rewrite app_nil_r.
  - destruct (addEvents_item_cases tid this e w)
      as [[_ ->] | [[_ ->] | (tl & o & w1 & _ & -> & Hs & Hc)]]; try discriminate.
    destruct (map_events _ rest w1) as [[vs'|x] w2] eqn:Hr; [|discriminate].
    intros [= <- <-]. destruct (IH _ _ _ Hr) as [HF [hs Hhs]].
    split.
    + constructor; [|done]. rewrite Hhs. by apply classified_app.
    + exists ([ORecord o] ++ hs). by rewrite Hhs, Hs, <- app_assoc.
Qed.

(** A batch that holds an event whose target timeline does not exist
    raises, wherever the event stands in the batch. *)
Lemma map_events_unknown tid this event after : forall before w,
  timelines_have_ids (store w) this ->
  find_timeline (store w) this
    (nullish (of_optional of_ID tid)
             (of_optional of_ID (PartialEventData.timelineId event))) = None ->
  exists msg w',
    map_events (addEvents_item tid this) (before ++ event :: after) w
    = (Throw (Error msg), w').
Proof.
  induction before as [|b before IH]; intros w Hids Hnone; cbn.
  - destruct (addEvents_item_cases tid this event w)
      as [[_ ->] | [[_ ->] | (tl & o & w1 & Hf & _)]]; eauto.
    congruence.
  - destruct (addEvents_item_cases tid this b w)
      as [[_ ->] | [[_ ->] | (tl & o & w1 & _ & -> & Hs & _)]]; eauto.
    destruct (IH w1) as (msg & w' & ->); eauto.
    + rewrite Hs. by apply timelines_have_ids_app.
    + rewrite Hs, find_timeline_app; done.
Qed.

(** C2. An event whose timeline identifier matches no timeline:
    [addEvent] returns [null] and changes nothing, [addEvents] raises
    an [Error] (and does not touch the instance either). *)
Theorem unknown_timeline_null_or_throw event timelineId autofit this w :
  timelines_have_ids (store w) this ->
  find_timeline (store w) this
    (nullish (of_optional of_ID timelineId)
             (of_optional of_ID (PartialEventData.timelineId event))) = None ->
  addEvent event timelineId autofit this w = (Ok VNull, this, w) /\
  forall before after, exists msg w',
    addEvents (before ++ event :: after) timelineId autofit this w
    = (Throw (Error msg), this, w').
Proof.
  intros Hids Hnone. split.
  - unfold addEvent. destruct timelineId as [i|]; cbn in *.
    + destruct i; cbn in *; by rewrite Hnone.
    + by rewrite find_timeline_undefined.
  - intros before after.
    destruct (map_events_unknown timelineId this event after before w Hids Hnone)
      as (msg & w' & H).
    exists msg, w'. unfold addEvents. rewrite H.
    destruct before; reflexivity.
Qed.

(** A batch of events that can all be filed is accepted. *)
Lemma map_events_fileable tid this events_ : forall w,
  timelines_have_ids (store w) this ->
  Forall (fileable (store w) this tid) events_ ->
  exists vs w', map_events (addEvents_item tid this) events_ w = (Ok vs, w').
Proof.
  induction events_ as [|e rest IH]; intros w Hids HF; cbn.
  - by eexists _, _.
  - apply Forall_cons in HF as [[Ht [tl Hf]] HF]. unfold target in Ht, Hf.
    destruct (addEvents_item_cases tid this e w)
      as [[Hn _] | [[Hn _] | (tl' & o & w1 & _ & -> & Hs & _)]]; try congruence.
    destruct (IH w1) as (vs & w2 & ->); [| |by eexists _, _].
    + rewrite Hs. by apply timelines_have_ids_app.
    + eapply Forall_impl; [exact HF|]. intros e' [He1 He2]. split; [done|].
      rewrite Hs, find_timeline_app; done.
Qed.


End Events.

(** ** Timelines and import *)
Section Timelines.
Context {P : Platform}.
Import D3Timeline.

Lemma timeline_of_app h hs c tl : timeline_of h c tl -> timeline_of (h ++ hs) c tl.
Proof.
  intros (H1 & H2 & [i H3] & H4).
  assert (forall k x, getv h tl k = x -> x <> VUndefined -> getv (h ++ hs) tl k = x) as A.
  { intros k x <- ?. by apply getv_app. }
  repeat split.
  - by apply A.
  - by apply A.
  - exists i. apply A; [done|]. apply of_ID_defined.
  - intros j Hj. apply A; [auto|]. apply of_ID_defined.
Qed.

Lemma addTimeline_spec name color id autofit this w :
  exists o tid,
    addTimeline name color id autofit this w
    = (VRef (length (store w)),
       snd (fst (addTimeline name color id autofit this w)),
       snd (addTimeline name color id autofit this w)) /\
    store (snd (addTimeline name color id autofit this w)) = store w ++ [ORecord o] /\
    o = [("id", of_ID tid); ("name", VStr name); ("color", VStr (default "#667eea" color))] /\
    (forall i, id = Some i -> tid = i) /\
    timelines (snd (fst (addTimeline name color id autofit this w)))
    = timelines this ++ [VRef (length (store w))] /\
    events (snd (fst (addTimeline name color id autofit this w))) = events this.
Proof.
  unfold addTimeline. destruct id as [i|]; cbn.
  - eexists _, i. repeat split; try done; try (by destruct (default true autofit)).
    by intros ? [= <-].
  - eexists _, (generateID (ids w)). repeat split; try done;
      by destruct (default true autofit).
Qed.

Lemma addTimeline_calls_spec calls : forall this w,
  let r := addTimeline_calls calls this w in
  timelines (snd (fst r)) = timelines this ++ fst (fst r) /\
  length (fst (fst r)) = length calls /\
  Forall2 (timeline_of (store (snd r))) calls (fst (fst r)) /\
  events (snd (fst r)) = events this /\
  exists hs, store (snd r) = store w ++ hs.
Proof.
  induction calls as [|c rest IH]; intros this w; cbn.
  - rewrite app_nil_r. repeat split; try done. exists []. by rewrite app_nil_r.
  - destruct (addTimeline_spec (AddTimelineCall.name c) (AddTimelineCall.color c)
                (AddTimelineCall.id c) (AddTimelineCall.autofit c) this w)
      as (o & tid & E & Hs & Ho & Hid & Ht & He).
    rewrite E. set (this1 := snd (fst _)) in *. set (w1 := snd (addTimeline _ _ _ _ _ _)) in *.
    specialize (IH this1 w1). cbv zeta in IH.
    destruct (addTimeline_calls rest this1 w1) as [[tls this2] w2]. cbn in *.
    destruct IH as (I1 & I2 & I3 & I4 & hs & I5).
    repeat split.
    + by rewrite I1, Ht, <- app_assoc.
    + by rewrite I2.
    + constructor; [|done]. rewrite I5, Hs. apply timeline_of_app.
      unfold timeline_of. rewrite !getv_new, Ho. cbn. repeat split; eauto.
      intros i Hi. by rewrite (Hid i Hi).
    + by rewrite I4.
    + exists ([ORecord o] ++ hs). by rewrite I5, Hs, <- app_assoc.
Qed.

Lemma filter_sublist {A} (f : A -> bool) (l : list A) : sublist (List.filter f l) l.
Proof.
  induction l as [|x l IH]; cbn; [constructor|].
  destruct (f x); by constructor.
Qed.

(** C6. [N] calls of [addTimeline] append [N] timelines, in call
    order, each as asked for; [removeTimeline id] drops the timelines
    with that identifier and the events that belong to them and leaves
    the others, their order and the objects themselves as they were. *)
Theorem timelines_added_in_order_removed_with_events :
  (forall calls this w,
     let r := addTimeline_calls calls this w in
     timelines (snd (fst r)) = timelines this ++ fst (fst r) /\
     length (fst (fst r)) = length calls /\
     Forall2 (timeline_of (store (snd r))) calls (fst (fst r)) /\
     events (snd (fst r)) = events this) /\
  (forall id this w,
     let r := removeTimeline id this w in
     snd r = w /\
     (forall tl, In tl (timelines (fst r)) <->
                 In tl (timelines this) /\ getv (store w) tl "id" <> of_ID id) /\
     (forall e, In e (events (fst r)) <->
                In e (events this) /\ getv (store w) e "timelineId" <> of_ID id) /\
     sublist (timelines (fst r)) (timelines this) /\
     sublist (events (fst r)) (events this)).
Proof.
  split.
  - intros calls this w. pose proof (addTimeline_calls_spec calls this w) as H.
    cbv zeta in *. tauto.
  - intros id this w. cbn.
    assert (forall (k : string) (l : list val) (x : val),
              In x (List.filter (fun t => negb (strict_eq (getv (store w) t k) (of_ID id))) l)
              <-> In x l /\ getv (store w) x k <> of_ID id) as A.
    { intros k l x. rewrite filter_In. unfold strict_eq.
      rewrite negb_true_iff, bool_decide_eq_false. done. }
    split; [done|]. split; [apply A|]. split; [apply A|].
    split; apply filter_sublist.
Qed.

Lemma join_keys_spec h l :
  (join_keys h l = Ok tt /\ forall d, d ∈ l -> key h d = Ok tt) \/
  (exists d e, d ∈ l /\ key h d = Throw e /\ join_keys h l = Throw e).
Proof.
  induction l as [|x l IH]; cbn.
  - left. split; [done|]. by intros d ?%elem_of_nil.
  - destruct (key h x) as [[]|e] eqn:Hx.
    + destruct IH as [[-> Hall] | (d & e & Hd & Hk & ->)].
      * left. split; [done|]. intros d [->|Hd]%elem_of_cons; auto.
      * right. exists d, e. split; [by apply elem_of_cons; right|done].
    + right. exists x, e. split; [by apply elem_of_cons; left|done].
Qed.

(** The key function accepts the timelines and events that carry an
    identifier. *)
Lemma key_has_id h hs v (i : ID) : getv h v "id" = of_ID i -> key (h ++ hs) v = Ok tt.
Proof.
  intros Hi. unfold key, Get.
  rewrite getv_app by (rewrite Hi; apply of_ID_defined). rewrite Hi.
  destruct v; cbn in Hi; try (by destruct i); by destruct i.
Qed.

Lemma join_keys_have_ids h hs l :
  Forall (fun v => exists i : ID, getv h v "id" = of_ID i) l ->
  join_keys (h ++ hs) l = Ok tt.
Proof.
  induction 1 as [|v l [i Hi] _ IH]; [done|].
  cbn. by rewrite (key_has_id _ _ _ _ Hi).
Qed.

Lemma render_keys_spec h this :
  (render_keys h this = Ok tt /\
   forall d, d ∈ timelines this ++ events this -> key h d = Ok tt) \/
  (exists d e, d ∈ timelines this ++ events this /\ key h d = Throw e /\
               render_keys h this = Throw e).
Proof.
  unfold render_keys.
  destruct (join_keys_spec h (timelines this)) as [[-> H1] | (d & e & Hd & Hk & ->)].
  - destruct (join_keys_spec h (events this)) as [[-> H2] | (d & e & Hd & Hk & ->)].
    + left. split; [done|]. intros d [?|?]%elem_of_app; auto.
    + right. exists d, e. split; [apply elem_of_app; by right|done].
  - right. exists d, e. split; [apply elem_of_app; by left|done].
Qed.

(** What [importData] returns, case by case. *)
Lemma importData_outcome data this w :
  exists b this' w',
    importData data this w = (Ok b, this', w') /\
    (b = false <-> malformed (store w) data) /\
    (b = false -> logged_error (logger this) (logger this') /\
                  not_rolled_back (store w) data this this') /\
    (b = true -> logger this' = logger this /\
                 payload_timelines (store w) data = Ok (timelines this') /\
                 payload_events (store w) data = Ok (events this') /\
                 timeRange this' = VRef (length (store w)) /\
                 store w' = store_with_range (store w) data).
Proof.
  unfold importData, malformed, not_rolled_back, payload_timelines, payload_events,
    importData_catch, logged_error.
  destruct (Get (store w) data "timelines") as [x|e] eqn:G1.
  2:{ exists false. eexists _, _. split; [reflexivity|]. cbn.
      split; [split; [eauto|done]|]. split; [eauto|discriminate]. }
  assert (Get (store w) data "events" = Ok (getv (store w) data "events") /\
          Get (store w) data "timeRange" = Ok (getv (store w) data "timeRange"))
    as (G2 & G3).
  { destruct data; try discriminate; cbn in *; split; congruence. }
  rewrite G2, G3.
  destruct (spread_array (store w) x) as [ts|e] eqn:S1.
  2:{ exists false. eexists _, _. split; [reflexivity|]. cbn.
      split; [split; [eauto|done]|]. split; [eauto|discriminate]. }
  destruct (spread_array (store w) (getv (store w) data "events")) as [es|e] eqn:S2.
  2:{ exists false. eexists _, _. split; [reflexivity|]. cbn.
      split; [split; [eauto|done]|]. split; [eauto|discriminate]. }
  cbn [new_object alloc store with_store].
  fold (store_with_range (store w) data).
  set (that := resize _).
  assert (timelines that = ts /\ events that = es /\
          timeRange that = VRef (length (store w)) /\ logger that = logger this)
    as (Ht & He & Hr & Hl) by done.
  destruct (render_keys_spec (store_with_range (store w) data) that)
    as [[-> Hall] | (d & e & Hd & Hk & ->)].
  - exists true. eexists _, _. split; [reflexivity|].
    split; [|split; [discriminate|]].
    + split; [discriminate|].
      intros [[e [=]] | [[e [=]] | (ts' & es' & d & e & [= <-] & [= <-] & Hd & Hk)]].
      rewrite <- Ht, <- He in Hd. rewrite (Hall d Hd) in Hk. discriminate.
    + intros _. by rewrite Ht, He, Hr, Hl.
  - exists false. eexists _, _. split; [reflexivity|]. cbn.
    split; [|split; [|discriminate]].
    + split; [|done]. intros _. right; right.
      exists ts, es, d, e. rewrite <- Ht at 2. rewrite <- He at 2. done.
    + intros _. split; [eauto|]. done.
Qed.

End Timelines.

(** ** Stage connectors *)
Section StageLines.
Import D3Timeline.
Variable xScale : val -> Q.

Lemma strict_eq_true a b : strict_eq a b = true <-> a = b.
Proof. unfold strict_eq. apply bool_decide_eq_true. Qed.

Lemma strict_eq_false a b : strict_eq a b = false <-> a <> b.
Proof. unfold strict_eq. apply bool_decide_eq_false. Qed.

Lemma strict_eq_refl a : strict_eq a a = true.
Proof. by apply strict_eq_true. Qed.

Lemma members_in_push key e groups k :
  members_in (group_push key e groups) k
  = if strict_eq key k then members_in groups k ++ [e] else members_in groups k.
Proof.
  unfold members_in. induction groups as [|[k' es] rest IH]; cbn.
  - destruct (strict_eq key k); reflexivity.
  - destruct (strict_eq k' key) eqn:E1; cbn.
    + apply strict_eq_true in E1 as ->.
      destruct (strict_eq key k); reflexivity.
    + destruct (strict_eq k' k) eqn:E2; cbn; [|exact IH].
      apply strict_eq_true in E2 as ->. by rewrite (proj2 (strict_eq_false key k)) by
        (apply strict_eq_false in E1; congruence).
Qed.

Lemma keys_push key e groups :
  map fst (group_push key e groups)
  = if bool_decide (key ∈ map fst groups) then map fst groups
    else map fst groups ++ [key].
Proof.
  induction groups as [|[k' es] rest IH]; cbn; [reflexivity|].
  destruct (strict_eq k' key) eqn:E1; cbn.
  - apply strict_eq_true in E1 as ->.
    rewrite bool_decide_eq_true_2; [done|]. constructor.
  - apply strict_eq_false in E1. rewrite IH.
    destruct (bool_decide (key ∈ map fst rest)) eqn:E2.
    + apply bool_decide_eq_true in E2.
      rewrite bool_decide_eq_true_2; [done|]. by constructor.
    + apply bool_decide_eq_false in E2.
      rewrite bool_decide_eq_false_2; [done|].
      intros H. apply elem_of_cons in H as [H|H]; congruence.
Qed.

Lemma grouped_step h pre groups e :
  grouped h pre groups ->
  grouped h (pre ++ [e])
    (if truthy (getv h e "stage")
     then group_push (getv h (getv h e "stage") "id") e groups else groups).
Proof.
  intros (Hnd & Hm & Hk). unfold grouped.
  assert (forall k, stage_members h (pre ++ [e]) k
                    = stage_members h pre k ++
                      (if has_stage h k e then [e] else [])) as Hf.
  { intros k. unfold stage_members. rewrite List.filter_app. cbn [List.filter].
    by destruct (has_stage h k e). }
  destruct (truthy (getv h e "stage")) eqn:Ht.
  - set (key := getv h (getv h e "stage") "id").
    assert (forall k, has_stage h k e = strict_eq key k) as Hs.
    { intros k. unfold has_stage. by rewrite Ht. }
    repeat split.
    + rewrite keys_push. case_bool_decide as Hin; [done|].
      apply NoDup_app. repeat split; [done| |apply NoDup_singleton].
      intros x Hx Hx'. apply list_elem_of_singleton in Hx' as ->. done.
    + intros k. rewrite members_in_push, Hf, Hs, Hm.
      destruct (strict_eq key k); by rewrite ?app_nil_r.
    + rewrite keys_push, Hf, Hs. intros Hin.
      destruct (strict_eq key k) eqn:E;
        [intros H; apply app_eq_nil in H as [_ H]; discriminate|].
      rewrite app_nil_r. apply Hk. apply strict_eq_false in E.
      case_bool_decide; [done|]. apply elem_of_app in Hin as [?|Hin]; [done|].
      apply list_elem_of_singleton in Hin. congruence.
    + rewrite keys_push, Hf, Hs. intros Hne.
      destruct (strict_eq key k) eqn:E.
      * apply strict_eq_true in E as <-. case_bool_decide; [done|].
        apply elem_of_app. right. constructor.
      * rewrite app_nil_r in Hne. apply Hk in Hne.
        case_bool_decide; [done|]. apply elem_of_app. by left.
  - assert (forall k, has_stage h k e = false) as Hs.
    { intros k. unfold has_stage. by rewrite Ht. }
    split; [done|]. split; intros k; rewrite Hf, Hs, app_nil_r; [apply Hm | apply Hk].
Qed.

Lemma stageGroups_grouped h events : grouped h events (stageGroups h events).
Proof.
  unfold stageGroups.
  assert (forall evs pre groups,
            grouped h pre groups ->
            grouped h (pre ++ evs)
              (fold_left
                 (fun groups event =>
                    if truthy (getv h event "stage")
                    then group_push (getv h (getv h event "stage") "id") event groups
                    else groups) evs groups)) as A.
  { induction evs as [|e evs IH]; intros pre groups Hg; cbn.
    - by rewrite app_nil_r.
    - replace (pre ++ e :: evs) with ((pre ++ [e]) ++ evs) by (by rewrite <- app_assoc).
      apply IH. by apply grouped_step. }
  apply (A events [] []). repeat split; cbn; try done.
  - constructor.
  - intros H. by apply elem_of_nil in H.
Qed.

Lemma sort_insert_perm h e l : Permutation (sort_insert h e l) (e :: l).
Proof.
  induction l as [|x l IH]; cbn; [done|].
  destruct (stage_index h e <=? stage_index h x)%Z; [done|].
  rewrite IH. apply perm_swap.
Qed.

Lemma sort_by_index_perm h l : Permutation (sort_by_index h l) l.
Proof.
  induction l as [|x l IH]; cbn; [done|].
  rewrite sort_insert_perm. by constructor.
Qed.

Lemma sort_by_index_length h l : length (sort_by_index h l) = length l.
Proof. apply Permutation_length, sort_by_index_perm. Qed.

Lemma sort_insert_sorted h e l : ascending h l -> ascending h (sort_insert h e l).
Proof.
  unfold ascending. induction 1 as [|x l Hs IH Hx]; cbn.
  - repeat constructor.
  - destruct (Z.leb_spec (stage_index h e) (stage_index h x)).
    + repeat constructor; done.
    + constructor; [done|].
      destruct l as [|y l]; cbn in *.
      * constructor. lia.
      * destruct (Z.leb_spec (stage_index h e) (stage_index h y)); constructor; try lia.
        by inversion Hx.
Qed.

Lemma sort_by_index_sorted h l : ascending h (sort_by_index h l).
Proof.
  induction l as [|x l IH]; cbn; [constructor|]. by apply sort_insert_sorted.
Qed.

Lemma segment_ends start end_ ty :
  end_of <$> last (generatePathSegment start end_ ty) = Some (point_xy end_).
Proof.
  destruct ty; cbn; try reflexivity.
  destruct (Qlt_le_dec _ _); reflexivity.
Qed.

Lemma anchors_from_false ty p ps :
  anchors (pathData_from false ty (p :: ps)) = map point_xy ps.
Proof.
  revert p. induction ps as [|q ps IH]; intros p; [reflexivity|].
  cbn [pathData_from app]. unfold anchors in *. cbn [omap list_omap].
  rewrite segment_ends. cbn. f_equal. apply IH.
Qed.

(** The path of a group of two or more: one anchor per event, in the
    order of the points. *)
Lemma anchors_pathData ty p q ps :
  anchors (pathData_from true ty (p :: q :: ps)) = map point_xy (p :: q :: ps).
Proof.
  cbn [pathData_from app]. unfold anchors. cbn [omap list_omap last fmap option_fmap option_map].
  rewrite segment_ends. cbn [map]. do 2 f_equal.
  apply (anchors_from_false ty q ps).
Qed.

Lemma render_stage_spec this h k es :
  render_stage xScale this h (k, es)
  = if (length es <? 2)%nat then None
    else Some {| StageLine.stageId := k;
                 StageLine.d :=
                   pathData_from true
                     (StageLineParams.path (Options.stageLineParams (options this)))
                     (map (stage_point xScale this h) (sort_by_index h es));
                 StageLine.arrows :=
                   if StageLineParams.arrow (Options.stageLineParams (options this))
                   then adjacent_pairs (map (stage_point xScale this h) (sort_by_index h es))
                   else [] |}.
Proof.
  unfold render_stage. rewrite sort_by_index_length.
  destruct (Nat.ltb_spec (length es) 2); [done|].
  rewrite length_map, sort_by_index_length.
  destruct (Nat.leb_spec 2 (length es)); [|lia].
  by rewrite andb_true_r.
Qed.

Lemma render_stage_id this h k es g :
  render_stage xScale this h (k, es) = Some g -> StageLine.stageId g = k.
Proof.
  rewrite render_stage_spec. destruct (length es <? 2)%nat; [done|].
  by intros [= <-].
Qed.

Lemma drawn_for_cons k g layer :
  drawn_for k (g :: layer)
  = if strict_eq (StageLine.stageId g) k then g :: drawn_for k layer
    else drawn_for k layer.
Proof. reflexivity. Qed.

Lemma members_in_cons k' es rest k :
  members_in ((k', es) :: rest) k = if strict_eq k' k then es else members_in rest k.
Proof. unfold members_in. cbn. by destruct (strict_eq k' k). Qed.

Lemma drawn_for_absent this h k groups :
  k ∉ map fst groups -> drawn_for k (omap (render_stage xScale this h) groups) = [].
Proof.
  induction groups as [|[k' es] rest IH]; intros Hk; [reflexivity|].
  cbn [map fst] in Hk. apply not_elem_of_cons in Hk as [Hne Hk].
  cbn [omap list_omap].
  destruct (render_stage xScale this h (k', es)) as [g|] eqn:Hg; [|by apply IH].
  rewrite drawn_for_cons, (render_stage_id _ _ _ _ _ Hg).
  rewrite (proj2 (strict_eq_false k' k)) by congruence. by apply IH.
Qed.

Lemma drawn_for_omap this h k groups :
  NoDup (map fst groups) ->
  k ∈ map fst groups ->
  drawn_for k (omap (render_stage xScale this h) groups)
  = match render_stage xScale this h (k, members_in groups k) with
    | Some g => [g]
    | None => []
    end.
Proof.
  induction groups as [|[k' es] rest IH]; intros Hnd Hk.
  - by apply elem_of_nil in Hk.
  - cbn [map fst] in Hnd, Hk. apply NoDup_cons in Hnd as [Hk' Hnd].
    rewrite members_in_cons. cbn [omap list_omap].
    destruct (strict_eq k' k) eqn:E.
    + apply strict_eq_true in E as ->.
      destruct (render_stage xScale this h (k, es)) as [g|] eqn:Hg.
      * rewrite drawn_for_cons, (render_stage_id _ _ _ _ _ Hg), strict_eq_refl.
        by rewrite drawn_for_absent.
      * by rewrite drawn_for_absent.
    + apply strict_eq_false in E.
      apply elem_of_cons in Hk as [Hk|Hk]; [congruence|].
      destruct (render_stage xScale this h (k', es)) as [g|] eqn:Hg; [|by apply IH].
      rewrite drawn_for_cons, (render_stage_id _ _ _ _ _ Hg).
      rewrite (proj2 (strict_eq_false k' k)) by congruence. by apply IH.
Qed.

(** C4, as the code has it: with the stage lines shown.  For each
    stage the layer holds a connector exactly when the stage has two
    events or more, it holds one, and its path has one anchor per
    event of the stage: the points of the events taken in ascending
    order of stage index. *)
Theorem stage_connector_drawn_iff_two this h dom stageId :
  stageLinesVisible this = true ->
  let members := stage_members h (events this) stageId in
  let layer := renderStageLines xScale this h dom in
  ((exists g, g ∈ layer /\ StageLine.stageId g = stageId) <-> 2 <= length members) /\
  (2 <= length members ->
   exists g sorted,
     drawn_for stageId layer = [g] /\
     Permutation sorted members /\ ascending h sorted /\
     anchors (StageLine.d g) = map point_xy (map (stage_point xScale this h) sorted) /\
     length (anchors (StageLine.d g)) = length members).
Proof.
  intros Hvis members layer.
  destruct (stageGroups_grouped h (events this)) as (Hnd & Hm & Hk).
  assert (drawn_for stageId layer
          = if (length members <? 2)%nat then []
            else match render_stage xScale this h (stageId, members) with
                 | Some g => [g]
                 | None => []
                 end) as Hd.
  { unfold layer, renderStageLines. rewrite Hvis. cbn [negb].
    destruct (decide (stageId ∈ map fst (stageGroups h (events this)))) as [Hin|Hin].
    - rewrite drawn_for_omap, Hm by done. fold members.
      rewrite render_stage_spec. by destruct (length members <? 2)%nat.
    - rewrite drawn_for_absent by done.
      assert (members = []) as ->; [|done].
      destruct members eqn:E; [done|]. exfalso. apply Hin, Hk. fold members.
      by rewrite E. }
  assert ((exists g, g ∈ layer /\ StageLine.stageId g = stageId)
          <-> drawn_for stageId layer <> []) as Hex.
  { unfold drawn_for. split.
    - intros (g & Hg & Hid) Hnil.
      assert (In g (List.filter (fun g => strict_eq (StageLine.stageId g) stageId) layer)) as Hin.
      { apply filter_In. split; [by apply list_elem_of_In|]. by apply strict_eq_true. }
      rewrite Hnil in Hin. done.
    - destruct (List.filter _ layer) as [|g l] eqn:E; [done|]. intros _.
      assert (In g (List.filter (fun g => strict_eq (StageLine.stageId g) stageId) layer)) as Hin
        by (rewrite E; by left).
      apply filter_In in Hin as [Hin Hid]. exists g.
      split; [by apply list_elem_of_In|]. by apply strict_eq_true. }
  rewrite render_stage_spec in Hd.
  split.
  - rewrite Hex, Hd. destruct (Nat.ltb_spec (length members) 2); split; try done; lia.
  - intros H2. destruct (Nat.ltb_spec (length members) 2); [lia|].
    eexists _, (sort_by_index h members). split; [exact Hd|].
    split; [apply sort_by_index_perm|]. split; [apply sort_by_index_sorted|].
    cbn [StageLine.d].
    pose proof (sort_by_index_length h members) as Hl.
    destruct (sort_by_index h members) as [|a [|b l]]; cbn [length] in Hl; try lia.
    cbn [map]. rewrite anchors_pathData. split; [done|].
    rewrite !length_map. cbn [length] in *. rewrite ?length_map. lia.
Qed.
End StageLines.

(** ** What is printed *)
Section Printing.
Context {P : Platform}.
Variable f : JSONSerializer.DateFormat.

Lemma print_ref n l h :
  print f n h (VRef l)
  = match n, h !! l with
    | S n', Some o =>
        match mapM (print_slot f n' h) (slots o) with
        | Some rs => Some (Some (json_of o rs))
        | None => None
        end
    | _, _ => None
    end.
Proof. destruct n; reflexivity. Qed.

Lemma print_slot_dateless n h v :
  is_Date v = false -> print_slot f n h v = print f n h v.
Proof. by destruct v. Qed.

Lemma print_leaf_is_Some n h v : is_ref v = false -> is_Some (print f n h v).
Proof. destruct v; try discriminate; intros _; destruct n; cbn; eauto. Qed.
End Printing.

(** ** The serializer and the store *)
Section SerializerStore.
Context {P : Platform}.
Variable s : JSONSerializer.t.

Lemma with_slots_slots o : with_slots o (slots o) = o.
Proof. destruct o as [|ps]; cbn; [done|]. by rewrite zip_fst_snd. Qed.

Lemma slots_with_slots o vs :
  length vs = length (slots o) -> slots (with_slots o vs) = vs.
Proof.
  destruct o as [|ps]; cbn; [done|]. rewrite length_fmap. intros H.
  apply snd_zip. rewrite length_fmap. lia.
Qed.

Lemma keys_with_slots o vs :
  length vs = length (slots o) -> keys (with_slots o vs) = keys o.
Proof.
  destruct o as [|ps]; cbn; [done|]. rewrite length_fmap. intros H.
  apply fst_zip. rewrite length_fmap. lia.
Qed.

Lemma with_slots_twice o vs vs' :
  length vs = length (slots o) ->
  with_slots (with_slots o vs) vs' = with_slots o vs'.
Proof.
  destruct o as [|ps]; cbn; [done|]. rewrite length_fmap. intros H.
  by rewrite fst_zip by (rewrite length_fmap; lia).
Qed.

Lemma slot_evolves_refl h v : slot_evolves s h v v.
Proof. by left. Qed.

Lemma obj_evolves_refl h o : obj_evolves s h o o.
Proof.
  exists (slots o). split; [by rewrite with_slots_slots|].
  apply Forall2_same_length_lookup_2; [done|]. intros i x y ? ?. left. congruence.
Qed.

Lemma evolves_refl h : evolves s h h.
Proof. intros l o H. exists o. split; [done|]. apply obj_evolves_refl. Qed.

Lemma dateReplacer_slots d :
  forallb (fun v => negb (is_Date v)) (slots (JSONSerializer.dateReplacer s d)) = true.
Proof. unfold JSONSerializer.dateReplacer. by destruct (JSONSerializer.dateFormat s). Qed.

Lemma Forall2_evolves_dateless h vs vs' :
  forallb (fun v => negb (is_Date v)) vs = true ->
  Forall2 (slot_evolves s h) vs vs' -> vs' = vs.
Proof.
  intros Hd HF. induction HF as [|v v' vs vs' Hv _ IH]; [done|].
  cbn in Hd. apply andb_prop in Hd as [H1 H2]. rewrite IH by done.
  destruct Hv as [->|(d & -> & _)]; [done|discriminate].
Qed.

(** An object without dates is left alone. *)
Lemma obj_evolves_dateless h o o' :
  forallb (fun v => negb (is_Date v)) (slots o) = true ->
  obj_evolves s h o o' -> o' = o.
Proof.
  intros Hd (vs & -> & HF). rewrite (Forall2_evolves_dateless _ _ _ Hd HF).
  apply with_slots_slots.
Qed.

Lemma tagged_evolves h h' v d : evolves s h h' -> tagged s h v d -> tagged s h' v d.
Proof.
  intros He (r & -> & Hr). destruct (He _ _ Hr) as (o' & Ho' & Hoe).
  exists r. split; [done|]. rewrite Ho'. f_equal.
  eapply obj_evolves_dateless; [apply dateReplacer_slots | done].
Qed.

Lemma slot_evolves_mono h h' v v' :
  evolves s h h' -> slot_evolves s h v v' -> slot_evolves s h' v v'.
Proof.
  intros He [->|(d & -> & Ht)]; [by left|]. right. exists d. split; [done|].
  by eapply tagged_evolves.
Qed.

Lemma slot_evolves_trans h v v' v'' :
  slot_evolves s h v v' -> slot_evolves s h v' v'' -> slot_evolves s h v v''.
Proof.
  intros [->|(d & -> & Ht)] H2; [done|].
  destruct H2 as [->|(d' & -> & _)]; [right; eauto|].
  by destruct Ht as (r & [=] & _).
Qed.

Lemma evolves_trans h h' h'' : evolves s h h' -> evolves s h' h'' -> evolves s h h''.
Proof.
  intros H1 H2 l o Hl.
  destruct (H1 _ _ Hl) as (o' & Hl' & vs & -> & HF).
  destruct (H2 _ _ Hl') as (o'' & Hl'' & vs' & -> & HF').
  pose proof (Forall2_length _ _ _ HF) as Hlen.
  rewrite slots_with_slots in HF' by done.
  exists (with_slots o vs'). split; [by rewrite Hl'', with_slots_twice|].
  exists vs'. split; [done|].
  eapply Forall2_trans; [|eapply Forall2_impl; [exact HF|]|exact HF'].
  - intros x y z Hxy Hyz. exact (slot_evolves_trans _ _ _ _ Hxy Hyz).
  - intros x y Hxy. by eapply slot_evolves_mono.
Qed.

Lemma evolves_app h news : evolves s h (h ++ news).
Proof.
  intros l o Hl. exists o. split; [by apply lookup_app_l_Some|]. apply obj_evolves_refl.
Qed.

(** What the loop of the replacer does to the property values: the
    dates, and only they, become references to new tagged records. *)
Lemma replace_dates_spec vs : forall h,
  exists news,
    snd (JSONSerializer.replace_dates s vs h) = h ++ news /\
    Forall2 (fun v v' =>
               match v with
               | VDate d => exists r, v' = VRef r /\ length h <= r /\
                                      (h ++ news) !! r = Some (JSONSerializer.dateReplacer s d)
               | _ => v' = v
               end) vs (fst (JSONSerializer.replace_dates s vs h)).
Proof.
  induction vs as [|v vs IH]; intros h.
  - exists []. cbn. rewrite app_nil_r. split; [done|constructor].
  - assert (forall h0 news0 rest',
              JSONSerializer.replace_dates s vs h0 = (rest', h0 ++ news0) -> True) as _ by done.
    destruct v; cbn;
      try (destruct (IH h) as (news & H1 & H2);
           destruct (JSONSerializer.replace_dates s vs h) as [rest' h2]; cbn in *;
           exists news; split; [done|]; by constructor).
    destruct (IH (h ++ [JSONSerializer.dateReplacer s t])) as (news & H1 & H2).
    destruct (JSONSerializer.replace_dates s vs _) as [rest' h2]. cbn in *.
    exists (JSONSerializer.dateReplacer s t :: news).
    split; [by rewrite H1, <- app_assoc|].
    constructor.
    + exists (length h). split; [done|]. split; [done|].
      by rewrite list_lookup_middle.
    + rewrite <- app_assoc in H2. cbn in H2.
      eapply Forall2_impl; [exact H2|]. intros x y. destruct x; try done.
      intros (r & -> & Hr & Hlk). exists r. split; [done|]. split; [|done].
      rewrite length_app in Hr. lia.
Qed.

Lemma replace_dates_dateless vs h :
  forallb (fun v => negb (is_Date v)) (fst (JSONSerializer.replace_dates s vs h)) = true.
Proof.
  revert h. induction vs as [|v vs IH]; intros h; [done|].
  destruct v; cbn;
    try (specialize (IH h); destruct (JSONSerializer.replace_dates s vs h); by cbn in * ).
  specialize (IH (h ++ [JSONSerializer.dateReplacer s t])).
  destruct (JSONSerializer.replace_dates s vs _). by cbn in *.
Qed.

(** The replacer hands its argument back; the store it leaves is an
    evolution of the one it found, in which the object it was called
    on holds no date. *)
Lemma replacer_spec v h :
  fst (JSONSerializer.replacer s v h) = v /\
  evolves s h (snd (JSONSerializer.replacer s v h)) /\
  forall l o, v = VRef l -> h !! l = Some o ->
    exists vs,
      snd (JSONSerializer.replacer s v h) !! l = Some (with_slots o vs) /\
      length vs = length (slots o) /\
      forallb (fun v => negb (is_Date v)) vs = true.
Proof.
  unfold JSONSerializer.replacer.
  destruct v; cbn; rewrite ?andb_false_r;
    try (split; [done|]; split; [apply evolves_refl|done]).
  destruct (h !! l) as [o|] eqn:Hl; cbn;
    [|split; [done|]; split; [apply evolves_refl|intros ? ? [= <-] ?; congruence]].
  destruct (replace_dates_spec (slots o) h) as (news & H1 & H2).
  pose proof (replace_dates_dateless (slots o) h) as H3.
  destruct (JSONSerializer.replace_dates s (slots o) h) as [vs h1]. cbn in *. subst h1.
  pose proof (Forall2_length _ _ _ H2) as Hlen.
  assert (l < length (h ++ news)) as Hlt.
  { rewrite length_app. apply lookup_lt_Some in Hl. lia. }
  split; [done|]. split.
  - intros l0 o0 Hl0. destruct (decide (l0 = l)) as [->|Hne].
    + rewrite list_lookup_insert_eq by done. eexists. split; [done|].
      assert (o0 = o) as -> by congruence.
      exists vs. split; [done|].
      eapply Forall2_impl; [exact H2|]. intros x y. destruct x; try (by left).
      intros (r & -> & Hr & Hlk). right. exists t. split; [done|].
      exists r. split; [done|]. rewrite list_lookup_insert_ne; [done|].
      apply lookup_lt_Some in Hl. lia.
    + rewrite list_lookup_insert_ne by done. exists o0.
      split; [by apply lookup_app_l_Some|]. apply obj_evolves_refl.
  - intros l0 o0 [= <-] Ho0. assert (o0 = o) as -> by congruence. exists vs.
    rewrite list_lookup_insert_eq by done. done.
Qed.

Abbreviation Ser := (SerializeJSONProperty (JSONSerializer.replacer s)).
Abbreviation fmt := (JSONSerializer.dateFormat s).

Lemma replacer_leaf v h :
  is_ref v = false -> JSONSerializer.replacer s v h = (v, h).
Proof.
  unfold JSONSerializer.replacer.
  destruct v; try discriminate; intros _; cbn; rewrite ?andb_false_r; done.
Qed.

(** On anything but a reference [stringify] leaves the store alone. *)
Lemma Ser_leaf n v h :
  is_ref v = false -> Ser n v h = (fun r => (r, h)) <$> print fmt n h v.
Proof.
  destruct v; try discriminate; intros _; destruct n; cbn [SerializeJSONProperty];
    rewrite replacer_leaf by done; reflexivity.
Qed.

Lemma Ser_ref n l h :
  Ser n (VRef l) h
  = let h1 := snd (JSONSerializer.replacer s (VRef l) h) in
    match n, h1 !! l with
    | S n', Some o =>
        match thread (Ser n') (slots o) h1 with
        | None => None
        | Some (rs, h') => Some (Some (json_of o rs), h')
        end
    | _, _ => None
    end.
Proof.
  destruct (replacer_spec (VRef l) h) as (H1 & _).
  destruct n; cbn [SerializeJSONProperty];
    destruct (JSONSerializer.replacer s (VRef l) h) as [v1 h1]; cbn in *; subst v1;
    reflexivity.
Qed.

Lemma thread_evolves (f : val -> heap -> option (option json * heap)) vs :
  (forall v h r h', f v h = Some (r, h') -> evolves s h h') ->
  forall h rs h', thread f vs h = Some (rs, h') -> evolves s h h'.
Proof.
  intros Hf. induction vs as [|v vs IH]; intros h rs h'; cbn.
  - intros [= <- <-]. apply evolves_refl.
  - destruct (f v h) as [[r h1]|] eqn:E1; [|done].
    destruct (thread f vs h1) as [[rs' h2]|] eqn:E2; [|done].
    intros [= <- <-]. eapply evolves_trans; eauto.
Qed.

(** [stringify] only ever evolves the store. *)
Lemma Ser_evolves n : forall v h r h', Ser n v h = Some (r, h') -> evolves s h h'.
Proof.
  induction n as [|n IH]; intros v h r h'.
  - destruct (is_ref v) eqn:Hv.
    + destruct v; try discriminate. rewrite Ser_ref. cbv zeta.
      by destruct (snd (JSONSerializer.replacer s (VRef l) h) !! l).
    + rewrite Ser_leaf by done. destruct (print fmt 0 h v); [|done].
      intros [= <- <-]. apply evolves_refl.
  - destruct (is_ref v) eqn:Hv.
    + destruct v; try discriminate. rewrite Ser_ref. cbv zeta.
      destruct (replacer_spec (VRef l) h) as (_ & He & _).
      set (h1 := snd _) in *.
      destruct (h1 !! l) as [o|]; [|done].
      destruct (thread (Ser n) (slots o) h1) as [[rs h2]|] eqn:E; [|done].
      intros [= <- <-]. eapply evolves_trans; [exact He|].
      eapply thread_evolves; [exact IH|exact E].
    + rewrite Ser_leaf by done. destruct (print fmt (S n) h v); [|done].
      intros [= <- <-]. apply evolves_refl.
Qed.

Lemma settled_evolves h h' l : evolves s h h' -> settled h l -> settled h' l.
Proof.
  intros He (o & Ho & Hd). destruct (He _ _ Ho) as (o' & Ho' & Hoe).
  exists o'. split; [done|]. by rewrite (obj_evolves_dateless _ _ _ Hd Hoe).
Qed.

Lemma evolves_ref_slot (h' : heap) o o' v :
  obj_evolves s h' o o' -> v ∈ slots o -> is_ref v = true -> v ∈ slots o'.
Proof.
  intros (vs & -> & HF) Hin Hv.
  pose proof (Forall2_length _ _ _ HF) as Hlen.
  rewrite slots_with_slots by done.
  apply list_elem_of_lookup in Hin as [i Hi].
  destruct (Forall2_lookup_l _ _ _ _ _ HF Hi) as (v' & Hi' & [->|(d & -> & _)]);
    [|discriminate].
  apply list_elem_of_lookup. eauto.
Qed.

Lemma reachable_is_ref h v l : reachable h v l -> is_ref v = true.
Proof. by destruct 1. Qed.

Lemma reachable_evolves h h' v l :
  evolves s h h' -> reachable h v l -> reachable h' v l.
Proof.
  intros He. induction 1 as [l o Hl|l o v l' Hl Hin Hr IH].
  - destruct (He _ _ Hl) as (o' & Ho' & _). by econstructor.
  - destruct (He _ _ Hl) as (o' & Ho' & Hoe).
    eapply reach_step; [exact Ho'| |exact IH].
    eapply evolves_ref_slot; eauto. by eapply reachable_is_ref.
Qed.

Lemma thread_settles (f : val -> heap -> option (option json * heap)) vs :
  (forall v h r h', f v h = Some (r, h') -> evolves s h h') ->
  (forall v h r h', f v h = Some (r, h') -> forall l, reachable h v l -> settled h' l) ->
  forall h rs h', thread f vs h = Some (rs, h') ->
  forall v l, v ∈ vs -> reachable h v l -> settled h' l.
Proof.
  intros He Hf. induction vs as [|v0 vs IH]; intros h rs h'; cbn.
  - intros _ v l Hin. by apply elem_of_nil in Hin.
  - destruct (f v0 h) as [[r h1]|] eqn:E1; [|done].
    destruct (thread f vs h1) as [[rs' h2]|] eqn:E2; [|done].
    intros [= <- <-] v l Hin Hr.
    apply elem_of_cons in Hin as [->|Hin].
    + eapply settled_evolves; [eapply thread_evolves; eauto|]. eapply Hf; eauto.
    + eapply IH; eauto. eapply reachable_evolves; eauto.
Qed.

(** Every object [stringify] walks through ends up without a date. *)
Lemma Ser_settles n : forall v h r h',
  Ser n v h = Some (r, h') -> forall l, reachable h v l -> settled h' l.
Proof.
  induction n as [|n IH]; intros v h r h' HS l Hr;
    pose proof (reachable_is_ref _ _ _ Hr) as Hv;
    destruct v as [| | | | | |l0]; try discriminate;
    rewrite Ser_ref in HS; cbv zeta in HS;
    destruct (replacer_spec (VRef l0) h) as (_ & He & Hset);
    set (h1 := snd _) in *;
    destruct (h1 !! l0) as [o1|] eqn:Hl0; try done.
  destruct (thread (Ser n) (slots o1) h1) as [[rs h2]|] eqn:E; [|done].
  injection HS as <- <-.
  pose proof (thread_evolves _ _ (Ser_evolves n) _ _ _ E) as He2.
  inversion Hr as [l1 o Hl|l1 o v l' Hl Hin Hr']; subst.
  - eapply settled_evolves; [exact He2|].
    destruct (Hset _ _ eq_refl Hl) as (vs & Hvs & Hlen & Hd).
    exists (with_slots o vs). split; [done|]. by rewrite slots_with_slots.
  - destruct (He _ _ Hl) as (o' & Ho' & Hoe).
    assert (o' = o1) as -> by congruence.
    eapply (thread_settles _ _ (Ser_evolves n) IH _ _ _ E v).
    + eapply evolves_ref_slot; eauto. by eapply reachable_is_ref.
    + by eapply reachable_evolves.
Qed.

(** *** What is printed *)

Lemma json_of_with_slots o vs rs :
  length vs = length (slots o) -> json_of (with_slots o vs) rs = json_of o rs.
Proof.
  destruct o as [|ps]; cbn; [done|]. rewrite length_fmap. intros H.
  by rewrite fst_zip by (rewrite length_fmap; lia).
Qed.

Lemma print_tagged n h r d :
  h !! r = Some (JSONSerializer.dateReplacer s d) ->
  print fmt (S n) h (VRef r) = Some (Some (tag_json fmt d)).
Proof.
  intros Hr. rewrite print_ref, Hr.
  unfold JSONSerializer.dateReplacer, tag_json.
  destruct (JSONSerializer.dateFormat s); destruct n; reflexivity.
Qed.

(** What is printed does not depend on how far the store has evolved. *)
Lemma print_slot_evolves n : forall h h' v v' r,
  evolves s h h' -> slot_evolves s h' v v' ->
  print_slot fmt n h v = Some r -> print_slot fmt n h' v' = Some r.
Proof.
  induction n as [|n IH]; intros h h' v v' r He Hs Hp.
  - destruct Hs as [->|(d & -> & _)]; [|done].
    destruct v; done.
  - destruct Hs as [->|(d & -> & (r0 & -> & Hr0))].
    + destruct v; try done.
      cbn [print_slot] in *. rewrite print_ref in *.
      destruct (h !! l) as [o|] eqn:Hl; [|done].
      destruct (mapM (print_slot fmt n h) (slots o)) as [rs|] eqn:Hm; [|done].
      injection Hp as <-.
      destruct (He _ _ Hl) as (o' & -> & vs & -> & HF).
      pose proof (Forall2_length _ _ _ HF) as Hlen.
      rewrite slots_with_slots by done.
      assert (mapM (print_slot fmt n h') vs = Some rs) as ->.
      { apply mapM_Some. apply mapM_Some in Hm.
        clear Hlen Hl. revert rs Hm.
        induction HF as [|x y xs ys Hxy _ IHF]; intros rs Hm.
        - by inversion Hm.
        - inversion Hm as [|? r1 ? rs1 H1 H2]; subst. constructor; [|by apply IHF].
          by eapply IH. }
      by rewrite json_of_with_slots.
    + cbn [print_slot] in *. injection Hp as <-. by apply print_tagged.
Qed.

Lemma thread_prints n :
  (forall v h r, print fmt n h v = Some r -> exists h', Ser n v h = Some (r, h')) ->
  forall xs ys rs h0 h1,
    Forall2 (fun x r => print_slot fmt n h0 x = Some r) xs rs ->
    Forall2 (slot_evolves s h1) xs ys ->
    evolves s h0 h1 ->
    forallb (fun v => negb (is_Date v)) ys = true ->
    exists h', thread (Ser n) ys h1 = Some (rs, h').
Proof.
  intros IH. induction xs as [|x xs IHxs]; intros ys rs h0 h1 Hm HF He Hd.
  - inversion Hm; inversion HF; subst. cbn. eauto.
  - inversion Hm as [|? r1 ? rs1 H1 H2]; inversion HF as [|? y ? ys1 Hxy HF']; subst.
    cbn in Hd. apply andb_prop in Hd as [Hy Hd].
    assert (print fmt n h1 y = Some r1) as Hy1.
    { rewrite <- print_slot_dateless by (by destruct y).
      eapply print_slot_evolves; eauto. }
    destruct (IH _ _ _ Hy1) as [h2 Hh2]. cbn. rewrite Hh2.
    pose proof (Ser_evolves _ _ _ _ _ Hh2) as He2.
    destruct (IHxs ys1 rs1 h0 h2) as [h3 ->]; eauto.
    + eapply Forall2_impl; [exact HF'|]. intros ? ? ?. by eapply slot_evolves_mono.
    + by eapply evolves_trans.
Qed.

(** Whatever [print] announces, [stringify] delivers. *)
Lemma Ser_prints n : forall v h r,
  print fmt n h v = Some r -> exists h', Ser n v h = Some (r, h').
Proof.
  induction n as [|n IH]; intros v h r Hp.
  - destruct (is_ref v) eqn:Hv.
    + by destruct v.
    + rewrite Ser_leaf, Hp by done. eauto.
  - destruct (is_ref v) eqn:Hv; [|rewrite Ser_leaf, Hp by done; eauto].
    destruct v; try discriminate. rewrite print_ref in Hp.
    destruct (h !! l) as [o|] eqn:Hl; [|done].
    destruct (mapM (print_slot fmt n h) (slots o)) as [rs|] eqn:Hm; [|done].
    injection Hp as <-. rewrite Ser_ref. cbv zeta.
    destruct (replacer_spec (VRef l) h) as (_ & He & Hset).
    set (h1 := snd _) in *.
    destruct (Hset _ _ eq_refl Hl) as (vs & Hvs & Hlen & Hd).
    destruct (He _ _ Hl) as (o' & Ho' & vs0 & -> & HF).
    assert (vs0 = vs) as ->.
    { pose proof (Forall2_length _ _ _ HF) as Hlen0.
      rewrite <- (slots_with_slots o vs0), <- (slots_with_slots o vs) by done.
      congruence. }
    rewrite Hvs, slots_with_slots by done.
    destruct (thread_prints n IH (slots o) vs rs h h1) as [h' ->]; try done.
    { by apply mapM_Some. }
    rewrite json_of_with_slots by done. eauto.
Qed.
End SerializerStore.

(** ** Trees and documents *)

Lemma json_ind' (Q : json -> Prop) :
  Q JNull -> (forall b, Q (JBool b)) -> (forall n, Q (JNum n)) -> (forall x, Q (JStr x)) ->
  (forall items, Forall Q items -> Q (JArr items)) ->
  (forall ms, Forall (fun m => Q (snd m)) ms -> Q (JObj ms)) ->
  forall j, Q j.
Proof.
  intros H1 H2 H3 H4 H5 H6. fix IH 1.
  intros [ | b | n | x | items | ms];
    [exact H1 | apply H2 | apply H3 | apply H4 | | ].
  - apply H5. induction items as [|a items IHl]; constructor; [apply IH | exact IHl].
  - apply H6. induction ms as [|[k a] ms IHl]; constructor; [apply IH | exact IHl].
Qed.

Lemma tree_ind' (Q : tree -> Prop) :
  Q TUndefined -> Q TNull -> (forall b, Q (TBool b)) -> (forall n, Q (TNum n)) ->
  (forall x, Q (TStr x)) -> (forall d, Q (TDate d)) ->
  (forall items, Forall Q items -> Q (TArr items)) ->
  (forall ms, Forall (fun m => Q (snd m)) ms -> Q (TObj ms)) ->
  forall t, Q t.
Proof.
  intros H0 H1 H2 H3 H4 H5 H6 H7. fix IH 1.
  intros [ | | b | n | x | d | items | ms];
    [exact H0 | exact H1 | apply H2 | apply H3 | apply H4 | apply H5 | | ].
  - apply H6. induction items as [|a items IHl]; constructor; [apply IH | exact IHl].
  - apply H7. induction ms as [|[k a] ms IHl]; constructor; [apply IH | exact IHl].
Qed.

Section Reading.
Context {P : Platform}.

Lemma reify_ref n l h :
  reify n h (VRef l)
  = match n, h !! l with
    | S n', Some o =>
        match mapM (reify n' h) (slots o) with
        | Some ts =>
            Some match o with
                 | OArray _ => TArr ts
                 | ORecord ps => TObj (zip (fst <$> ps) ts)
                 end
        | None => None
        end
    | _, _ => None
    end.
Proof. destruct n; reflexivity. Qed.

Lemma reify_is_TDate n h v t : reify n h v = Some t -> is_TDate t = is_Date v.
Proof.
  destruct v; destruct n; cbn; try (intros [= <-]; done); try done.
  destruct (h !! l) as [o|]; [|done].
  destruct (mapM _ _); [|done]. intros [= <-]. by destruct o.
Qed.

(** More fuel reads the same tree. *)
Lemma reify_mono n : forall m h v t, reify n h v = Some t -> n <= m -> reify m h v = Some t.
Proof.
  induction n as [|n IH]; intros m h v t Hr Hle.
  - destruct v; try done; destruct m; done.
  - destruct m as [|m]; [lia|].
    destruct v; try done. rewrite reify_ref in *.
    destruct (h !! l) as [o|]; [|done].
    destruct (mapM (reify n h) (slots o)) as [ts|] eqn:Hm; [|done].
    assert (mapM (reify m h) (slots o) = Some ts) as ->; [|done].
    apply mapM_Some. apply mapM_Some in Hm.
    eapply Forall2_impl; [exact Hm|]. intros x y Hxy. cbn in Hxy. eapply IH; [done|lia].
Qed.

(** Allocation does not change what is read. *)
Lemma reify_app n : forall h hs v t, reify n h v = Some t -> reify n (h ++ hs) v = Some t.
Proof.
  induction n as [|n IH]; intros h hs v t Hr.
  - destruct v; done.
  - destruct v; try done. rewrite reify_ref in *.
    destruct (h !! l) as [o|] eqn:Hl; [|done].
    rewrite (lookup_app_l_Some _ _ _ _ Hl).
    destruct (mapM (reify n h) (slots o)) as [ts|] eqn:Hm; [|done].
    assert (mapM (reify n (h ++ hs)) (slots o) = Some ts) as ->; [|done].
    apply mapM_Some. apply mapM_Some in Hm.
    eapply Forall2_impl; [exact Hm|]. intros x y Hxy. cbn in Hxy. by eapply IH.
Qed.

Variable f : JSONSerializer.DateFormat.

Lemma encode_slot_dateless c : is_TDate c = false -> encode_slot f c = encode f c.
Proof. by destruct c. Qed.

Lemma encode_TArr items :
  encode f (TArr items) = Some (JArr (array_items (encode_slot f <$> items))).
Proof. reflexivity. Qed.

Lemma encode_TObj ms :
  encode f (TObj ms)
  = Some (JObj (object_members (fst <$> ms) (encode_slot f <$> (snd <$> ms)))).
Proof.
  cbn. do 3 f_equal. rewrite <- list_fmap_compose. apply list_fmap_ext.
  by intros i [k c] _.
Qed.

(** [print] is [encode] on the tree read from the store. *)
Lemma reify_print n : forall h v t,
  reify n h v = Some t -> print f n h v = Some (encode f t).
Proof.
  induction n as [|n IH]; intros h v t Hr.
  - destruct v; try done; cbn in Hr; by injection Hr as <-.
  - destruct v; try (cbn in Hr; by injection Hr as <-).
    rewrite reify_ref in Hr. rewrite print_ref.
    destruct (h !! l) as [o|] eqn:Hl; [|done].
    destruct (mapM (reify n h) (slots o)) as [ts|] eqn:Hm; [|done].
    injection Hr as <-.
    pose proof (length_mapM _ _ _ Hm) as Hlen.
    assert (mapM (print_slot f n h) (slots o) = Some (encode_slot f <$> ts)) as ->.
    { apply mapM_Some. apply mapM_Some in Hm. apply Forall2_fmap_r.
      eapply Forall2_impl; [exact Hm|]. intros x c Hxc. unfold compose. cbn beta in *.
      destruct (is_Date x) eqn:Hx.
      - destruct x; try discriminate. destruct n; [done|]. cbn in Hxc.
        by injection Hxc as <-.
      - rewrite print_slot_dateless by done.
        rewrite encode_slot_dateless by (by rewrite (reify_is_TDate _ _ _ _ Hxc)).
        by apply IH. }
    destruct o as [xs|ps]; [done|]. cbn in Hlen. rewrite length_fmap in Hlen.
    rewrite encode_TObj. cbn.
    rewrite fst_zip, snd_zip by (rewrite length_fmap; lia). done.
Qed.
End Reading.

Lemma max_list_fmap_le {A} (g : A -> nat) (l : list A) (b : nat) :
  max_list (g <$> l) <= b <-> Forall (fun x => g x <= b) l.
Proof.
  induction l as [|x l IH]; cbn.
  - split; [constructor|intros _; lia].
  - rewrite Forall_cons, <- IH. lia.
Qed.

Section Parsing.
Context {P : Platform}.
Variable s : JSONSerializer.t.
Abbreviation fmt := (JSONSerializer.dateFormat s).

Lemma strict_eq_Date x : strict_eq (VStr x) (VStr "Date") = String.eqb x "Date".
Proof.
  unfold strict_eq. destruct (String.eqb_spec x "Date") as [->|Hne].
  - by apply bool_decide_eq_true.
  - apply bool_decide_eq_false. congruence.
Qed.

Lemma reviver_leaf v h : is_ref v = false -> JSONSerializer.reviver s v h = v.
Proof. by destruct v. Qed.

Lemma reviver_array h l vs :
  h !! l = Some (OArray vs) -> JSONSerializer.reviver s (VRef l) h = VRef l.
Proof. intros Hl. unfold JSONSerializer.reviver, getv. by rewrite Hl. Qed.

Lemma Date_of_reify n h v c :
  reify n h v = Some c -> JSONSerializer.Date_of v = Date_of_tree c.
Proof.
  destruct v; destruct n; cbn; try (intros [= <-]; done); try done.
  destruct (h !! l) as [o|]; [|done]. destruct (mapM _ _); [|done].
  intros [= <-]. by destruct o.
Qed.

Lemma truthy_reify n h v c : reify n h v = Some c -> truthy v = tree_truthy c.
Proof.
  destruct v; destruct n; cbn; try (intros [= <-]; done); try done.
  destruct (h !! l) as [o|]; [|done]. destruct (mapM _ _); [|done].
  intros [= <-]. by destruct o.
Qed.

Lemma names_Date_reify n h v c :
  reify n h v = Some c -> strict_eq v (VStr "Date") = names_Date (Some c).
Proof.
  destruct v; destruct n; cbn; try (intros [= <-]; done); try done;
    try (intros [= <-]; apply strict_eq_Date).
  destruct (h !! l) as [o|]; [|done]. destruct (mapM _ _); [|done].
  intros [= <-]. by destruct o.
Qed.

Lemma assoc_reify n h k : forall ps cs,
  Forall2 (fun v c => reify n h v = Some c) (snd <$> ps) cs ->
  reify n h (default VUndefined (assoc k ps))
  = Some (default TUndefined (tree_assoc k (zip (fst <$> ps) cs))) /\
  (assoc k ps = None <-> tree_assoc k (zip (fst <$> ps) cs) = None).
Proof.
  induction ps as [|[k' v] ps IH]; intros cs HF.
  - inversion HF. cbn. split; [by destruct n|done].
  - inversion HF as [|? c ? cs' Hv HF']; subst. cbn.
    destruct (String.eqb k k'); [by split|]. by apply IH.
Qed.

(** The reviver on a record whose property values read as [cs]. *)
Lemma reviver_record n h l ps cs :
  h !! l = Some (ORecord ps) ->
  Forall2 (fun v c => reify n h v = Some c) (snd <$> ps) cs ->
  reify (S n) h (JSONSerializer.reviver s (VRef l) h)
  = Some (revive fmt (TObj (zip (fst <$> ps) cs))).
Proof.
  intros Hl HF. unfold JSONSerializer.reviver, revive.
  assert (forall k, getv h (VRef l) k = default VUndefined (assoc k ps)) as Hg.
  { intros k. cbn. by rewrite Hl. }
  rewrite !Hg.
  destruct (assoc_reify n h "$type" ps cs HF) as [Ht Ht'].
  destruct (assoc_reify n h "$iso" ps cs HF) as [Hi _].
  destruct (assoc_reify n h "$value" ps cs HF) as [Hv _].
  assert (strict_eq (default VUndefined (assoc "$type" ps)) (VStr "Date")
          = names_Date (tree_assoc "$type" (zip (fst <$> ps) cs))) as ->.
  { rewrite (names_Date_reify _ _ _ _ Ht).
    destruct (tree_assoc "$type" (zip (fst <$> ps) cs)); done. }
  destruct (names_Date _).
  - rewrite (truthy_reify _ _ _ _ Hi).
    unfold JSONSerializer.is_formatted.
    destruct (_ && _).
    + by rewrite (Date_of_reify _ _ _ _ Hi).
    + by rewrite (Date_of_reify _ _ _ _ Hv).
  - rewrite reify_ref, Hl. cbn [slots].
    by rewrite (proj2 (mapM_Some _ _ _) HF).
Qed.

Lemma zip_decode (g : json -> tree) (ms : list (string * json)) :
  zip (fst <$> ms) (g <$> (snd <$> ms)) = (fun '(k, x) => (k, g x)) <$> ms.
Proof. induction ms as [|[k x] ms IH]; cbn; [done|]. by rewrite IH. Qed.

Lemma thread_items_spec items :
  Forall (fun j => forall h, exists news,
            snd (Internalize (JSONSerializer.reviver s) j h) = h ++ news /\
            forall n, json_depth j <= n ->
              reify n (h ++ news) (fst (Internalize (JSONSerializer.reviver s) j h))
              = Some (decode fmt j)) items ->
  forall h, exists news,
    snd (thread_items (Internalize (JSONSerializer.reviver s)) items h) = h ++ news /\
    forall n, Forall (fun j => json_depth j <= n) items ->
      Forall2 (fun v c => reify n (h ++ news) v = Some c)
        (fst (thread_items (Internalize (JSONSerializer.reviver s)) items h))
        (decode fmt <$> items).
Proof.
  induction 1 as [|j items Hj _ IH]; intros h.
  - exists []. cbn. rewrite app_nil_r. split; [done|]. intros; constructor.
  - cbn. destruct (Hj h) as (news1 & H1 & H2).
    destruct (Internalize _ j h) as [v h1]. cbn in *. subst h1.
    destruct (IH (h ++ news1)) as (news2 & H3 & H4).
    destruct (thread_items _ items (h ++ news1)) as [vs h2]. cbn in *. subst h2.
    exists (news1 ++ news2). rewrite app_assoc. split; [done|].
    intros n Hn. apply Forall_cons in Hn as [Hn1 Hn2]. constructor; [|by apply H4].
    apply reify_app. by apply H2.
Qed.

Lemma thread_members_spec ms :
  Forall (fun m => forall h, exists news,
            snd (Internalize (JSONSerializer.reviver s) (snd m) h) = h ++ news /\
            forall n, json_depth (snd m) <= n ->
              reify n (h ++ news) (fst (Internalize (JSONSerializer.reviver s) (snd m) h))
              = Some (decode fmt (snd m))) ms ->
  forall h, exists news,
    snd (thread_members (Internalize (JSONSerializer.reviver s)) ms h) = h ++ news /\
    fst <$> fst (thread_members (Internalize (JSONSerializer.reviver s)) ms h)
    = fst <$> ms /\
    forall n, Forall (fun m => json_depth (snd m) <= n) ms ->
      Forall2 (fun v c => reify n (h ++ news) v = Some c)
        (snd <$> fst (thread_members (Internalize (JSONSerializer.reviver s)) ms h))
        (decode fmt <$> (snd <$> ms)).
Proof.
  induction 1 as [|[k j] ms Hj _ IH]; intros h.
  - exists []. cbn. rewrite app_nil_r. split; [done|]. split; [done|]. intros; constructor.
  - cbn. cbn in Hj. destruct (Hj h) as (news1 & H1 & H2).
    destruct (Internalize _ j h) as [v h1]. cbn in *. subst h1.
    destruct (IH (h ++ news1)) as (news2 & H3 & H5 & H4).
    destruct (thread_members _ ms (h ++ news1)) as [ps h2]. cbn in *. subst h2.
    exists (news1 ++ news2). rewrite app_assoc. split; [done|].
    split; [by rewrite H5|].
    intros n Hn. apply Forall_cons in Hn as [Hn1 Hn2]. constructor; [|by apply H4].
    apply reify_app. by apply H2.
Qed.

(** [parse] allocates, and what it returns reads as [decode] says. *)
Lemma Internalize_spec j : forall h,
  exists news,
    snd (Internalize (JSONSerializer.reviver s) j h) = h ++ news /\
    forall n, json_depth j <= n ->
      reify n (h ++ news) (fst (Internalize (JSONSerializer.reviver s) j h))
      = Some (decode fmt j).
Proof.
  induction j as [ | b | z | x | items IH | ms IH] using json_ind'; intros h;
    try (exists []; cbn; rewrite app_nil_r; split; [done|];
         intros n _; by destruct n).
  - destruct (thread_items_spec items IH h) as (news & H1 & H2).
    cbn [Internalize].
    destruct (thread_items _ items h) as [vs h1]. cbn in H1, H2. subst h1.
    cbn. exists (news ++ [OArray vs]). rewrite app_assoc. split; [done|].
    intros n Hn. destruct n as [|n]; [lia|].
    apply le_S_n, max_list_fmap_le in Hn.
    rewrite (reviver_array _ _ vs) by (by rewrite list_lookup_middle).
    rewrite reify_ref, list_lookup_middle by done. cbn [slots].
    assert (mapM (reify n ((h ++ news) ++ [OArray vs])) vs = Some (decode fmt <$> items)) as ->.
    { apply mapM_Some. eapply Forall2_impl; [apply (H2 n Hn)|].
      intros v c Hvc. by apply reify_app. }
    done.
  - destruct (thread_members_spec ms IH h) as (news & H1 & H3 & H2).
    cbn [Internalize].
    destruct (thread_members _ ms h) as [ps h1]. cbn in H1, H2, H3. subst h1.
    cbn. exists (news ++ [ORecord ps]). rewrite app_assoc. split; [done|].
    intros n Hn. destruct n as [|n]; [lia|].
    apply le_S_n in Hn.
    assert (Forall (fun m => json_depth (snd m) <= n) ms) as Hn'.
    { apply max_list_fmap_le in Hn. eapply Forall_impl; [exact Hn|]. by intros [k x]. }
    rewrite (reviver_record n _ (length (h ++ news)) ps (decode fmt <$> (snd <$> ms))).
    + by rewrite H3, zip_decode.
    + by rewrite list_lookup_middle.
    + eapply Forall2_impl; [apply (H2 n Hn')|]. intros v c Hvc. by apply reify_app.
Qed.
End Parsing.

Section RoundTrip.
Context {P : Platform} {Laws : PlatformLaws P}.
Variable f : JSONSerializer.DateFormat.

Lemma tag_json_depth d : json_depth (tag_json f d) = 1.
Proof. unfold tag_json. by destruct f. Qed.

Lemma object_members_Forall (Q : json -> Prop) ks rs :
  Forall (fun r => forall j, r = Some j -> Q j) rs ->
  Forall (fun m => Q (snd m)) (object_members ks rs).
Proof.
  intros HF. revert ks. induction HF as [|r rs Hr _ IH]; intros ks.
  - destruct ks; constructor.
  - destruct ks as [|k ks]; [constructor|]. destruct r as [j|]; cbn; [|apply IH].
    constructor; [by apply Hr|apply IH].
Qed.

(** A document printed within [n] is at most [n] deep. *)
Lemma print_depth n : forall h v j,
  print f n h v = Some (Some j) -> json_depth j <= n.
Proof.
  induction n as [|n IH]; intros h v j Hp.
  - destruct v; cbn in Hp; try done; injection Hp as <-; cbn; lia.
  - destruct v; try (cbn in Hp; try done; injection Hp as <-; cbn; lia).
    rewrite print_ref in Hp. destruct (h !! l) as [o|]; [|done].
    destruct (mapM (print_slot f n h) (slots o)) as [rs|] eqn:Hm; [|done].
    injection Hp as <-.
    assert (Forall (fun r => forall j, r = Some j -> json_depth j <= n) rs) as Hrs.
    { apply mapM_Some in Hm. clear -Hm IH.
      induction Hm as [|x r xs rs Hx _ IHm]; constructor; [|done].
      intros j ->. destruct (is_Date x) eqn:Hd.
      - destruct x; try discriminate. destruct n; [done|]. cbn in Hx.
        injection Hx as <-. rewrite tag_json_depth. lia.
      - rewrite print_slot_dateless in Hx by done. by eapply IH. }
    destruct o as [xs|ps]; cbn.
    + apply le_n_S, max_list_fmap_le. unfold array_items.
      apply Forall_fmap. eapply Forall_impl; [exact Hrs|].
      intros [j|] Hj; cbn; [by apply Hj|lia].
    + apply le_n_S, max_list_fmap_le.
      eapply Forall_impl; [apply (object_members_Forall _ _ _ Hrs)|].
      by intros [k j].
Qed.

Lemma decode_tag_json d : decode f (tag_json f d) = TDate d.
Proof.
  unfold tag_json. destruct f; cbn.
  - by rewrite parse_toISOString.
  - done.
  - destruct (String.eqb_spec (toISOString d) "") as [E|_].
    + by apply toISOString_nonempty in E.
    + cbn. by rewrite parse_toISOString.
Qed.

Lemma prune_TObj ms : prune (TObj ms) = TObj (prune_members ms).
Proof.
  cbn. f_equal. unfold prune_members.
  induction ms as [|[k c] ms IH]; cbn; [done|]. rewrite IH. by destruct (is_TUndefined c).
Qed.

Lemma names_Date_prune c : names_Date (Some (prune c)) = names_Date (Some c).
Proof. by destruct c. Qed.

Lemma tree_assoc_None k ms : k ∉ fst <$> ms -> tree_assoc k ms = None.
Proof.
  induction ms as [|[k' c] ms IH]; cbn; [done|]. intros Hk.
  apply not_elem_of_cons in Hk as [Hne Hk].
  destruct (String.eqb_spec k k'); [done|]. by apply IH.
Qed.

Lemma prune_members_keys k ms : k ∉ fst <$> ms -> k ∉ fst <$> prune_members ms.
Proof.
  unfold prune_members. induction ms as [|[k' c] ms IH]; cbn; [done|]. intros Hk.
  apply not_elem_of_cons in Hk as [Hne Hk].
  destruct (is_TUndefined c); cbn; [by apply IH|].
  apply not_elem_of_cons. split; [done|by apply IH].
Qed.

Lemma tree_assoc_cons k k' c ms :
  tree_assoc k ((k', c) :: ms) = if String.eqb k k' then Some c else tree_assoc k ms.
Proof. reflexivity. Qed.

Lemma prune_members_cons k c ms :
  prune_members ((k, c) :: ms)
  = if is_TUndefined c then prune_members ms else (k, prune c) :: prune_members ms.
Proof. unfold prune_members. cbn. by destruct (is_TUndefined c). Qed.

Lemma names_Date_prune_members ms :
  NoDup (fst <$> ms) ->
  names_Date (tree_assoc "$type" ms) = false ->
  names_Date (tree_assoc "$type" (prune_members ms)) = false.
Proof.
  induction ms as [|[k c] ms IH]; [done|].
  rewrite fmap_cons, NoDup_cons, tree_assoc_cons, prune_members_cons.
  cbn [fst]. intros [Hk Hnd] Hc.
  destruct (String.eqb_spec "$type" k) as [<-|Hne].
  - destruct (is_TUndefined c) eqn:Hu.
    + by rewrite tree_assoc_None by (by apply prune_members_keys).
    + rewrite tree_assoc_cons, String.eqb_refl. by rewrite names_Date_prune.
  - destruct (is_TUndefined c); [by apply IH|].
    rewrite tree_assoc_cons. destruct (String.eqb_spec "$type" k); [done|]. by apply IH.
Qed.

(** Printing a plain tree and reading the document back gives the
    tree, up to the members whose value is [undefined]. *)
Lemma decode_encode_slot c :
  plain c = true ->
  (c = TUndefined /\ encode_slot f c = None) \/
  (c <> TUndefined /\ exists j, encode_slot f c = Some j /\ decode f j = prune c).
Proof.
  induction c as [ | | b | z | x | d | items IH | ms IH] using tree_ind'; intros Hp;
    try (by left); try (right; split; [done|]; by eexists).
  - right. split; [done|]. eexists. split; [done|]. apply decode_tag_json.
  - right. split; [done|]. eexists. split; [apply encode_TArr|].
    cbn. f_equal. cbn in Hp. unfold array_items.
    induction IH as [|c items Hc _ IHl]; [done|].
    cbn in Hp. apply andb_prop in Hp as [Hp1 Hp2]. apply andb_prop in Hp1 as [Hu Hpc].
    cbn. rewrite IHl by done. f_equal.
    destruct (Hc Hpc) as [[-> _]|(_ & j & -> & Hj)]; [done|]. done.
  - right. split; [done|]. eexists. split; [apply encode_TObj|].
    cbn in Hp. apply andb_prop in Hp as [Hp1 Hpm]. apply andb_prop in Hp1 as [Hnd Ht].
    apply bool_decide_eq_true in Hnd. apply negb_true_iff in Ht.
    rewrite prune_TObj. cbn [decode].
    assert ((fun '(k, x) => (k, decode f x)) <$>
              object_members (fst <$> ms) (encode_slot f <$> (snd <$> ms))
            = prune_members ms) as ->.
    { unfold prune_members. clear Hnd Ht.
      induction IH as [|[k c] ms Hc _ IHl]; [done|].
      cbn in Hpm. apply andb_prop in Hpm as [Hpc Hpm]. cbn in Hc.
      cbn. destruct (Hc Hpc) as [[-> ->]|(Hne & j & -> & Hj)]; cbn.
      - by apply IHl.
      - rewrite IHl by done. destruct c; try done; by rewrite <- Hj. }
    unfold revive. by rewrite names_Date_prune_members.
Qed.
End RoundTrip.

Section Depth.
Context {P : Platform}.

Lemma reify_depth n : forall h v t, reify n h v = Some t -> tree_depth t <= n.
Proof.
  induction n as [|n IH]; intros h v t Hr.
  - destruct v; cbn in Hr; try done; injection Hr as <-; cbn; lia.
  - destruct v; try (cbn in Hr; injection Hr as <-; cbn; lia).
    rewrite reify_ref in Hr. destruct (h !! l) as [o|]; [|done].
    destruct (mapM (reify n h) (slots o)) as [ts|] eqn:Hm; [|done].
    injection Hr as <-.
    assert (Forall (fun c => tree_depth c <= n) ts) as Hts.
    { apply mapM_Some in Hm. clear -Hm IH.
      induction Hm as [|x c xs cs Hx _ IHm]; constructor; [by eapply IH|done]. }
    pose proof (length_mapM _ _ _ Hm) as Hlen.
    destruct o as [xs|ps]; cbn.
    + by apply le_n_S, max_list_fmap_le.
    + apply le_n_S, max_list_fmap_le.
      cbn in Hlen. rewrite length_fmap in Hlen.
      apply Forall_forall. intros [k c] Hin.
      apply elem_of_zip_r in Hin. rewrite Forall_forall in Hts. by apply Hts.
Qed.

(** A tree read with some fuel is read with any fuel that covers its depth. *)
Lemma reify_lower m : forall n h v t,
  reify m h v = Some t -> tree_depth t <= n -> reify n h v = Some t.
Proof.
  induction m as [|m IH]; intros n h v t Hr Hd.
  - destruct v; cbn in Hr; try done; injection Hr as <-; by destruct n.
  - destruct v; try (cbn in Hr; injection Hr as <-; destruct n; cbn in *; done || lia).
    rewrite reify_ref in Hr. destruct (h !! l) as [o|] eqn:Hl; [|done].
    destruct (mapM (reify m h) (slots o)) as [ts|] eqn:Hm; [|done].
    injection Hr as <-.
    pose proof (length_mapM _ _ _ Hm) as Hlen.
    assert (exists n', n = S n' /\ Forall (fun c => tree_depth c <= n') ts) as (n' & -> & Hts).
    { destruct o as [xs|ps]; cbn in Hd; (destruct n as [|n']; [lia|]);
        exists n'; (split; [done|]); apply le_S_n, max_list_fmap_le in Hd; [done|].
      cbn in Hlen. rewrite length_fmap in Hlen.
      apply Forall_forall. intros c Hc.
      apply list_elem_of_lookup in Hc as [i Hi].
      destruct (lookup_lt_is_Some_2 (fst <$> ps) i) as [k Hk].
      { rewrite length_fmap, Hlen. by eapply lookup_lt_Some. }
      rewrite Forall_forall in Hd. apply (Hd (k, c)).
      apply list_elem_of_lookup. exists i. by apply lookup_zip_with_Some; eauto. }
    rewrite reify_ref, Hl.
    assert (mapM (reify n' h) (slots o) = Some ts) as ->; [|done].
    apply mapM_Some. apply mapM_Some in Hm. clear -Hm Hts IH.
    induction Hm as [|x c xs cs Hx _ IHm]; [constructor|].
    apply Forall_cons in Hts as [Hc Hts]. constructor; [by eapply IH|by apply IHm].
Qed.
End Depth.

Section ExportData.
Context {P : Platform}.
Import D3Timeline.

Lemma reify_TArr_inv n h v ts :
  reify n h v = Some (TArr ts) ->
  exists n' l xs, n = S n' /\ v = VRef l /\ h !! l = Some (OArray xs) /\
                  mapM (reify n' h) xs = Some ts.
Proof.
  destruct v; destruct n; cbn; try done.
  destruct (h !! l) as [[xs|ps]|] eqn:Hl; cbn; try done;
    destruct (mapM _ _) eqn:Hm; try done.
  intros [= <-]. eauto 8.
Qed.

Lemma reify_TObj_inv n h v ms :
  reify n h v = Some (TObj ms) ->
  exists n' l ps, n = S n' /\ v = VRef l /\ h !! l = Some (ORecord ps) /\
                  fst <$> ps = fst <$> ms /\
                  mapM (reify n' h) (snd <$> ps) = Some (snd <$> ms).
Proof.
  destruct v; destruct n; cbn; try done.
  destruct (h !! l) as [[xs|ps]|] eqn:Hl; cbn; try done;
    destruct (mapM _ _) as [cs|] eqn:Hm; try done.
  intros [= <-]. pose proof (length_mapM _ _ _ Hm) as Hlen.
  rewrite length_fmap in Hlen.
  exists n, l, ps. rewrite fst_zip, snd_zip by (rewrite length_fmap; lia). done.
Qed.

Lemma mapM_reify_app n h hs vs ts :
  mapM (reify n h) vs = Some ts -> mapM (reify n (h ++ hs)) vs = Some ts.
Proof.
  rewrite !mapM_Some. intros HF. eapply Forall2_impl; [exact HF|].
  intros x c Hx. by apply reify_app.
Qed.

Lemma mapM_reify_mono n m h vs ts :
  mapM (reify n h) vs = Some ts -> n <= m -> mapM (reify m h) vs = Some ts.
Proof.
  rewrite !mapM_Some. intros HF Hle. eapply Forall2_impl; [exact HF|].
  intros x c Hx. eapply reify_mono; [exact Hx | exact Hle].
Qed.

Lemma exportData_eq this w :
  exportData this w
  = (VRef (length (store w) + 3), with_store (store w ++ exported this (store w)) w).
Proof.
  unfold exportData, exported, new_object, alloc, with_store. cbn.
  rewrite !length_app. cbn. rewrite <- !app_assoc. cbn.
  replace (length (store w) + 1 + 1 + 1) with (length (store w) + 3) by lia.
  by replace (length (store w) + 1 + 1) with (length (store w) + 2) by lia.
Qed.

(** The object [exportData] returns reads as the data of the instance. *)
Lemma exportData_tree n this w ts es rm :
  state_tree n (store w) this = Some (ts, es, TObj rm) ->
  reify (S (S n)) (store w ++ exported this (store w)) (VRef (length (store w) + 3))
  = Some (TObj [("timelines", TArr ts); ("events", TArr es); ("timeRange", TObj rm)]).
Proof.
  unfold state_tree.
  destruct (mapM (reify n (store w)) (timelines this)) as [ts'|] eqn:Ht; [|done].
  destruct (mapM (reify n (store w)) (events this)) as [es'|] eqn:He; [|done].
  destruct (reify n (store w) (timeRange this)) as [r|] eqn:Hr; [|done].
  intros [= -> -> ->].
  apply reify_TObj_inv in Hr as (n' & l & ps & -> & Hv & Hl & Hk & Hm).
  set (h := store w) in *. set (h' := h ++ exported this h).
  assert (h' !! length h = Some (OArray (timelines this))) as H0.
  { unfold h', exported. by rewrite list_lookup_middle. }
  assert (h' !! (length h + 1) = Some (OArray (events this))) as H1.
  { unfold h'. rewrite lookup_app_r by lia.
    by replace (length h + 1 - length h) with 1 by lia. }
  assert (h' !! (length h + 2) = Some (ORecord ps)) as H2.
  { unfold h'. rewrite lookup_app_r by lia.
    replace (length h + 2 - length h) with 2 by lia. cbn.
    rewrite Hv. cbn. by rewrite (lookup_app_l_Some _ _ _ _ Hl). }
  assert (h' !! (length h + 3)
          = Some (ORecord [("timelines", VRef (length h));
                           ("events", VRef (length h + 1));
                           ("timeRange", VRef (length h + 2))])) as H3.
  { unfold h'. rewrite lookup_app_r by lia.
    by replace (length h + 3 - length h) with 3 by lia. }
  rewrite reify_ref, H3. cbn [slots fmap list_fmap snd mapM].
  rewrite !reify_ref, H0, H1, H2. cbn [slots]. subst h'.
  rewrite (mapM_reify_app _ _ _ _ _ Ht), (mapM_reify_app _ _ _ _ _ He).
  rewrite (mapM_reify_app _ _ _ _ _ (mapM_reify_mono _ (S n') _ _ _ Hm ltac:(lia))).
  cbn. rewrite Hk. by rewrite zip_fst_snd.
Qed.
End ExportData.

Section Pruning.
Context {P : Platform}.

Lemma tree_depth_prune t : tree_depth (prune t) <= tree_depth t.
Proof.
  induction t as [ | | b | n | x | d | items IH | ms IH] using tree_ind';
    try (cbn; lia).
  - cbn. apply le_n_S. apply max_list_fmap_le.
    rewrite Forall_forall in IH. apply Forall_forall.
    intros c' (c & -> & Hc)%list_elem_of_fmap.
    etrans; [by apply IH|].
    apply max_list_elem_of_le, list_elem_of_fmap. eauto.
  - rewrite prune_TObj. cbn. apply le_n_S. apply max_list_fmap_le.
    rewrite Forall_forall in IH. apply Forall_forall.
    intros [k' c'] ([k c] & Hin & Hkc)%list_elem_of_omap.
    destruct (is_TUndefined c); [done|]. injection Hkc as <- <-.
    etrans; [exact (IH _ Hin)|].
    apply max_list_elem_of_le, list_elem_of_fmap. by exists (k, c).
Qed.

Variable f : JSONSerializer.DateFormat.

Lemma encode_slot_None c : encode_slot f c = None <-> c = TUndefined.
Proof. destruct c; cbn; split; congruence. Qed.

(** The serializer prints a tree and its pruned form alike. *)
Lemma encode_slot_prune c : encode_slot f (prune c) = encode_slot f c.
Proof.
  induction c as [ | | b | n | x | d | items IH | ms IH] using tree_ind';
    try reflexivity.
  - cbn [prune]. unfold encode_slot. rewrite !encode_TArr. do 3 f_equal.
    rewrite <- list_fmap_compose. apply Forall_fmap_ext_1.
    eapply Forall_impl; [exact IH|]. by intros c Hc.
  - rewrite prune_TObj. unfold encode_slot. rewrite !encode_TObj. do 2 f_equal.
    induction IH as [|[k c] ms Hc _ IHl]; [done|].
    rewrite prune_members_cons. cbn in Hc.
    destruct (is_TUndefined c) eqn:Hu.
    + by destruct c.
    + cbn. rewrite Hc. destruct (encode_slot f c) as [j|] eqn:Hj.
      * by rewrite IHl.
      * apply encode_slot_None in Hj as ->. done.
Qed.
End Pruning.

(** ** Data that has been exported before *)
Section Settling.
Context {P : Platform} {Laws : PlatformLaws P}.

Lemma encoded_date_Some ms d :
  encoded_date ms = Some d ->
  exists iso, ms = [("$type", TStr "Date"); ("$value", TStr iso)] /\
              toISOString (Date_parse iso) = iso /\ d = Date_parse iso.
Proof.
  unfold encoded_date.
  destruct ms as [|[k1 [ | | | |ty| | | ]] [|[k2 [ | | | |iso| | | ]] [|? ?]]]; try done.
  destruct (String.eqb_spec k1 "$type") as [->|]; [|done].
  destruct (String.eqb_spec ty "Date") as [->|]; [|done].
  destruct (String.eqb_spec k2 "$value") as [->|]; [|done].
  destruct (String.eqb_spec (toISOString (Date_parse iso)) iso) as [E|]; [|done].
  intros [= <-]. by exists iso.
Qed.

Lemma encoded_date_names ms :
  names_Date (tree_assoc "$type" ms) = false -> encoded_date ms = None.
Proof.
  intros Hn. destruct (encoded_date ms) as [d|] eqn:E; [|done].
  apply encoded_date_Some in E as (iso & -> & _). done.
Qed.

Lemma settle_TObj ms :
  encoded_date ms = None -> settle (TObj ms) = TObj (settle_members ms).
Proof.
  intros E. cbn [settle]. rewrite E. f_equal. unfold settle_members.
  induction ms as [|[k c] ms IH]; cbn; [done|]. clear E.
  assert (forall ms, (fix members (ms : list (string * tree)) : list (string * tree) :=
               match ms with
               | [] => []
               | (k, c) :: rest =>
                   if is_TUndefined c then members rest
                   else (k, settle c) :: members rest
               end) ms
            = omap (fun '(k, c) => if is_TUndefined c then None else Some (k, settle c)) ms)
    as H.
  { clear. induction ms as [|[k c] ms IH]; cbn; [done|].
    rewrite IH. by destruct (is_TUndefined c). }
  rewrite H. by destruct (is_TUndefined c).
Qed.

Lemma settle_members_cons k c ms :
  settle_members ((k, c) :: ms)
  = if is_TUndefined c then settle_members ms else (k, settle c) :: settle_members ms.
Proof. unfold settle_members. cbn. by destruct (is_TUndefined c). Qed.

Lemma names_Date_settle c : names_Date (Some (settle c)) = names_Date (Some c).
Proof. destruct c; try done. cbn [settle]. by destruct (encoded_date _). Qed.

Lemma settle_members_keys k ms : k ∉ fst <$> ms -> k ∉ fst <$> settle_members ms.
Proof.
  unfold settle_members. induction ms as [|[k' c] ms IH]; cbn; [done|]. intros Hk.
  apply not_elem_of_cons in Hk as [Hne Hk].
  destruct (is_TUndefined c); cbn; [by apply IH|].
  apply not_elem_of_cons. split; [done|by apply IH].
Qed.

Lemma names_Date_settle_members ms :
  NoDup (fst <$> ms) ->
  names_Date (tree_assoc "$type" ms) = false ->
  names_Date (tree_assoc "$type" (settle_members ms)) = false.
Proof.
  induction ms as [|[k c] ms IH]; [done|].
  rewrite fmap_cons, NoDup_cons, tree_assoc_cons, settle_members_cons.
  cbn [fst]. intros [Hk Hnd] Hc.
  destruct (String.eqb_spec "$type" k) as [<-|Hne].
  - destruct (is_TUndefined c) eqn:Hu.
    + by rewrite tree_assoc_None by (by apply settle_members_keys).
    + rewrite tree_assoc_cons, String.eqb_refl. by rewrite names_Date_settle.
  - destruct (is_TUndefined c); [by apply IH|].
    rewrite tree_assoc_cons. destruct (String.eqb_spec "$type" k); [done|]. by apply IH.
Qed.

(** Printing the data of an instance and reading the document back
    gives the data with its encoded dates decoded. *)
Lemma decode_encode_canonical c :
  canonical c = true ->
  (c = TUndefined /\ encode_slot JSONSerializer.iso c = None) \/
  (c <> TUndefined /\
   exists j, encode_slot JSONSerializer.iso c = Some j /\
             decode JSONSerializer.iso j = settle c).
Proof.
  induction c as [ | | b | z | x | d | items IH | ms IH] using tree_ind'; intros Hp;
    try (by left); try (right; split; [done|]; by eexists).
  - right. split; [done|]. eexists. split; [done|]. apply decode_tag_json.
  - right. split; [done|]. eexists. split; [apply encode_TArr|].
    cbn. f_equal. cbn in Hp. unfold array_items.
    induction IH as [|c items Hc _ IHl]; [done|].
    cbn in Hp. apply andb_prop in Hp as [Hp1 Hp2]. apply andb_prop in Hp1 as [Hu Hpc].
    cbn. rewrite IHl by done. f_equal.
    destruct (Hc Hpc) as [[-> _]|(_ & j & -> & Hj)]; [done|]. done.
  - right. split; [done|]. eexists. split; [apply encode_TObj|].
    cbn [canonical] in Hp. apply andb_prop in Hp as [Hnd Hpm].
    apply bool_decide_eq_true in Hnd.
    destruct (names_Date (tree_assoc "$type" ms)) eqn:Ht.
    + apply bool_decide_eq_true in Hpm as [d Hd].
      cbn [settle]. rewrite Hd.
      apply encoded_date_Some in Hd as (x & -> & Hx & ->). cbn.
      reflexivity.
    + rewrite settle_TObj by (by apply encoded_date_names). cbn [decode].
      assert ((fun '(k, x) => (k, decode JSONSerializer.iso x)) <$>
                object_members (fst <$> ms) (encode_slot JSONSerializer.iso <$> (snd <$> ms))
              = settle_members ms) as ->.
      { unfold settle_members. clear Hnd Ht.
        induction IH as [|[k c] ms Hc _ IHl]; [done|].
        cbn in Hpm. apply andb_prop in Hpm as [Hpc Hpm]. cbn in Hc.
        cbn. destruct (Hc Hpc) as [[-> ->]|(Hne & j & -> & Hj)]; cbn.
        - by apply IHl.
        - rewrite IHl by done. destruct c; try done; by rewrite <- Hj. }
      unfold revive. by rewrite names_Date_settle_members.
Qed.

Lemma tree_depth_settle t : tree_depth (settle t) <= tree_depth t.
Proof.
  induction t as [ | | b | n | x | d | items IH | ms IH] using tree_ind';
    try (cbn; lia).
  - cbn. apply le_n_S. apply max_list_fmap_le.
    rewrite Forall_forall in IH. apply Forall_forall.
    intros c' (c & -> & Hc)%list_elem_of_fmap.
    etrans; [by apply IH|].
    apply max_list_elem_of_le, list_elem_of_fmap. eauto.
  - destruct (encoded_date ms) as [d|] eqn:E.
    + cbn [settle]. rewrite E. cbn. lia.
    + rewrite settle_TObj by done. cbn. apply le_n_S. apply max_list_fmap_le.
      rewrite Forall_forall in IH. apply Forall_forall.
      intros [k' c'] ([k c] & Hin & Hkc)%list_elem_of_omap.
      destruct (is_TUndefined c); [done|]. injection Hkc as <- <-.
      etrans; [exact (IH _ Hin)|].
      apply max_list_elem_of_le, list_elem_of_fmap. by exists (k, c).
Qed.

(** The default serializer prints the data and what it reads back as
    alike. *)
Lemma encode_slot_settle c :
  encode_slot JSONSerializer.iso (settle c) = encode_slot JSONSerializer.iso c.
Proof.
  induction c as [ | | b | n | x | d | items IH | ms IH] using tree_ind';
    try reflexivity.
  - cbn [settle]. unfold encode_slot. rewrite !encode_TArr. do 3 f_equal.
    rewrite <- list_fmap_compose. apply Forall_fmap_ext_1.
    eapply Forall_impl; [exact IH|]. by intros c Hc.
  - destruct (encoded_date ms) as [d|] eqn:E.
    + cbn [settle]. rewrite E.
      apply encoded_date_Some in E as (x & -> & Hx & ->). cbn. by rewrite Hx.
    + rewrite settle_TObj by done. unfold encode_slot. rewrite !encode_TObj. do 2 f_equal.
      clear E. induction IH as [|[k c] ms Hc _ IHl]; [done|].
      rewrite settle_members_cons. cbn in Hc.
      destruct (is_TUndefined c) eqn:Hu.
      * by destruct c.
      * cbn. rewrite Hc. destruct (encode_slot JSONSerializer.iso c) as [j|] eqn:Hj.
        -- by rewrite IHl.
        -- apply encode_slot_None in Hj as ->. done.
Qed.

(** On data that has never been exported this is [plain] and [prune]. *)
Lemma plain_canonical t : plain t = true -> canonical t = true /\ settle t = prune t.
Proof.
  induction t as [ | | b | n | x | d | items IH | ms IH] using tree_ind';
    try (by split).
  - cbn. intros Hp. split.
    + induction IH as [|c items Hc _ IHl]; [done|].
      cbn in *. apply andb_prop in Hp as [[Hu Hpc]%andb_prop Hp].
      rewrite Hu, (proj1 (Hc Hpc)). cbn. by apply IHl.
    + f_equal. induction IH as [|c items Hc _ IHl]; [done|].
      cbn in *. apply andb_prop in Hp as [[Hu Hpc]%andb_prop Hp].
      rewrite (proj2 (Hc Hpc)). f_equal. by apply IHl.
  - intros Hp. cbn [plain] in Hp.
    apply andb_prop in Hp as [[Hnd Ht]%andb_prop Hpm].
    apply negb_true_iff in Ht. split.
    + cbn [canonical]. rewrite Hnd, Ht. cbn. clear Hnd Ht.
      induction IH as [|[k c] ms Hc _ IHl]; [done|].
      cbn in *. apply andb_prop in Hpm as [Hpc Hpm].
      rewrite (proj1 (Hc Hpc)). cbn. by apply IHl.
    + rewrite settle_TObj by (by apply encoded_date_names). rewrite prune_TObj.
      f_equal. clear Hnd Ht.
      induction IH as [|[k c] ms Hc _ IHl]; [done|].
      cbn in Hpm. apply andb_prop in Hpm as [Hpc Hpm]. cbn in Hc.
      rewrite settle_members_cons, prune_members_cons.
      rewrite (proj2 (Hc Hpc)). rewrite IHl by done. done.
Qed.

Lemma tree_assoc_settle_members k ms c :
  tree_assoc k ms = Some c -> is_TUndefined c = false ->
  tree_assoc k (settle_members ms) = Some (settle c).
Proof.
  induction ms as [|[k' c'] ms IH]; [done|].
  rewrite tree_assoc_cons, settle_members_cons.
  destruct (String.eqb_spec k k') as [<-|Hne].
  - intros [= ->] ->. by rewrite tree_assoc_cons, String.eqb_refl.
  - intros Hk Hu. destruct (is_TUndefined c'); [by apply IH|].
    rewrite tree_assoc_cons. destruct (String.eqb_spec k k'); [done|]. by apply IH.
Qed.

Lemma identified_settle t : identified t = true -> identified (settle t) = true.
Proof.
  destruct t as [ | | | | | | |ms]; try done. cbn [identified].
  destruct (tree_assoc "id" ms) as [c|] eqn:Hid; [|done]. intros Hc.
  destruct (encoded_date ms) as [d|] eqn:E.
  { apply encoded_date_Some in E as (x & -> & _). done. }
  rewrite settle_TObj by done. cbn [identified].
  rewrite (tree_assoc_settle_members _ _ _ Hid) by (by destruct c).
  by destruct c.
Qed.

Lemma forallb_identified_settle ts :
  forallb identified ts = true -> forallb identified (settle <$> ts) = true.
Proof.
  induction ts as [|t ts IH]; [done|]. cbn. intros [Ht Hts]%andb_prop.
  by rewrite identified_settle, IH.
Qed.
End Settling.

(** ** What [stringify] leaves behind *)
Section Rewriting.
Context {P : Platform}.
Variable s : JSONSerializer.t.

Lemma slots_rewritten h' xs vs :
  Forall2 (slot_evolves s h') xs vs ->
  forallb (fun v => negb (is_Date v)) vs = true ->
  Forall2 (rewritten s h') xs vs.
Proof.
  induction 1 as [|x v xs vs Hxv _ IH]; cbn; [constructor|].
  intros [Hv Hvs]%andb_prop. constructor; [|by apply IH].
  destruct Hxv as [->|(d & -> & Ht)]; [|exact Ht].
  by destruct x.
Qed.

(** Every object and array the traversal goes through is written back
    with its dates replaced and nothing else changed. *)
Lemma Ser_rewrites n v h r h' l o :
  SerializeJSONProperty (JSONSerializer.replacer s) n v h = Some (r, h') ->
  reachable h v l -> h !! l = Some o ->
  exists vs, h' !! l = Some (with_slots o vs) /\
             Forall2 (rewritten s h') (slots o) vs.
Proof.
  intros Hser Hreach Hl.
  destruct (Ser_evolves s n v h r h' Hser l o Hl) as (o' & Hl' & vs & -> & HF).
  destruct (Ser_settles s n v h r h' Hser l Hreach) as (o'' & Hl'' & Hd).
  rewrite Hl' in Hl''. injection Hl'' as <-.
  rewrite slots_with_slots in Hd by (symmetry; eapply Forall2_length; exact HF).
  exists vs. split; [done|]. by apply slots_rewritten.
Qed.

Lemma assoc_rewritten h' k d : forall ps vs,
  Forall2 (rewritten s h') (snd <$> ps) vs ->
  assoc k ps = Some (VDate d) ->
  exists v', assoc k (zip (fst <$> ps) vs) = Some v' /\ tagged s h' v' d.
Proof.
  induction ps as [|[k' x] ps IH]; intros vs HF Hk; [done|].
  cbn in HF. apply Forall2_cons_inv_l in HF as (v & vs' & Hxv & HF & ->).
  cbn in *. destruct (String.eqb k k').
  - injection Hk as ->. eauto.
  - by apply IH.
Qed.

Lemma tagged_date_record h v d : tagged s h v d -> date_record s h v d.
Proof.
  intros (r & -> & Hr). unfold date_record, date_value.
  unfold JSONSerializer.dateReplacer in Hr.
  destruct (JSONSerializer.dateFormat s); eexists r, _; (split; [done|]);
    (split; [exact Hr|]); repeat split.
Qed.

Lemma rewritten_replaced h' v v' : rewritten s h' v v' -> replaced s h' v v'.
Proof. destruct v; cbn; try done. apply tagged_date_record. Qed.

Lemma getv_settled h l k : settled h l -> is_Date (getv h (VRef l) k) = false.
Proof.
  intros (o & Hl & Hd). unfold getv. rewrite Hl. destruct o as [xs|ps]; [done|].
  cbn [slots] in Hd. clear Hl. induction ps as [|[k' x] ps IH]; [done|].
  cbn [fmap list_fmap snd forallb] in Hd. apply andb_prop in Hd as [Hx Hd].
  cbn [assoc]. destruct (String.eqb k k').
  - cbn. by destruct (is_Date x).
  - by apply IH.
Qed.

Lemma getv_rewritten h h' l o vs k d :
  h !! l = Some o -> h' !! l = Some (with_slots o vs) ->
  Forall2 (rewritten s h') (slots o) vs ->
  getv h (VRef l) k = VDate d ->
  tagged s h' (getv h' (VRef l) k) d.
Proof.
  intros Hl Hl' HF. unfold getv. rewrite Hl, Hl'.
  destruct o as [xs|ps]; [done|]. cbn.
  destruct (assoc k ps) as [x|] eqn:Hk; [|done]. cbn. intros ->.
  destruct (assoc_rewritten _ _ _ _ _ HF Hk) as (v' & -> & Ht). exact Ht.
Qed.
End Rewriting.

Section ExportString.
Context {P : Platform}.
Import D3Timeline.

Lemma stringify_eq s n v h :
  JSONSerializer.stringify s n v h
  = match SerializeJSONProperty (JSONSerializer.replacer s) n v h with
    | None => None
    | Some (r, h') => Some (Rendered (JSONSerializer.space s) <$> r, h')
    end.
Proof. reflexivity. Qed.

Lemma exportDataString_eq n autoFormat this w :
  exportDataString n autoFormat this w
  = match JSONSerializer.stringify (export_serializer autoFormat) n
            (VRef (length (store w) + 3)) (store w ++ exported this (store w)) with
    | None => None
    | Some (r, h) => Some (r, with_store h w)
    end.
Proof.
  unfold exportDataString. rewrite exportData_eq. cbn [store with_store].
  unfold export_serializer.
  destruct (JSONSerializer.stringify _ _ _ _) as [[r h]|]; [|done].
  by destruct w.
Qed.

Lemma reachable_event this h l o :
  VRef l ∈ events this -> h !! l = Some o ->
  reachable (h ++ exported this h) (VRef (length h + 3)) l.
Proof.
  intros He Hl. set (h' := h ++ exported this h).
  assert (h' !! (length h + 1) = Some (OArray (events this))) as H1.
  { unfold h'. rewrite lookup_app_r by lia.
    by replace (length h + 1 - length h) with 1 by lia. }
  assert (h' !! (length h + 3)
          = Some (ORecord [("timelines", VRef (length h));
                           ("events", VRef (length h + 1));
                           ("timeRange", VRef (length h + 2))])) as H3.
  { unfold h'. rewrite lookup_app_r by lia.
    by replace (length h + 3 - length h) with 3 by lia. }
  eapply reach_step; [exact H3| |].
  { cbn. apply elem_of_cons. right. apply elem_of_cons. by left. }
  eapply reach_step; [exact H1|exact He|].
  eapply reach_here. unfold h'. by apply lookup_app_l_Some.
Qed.

(** [exportDataString] returns a text for every instance whose data can
    be read from the store, the document the data encodes to. *)
Lemma exportDataString_prints n autoFormat this w ts es rm :
  state_tree n (store w) this = Some (ts, es, TObj rm) ->
  exists doc h',
    encode JSONSerializer.iso
      (TObj [("timelines", TArr ts); ("events", TArr es); ("timeRange", TObj rm)])
    = Some doc /\
    json_depth doc <= S (S n) /\
    SerializeJSONProperty (JSONSerializer.replacer (export_serializer autoFormat))
      (S (S n)) (VRef (length (store w) + 3)) (store w ++ exported this (store w))
    = Some (Some doc, h') /\
    exportDataString (S (S n)) autoFormat this w
    = Some (Some (Rendered (JSONSerializer.space (export_serializer autoFormat)) doc),
            with_store h' w).
Proof.
  intros Hst. pose proof (exportData_tree _ _ _ _ _ _ Hst) as Hr.
  apply (reify_print JSONSerializer.iso) in Hr.
  rewrite encode_TObj in Hr. rewrite encode_TObj.
  set (doc := JObj _) in *.
  destruct (Ser_prints (export_serializer autoFormat) _ _ _ _ Hr) as (h' & Hser).
  exists doc, h'. repeat split; [|exact Hser|].
  - by apply (print_depth _ _ _ _ _ Hr).
  - rewrite exportDataString_eq, stringify_eq, Hser. done.
Qed.
End ExportString.

Section ImportString.
Context {P : Platform}.
Import D3Timeline.

Lemma importDataString_eq sp doc this w :
  importDataString (Rendered sp doc) this w
  = importData (fst (Internalize (JSONSerializer.reviver import_serializer) doc (store w)))
      this
      (with_store (snd (Internalize (JSONSerializer.reviver import_serializer) doc (store w))) w).
Proof.
  unfold importDataString, JSONSerializer.parse, JSON_parse, import_serializer.
  by destruct (Internalize _ _ _).
Qed.

(** The key function accepts what reads as an identified object. *)
Lemma key_identified n h v t :
  reify n h v = Some t -> identified t = true -> key h v = Ok tt.
Proof.
  destruct t as [ | | | | | | |ms]; try done. intros Hr Hi.
  apply reify_TObj_inv in Hr as (n' & l & ps & -> & -> & Hl & Hks & Hm).
  apply mapM_Some in Hm.
  destruct (assoc_reify n' h "id" ps (snd <$> ms) Hm) as [Hid _].
  rewrite Hks, zip_fst_snd in Hid.
  unfold key, Get, getv. rewrite Hl.
  cbn in Hi. destruct (tree_assoc "id" ms) as [c|]; [|done]. cbn in Hid.
  destruct (default VUndefined (assoc "id" ps)) as [ | | | | | |r];
    destruct c; try done; destruct n'; cbn in Hid; try done.
  all: destruct (h !! r) as [[?|?]|]; try done; destruct (mapM _ _); done.
Qed.

Lemma join_keys_identified n h : forall vs ts,
  mapM (reify n h) vs = Some ts -> forallb identified ts = true ->
  join_keys h vs = Ok tt.
Proof.
  intros vs ts Hm. apply mapM_Some in Hm.
  induction Hm as [|v t vs ts Hv _ IH]; [done|].
  cbn. intros [Ht Hts]%andb_prop.
  rewrite (key_identified _ _ _ _ Hv Ht). by apply IH.
Qed.

(** [importData] on an object that reads as exported data. *)
Lemma importData_reads n data this w ts es rm :
  reify (S (S n)) (store w) data
  = Some (TObj [("timelines", TArr ts); ("events", TArr es); ("timeRange", TObj rm)]) ->
  tree_depth (TObj rm) <= n ->
  forallb identified ts = true -> forallb identified es = true ->
  exists that w',
    importData data this w = (Ok true, that, w') /\
    state_tree n (store w') that = Some (ts, es, TObj rm).
Proof.
  intros Hr Hd Hits Hies.
  apply reify_TObj_inv in Hr as (n1 & l & ps & [= <-] & -> & Hl & Hks & Hm).
  destruct ps as [|[k1 v1] [|[k2 v2] [|[k3 v3] [|? ?]]]]; try done.
  cbn in Hks. injection Hks as -> -> ->.
  apply mapM_Some in Hm. cbn [fmap list_fmap snd] in Hm.
  apply Forall2_cons_1 in Hm as [H1 Hm].
  apply Forall2_cons_1 in Hm as [H2 Hm].
  apply Forall2_cons_1 in Hm as [H3 _].
  apply reify_TArr_inv in H1 as (? & l1 & xs1 & [= <-] & -> & Hl1 & Hm1).
  apply reify_TArr_inv in H2 as (? & l2 & xs2 & [= <-] & -> & Hl2 & Hm2).
  pose proof H3 as H3'.
  apply reify_TObj_inv in H3' as (? & l3 & ps3 & [= <-] & -> & Hl3 & Hk3 & Hm3).
  unfold importData, Get, getv, spread_array, spread_object.
  rewrite Hl. cbn. rewrite Hl1, Hl2, Hl3. cbn.
  match goal with
  | |- context [render_keys ?h ?t] => assert (render_keys h t = Ok tt) as ->
  end.
  { unfold render_keys. cbn.
    rewrite (join_keys_identified n _ xs1 ts); [|by apply mapM_reify_app|done].
    by rewrite (join_keys_identified n _ xs2 es); [|by apply mapM_reify_app|done]. }
  eexists _, _. split; [reflexivity|].
  unfold state_tree. cbn.
  rewrite (mapM_reify_app _ _ _ _ _ Hm1), (mapM_reify_app _ _ _ _ _ Hm2).
  assert (reify (S n) (store w ++ [ORecord ps3]) (VRef (length (store w)))
          = Some (TObj rm)) as Hnew.
  { rewrite reify_ref, list_lookup_middle by done. cbn [slots].
    rewrite (mapM_reify_app _ _ _ _ _ Hm3). by rewrite Hk3, zip_fst_snd. }
  by rewrite (reify_lower _ _ _ _ _ Hnew Hd).
Qed.
End ImportString.

Section RoundTrips.
Context {P : Platform} {Laws : PlatformLaws P}.
Import D3Timeline.

Lemma state_tree_inv n h this ts es r :
  state_tree n h this = Some (ts, es, r) ->
  mapM (reify n h) (timelines this) = Some ts /\
  mapM (reify n h) (events this) = Some es /\
  reify n h (timeRange this) = Some r.
Proof.
  unfold state_tree.
  destruct (mapM _ (timelines this)); [|done].
  destruct (mapM _ (events this)); [|done].
  destruct (reify _ _ (timeRange this)); [|done].
  by intros [= -> -> ->].
Qed.

(** Printing a value and parsing the text gives a value that reads as
    the first did, whatever the date format. *)
Lemma deepClone_reads s n v h t :
  reify n h v = Some t -> plain t = true ->
  t <> TUndefined -> is_TDate t = false ->
  exists v' h',
    JSONSerializer.deepClone s n v h = Some (Ok v', h') /\
    reify n h' v' = Some (prune t).
Proof.
  intros Hr Hp Hu Hd.
  apply (reify_print (JSONSerializer.dateFormat s)) in Hr.
  destruct (decode_encode_slot (JSONSerializer.dateFormat s) t Hp)
    as [[-> _]|(_ & doc & Hdoc & Hdec)]; [done|].
  rewrite encode_slot_dateless in Hdoc by done. rewrite Hdoc in Hr.
  destruct (Ser_prints s _ _ _ _ Hr) as (h1 & Hser).
  destruct (Internalize_spec s doc h1) as (news & Hsnd & Hread).
  unfold JSONSerializer.deepClone. rewrite stringify_eq, Hser. cbn.
  unfold JSONSerializer.parse, JSON_parse.
  destruct (Internalize _ doc h1) as [v' h'] eqn:HI. cbn in Hsnd, Hread. subst h'.
  exists v', (h1 ++ news). split; [done|].
  rewrite <- Hdec. apply Hread. by apply (print_depth _ _ _ _ _ Hr).
Qed.
End RoundTrips.

Section Claims.
Context {P : Platform}.
Import D3Timeline.

End Claims.

Section ClaimsRoundTrip.
Context {P : Platform} {Laws : PlatformLaws P}.
Import D3Timeline.

End ClaimsRoundTrip.

(** * Further properties *)

(** ** Event handlers *)
Section Handlers.
Import D3Timeline.

Lemma EventBindings_get_set ty hs b :
  EventBindings.get ty (EventBindings.set ty hs b) = hs.
Proof. by destruct ty. Qed.

Lemma EventBindings_get_set_other ty ty' hs b :
  ty' <> ty -> EventBindings.get ty' (EventBindings.set ty hs b) = EventBindings.get ty' b.
Proof. by destruct ty, ty'. Qed.

Lemma EventBindings_set_get ty b : EventBindings.set ty (EventBindings.get ty b) b = b.
Proof. by destruct ty, b. Qed.

Lemma Set_delete_absent x s : x ∉ s -> Set_delete x s = s.
Proof.
  unfold Set_delete. induction s as [|y s IH]; [done|].
  intros [Hne Hs]%not_elem_of_cons. cbn.
  rewrite bool_decide_eq_false_2 by congruence. cbn. by rewrite IH.
Qed.

Lemma Set_delete_add x s : x ∉ s -> Set_delete x (s ++ [x]) = s.
Proof.
  intros Hs. unfold Set_delete. rewrite List.filter_app. cbn.
  rewrite bool_decide_eq_true_2 by done. cbn. rewrite app_nil_r.
  by apply Set_delete_absent.
Qed.

Lemma elem_of_Set_delete y x s : y ∈ Set_delete x s <-> y ∈ s /\ y <> x.
Proof.
  unfold Set_delete. rewrite !list_elem_of_In, filter_In, negb_true_iff.
  by rewrite bool_decide_eq_false.
Qed.

Lemma emit_on ty handler b :
  emit ty (on ty handler b)
  = if bool_decide (handler ∈ emit ty b) then emit ty b else emit ty b ++ [handler].
Proof.
  unfold emit, on, Set_has, Set_add. case_bool_decide; cbn [negb]; [done|].
  by rewrite EventBindings_get_set.
Qed.

Lemma emit_off ty handler b : emit ty (off ty handler b) = Set_delete handler (emit ty b).
Proof. unfold emit, off. by rewrite EventBindings_get_set. Qed.

Lemma on_idem ty handler b : on ty handler (on ty handler b) = on ty handler b.
Proof.
  unfold on, Set_has, Set_add.
  destruct (decide (handler ∈ EventBindings.get ty b)) as [Hin|Hout].
  - rewrite !(bool_decide_eq_true_2 _ Hin). cbn [negb].
    by rewrite ?(bool_decide_eq_true_2 _ Hin).
  - rewrite !(bool_decide_eq_false_2 _ Hout). cbn [negb].
    rewrite !EventBindings_get_set.
    rewrite bool_decide_eq_true_2; [done|].
    apply elem_of_app. right. by apply list_elem_of_singleton.
Qed.

(** X1. The handlers of an event type form a set kept in registration
    order: [on] registers a handler once however often it is called,
    [off] takes it out and leaves the others in their order, one after
    the other gives back the bindings there were, and neither touches
    the handlers of another event type.  [emit] calls exactly the
    registered handlers. *)
Theorem on_off_keep_a_set ty handler b :
  (NoDup (emit ty b) -> NoDup (emit ty (on ty handler b))) /\
  handler ∈ emit ty (on ty handler b) /\
  on ty handler (on ty handler b) = on ty handler b /\
  (forall other, other ∈ emit ty (on ty handler b) <-> other = handler \/ other ∈ emit ty b) /\
  (forall other, other ∈ emit ty (off ty handler b) <-> other ∈ emit ty b /\ other <> handler) /\
  sublist (emit ty (off ty handler b)) (emit ty b) /\
  (handler ∉ emit ty b -> off ty handler (on ty handler b) = b) /\
  (forall ty', ty' <> ty ->
     emit ty' (on ty handler b) = emit ty' b /\ emit ty' (off ty handler b) = emit ty' b).
Proof.
  split; [|split; [|split; [|split; [|split; [|split; [|split]]]]]].
  - rewrite emit_on. case_bool_decide; [done|]. intros Hnd.
    apply NoDup_app. split; [done|]. split; [|apply NoDup_singleton].
    intros x Hx ->%list_elem_of_singleton. done.
  - rewrite emit_on. case_bool_decide; [done|].
    apply elem_of_app. right. by apply list_elem_of_singleton.
  - apply on_idem.
  - intros other. rewrite emit_on. case_bool_decide as Hb.
    + split; [by right|]. by intros [->|].
    + rewrite elem_of_app, list_elem_of_singleton. tauto.
  - intros other. rewrite emit_off. apply elem_of_Set_delete.
  - rewrite emit_off. apply filter_sublist.
  - intros Hout. unfold off. fold (emit ty (on ty handler b)). rewrite emit_on.
    rewrite bool_decide_eq_false_2 by done. rewrite Set_delete_add by done.
    unfold on, Set_has. fold (emit ty b). rewrite bool_decide_eq_false_2 by done.
    cbn [negb]. unfold emit. destruct ty, b; reflexivity.
  - intros ty' Hne. unfold emit, on, off. split.
    + destruct (negb _); [|done]. by rewrite EventBindings_get_set_other.
    + by rewrite EventBindings_get_set_other.
Qed.
End Handlers.

(** ** Batches of timelines and the height of the chart *)
Section TimelinesMore.
Context {P : Platform}.
Import D3Timeline.

Lemma resize_set_timelines_resize ts this :
  resize (set_timelines ts (resize this)) = resize (set_timelines ts this).
Proof.
  destruct this as [lg ct op tls evs tr vis se]. destruct op.
  unfold resize, set_timelines, set_options, calculateHeight; cbn.
  destruct (HTMLElement.clientWidth ct =? 0)%Z; reflexivity.
Qed.

Lemma addTimeline_calls_map_configs autofit configs : forall this w,
  addTimeline_calls (call_of autofit <$> configs) this w
  = (fst (map_configs configs w),
     batch_result autofit configs (fst (map_configs configs w)) this,
     snd (map_configs configs w)).
Proof.
  induction configs as [|c cs IH]; intros this w; [reflexivity|].
  cbn [fmap list_fmap addTimeline_calls map_configs].
  unfold addTimeline, call_of. cbn [AddTimelineCall.name AddTimelineCall.color
    AddTimelineCall.id AddTimelineCall.autofit].
  destruct (match TimelineConfig.id c with
            | Some i => (of_ID i, w)
            | None => fresh_id w
            end) as [tid w0].
  destruct (new_object _ w0) as [tl w1] eqn:Hnew.
  fold (call_of autofit). rewrite IH.
  destruct (map_configs cs w1) as [added w2] eqn:Hmc. cbn [fst snd].
  f_equal. f_equal. unfold batch_result.
  destruct cs as [|c' cs'].
  - cbn in Hmc. injection Hmc as <- <-. reflexivity.
  - destruct (default true autofit).
    + cbn [timelines resize set_options set_timelines].
      rewrite resize_set_timelines_resize. cbn [set_timelines timelines].
      by rewrite <- app_assoc.
    + cbn [set_timelines timelines]. by rewrite <- app_assoc.
Qed.

Lemma addTimelines_cons c cs autofit this w :
  addTimelines (c :: cs) autofit this w
  = addTimeline_calls (call_of autofit <$> (c :: cs)) this w.
Proof.
  rewrite addTimeline_calls_map_configs. unfold addTimelines, batch_result.
  destruct (map_configs (c :: cs) w) as [added w']. reflexivity.
Qed.

(** X2. [addTimelines] on an empty array does nothing, not even the
    resize; on any other it leaves the instance and the store as the
    successive [addTimeline] calls with the same [autofit] do, and
    returns the timelines they return. *)
Theorem addTimelines_as_successive_calls :
  (forall autofit this w, addTimelines [] autofit this w = ([], this, w)) /\
  (forall c cs autofit this w,
     addTimelines (c :: cs) autofit this w
     = addTimeline_calls (call_of autofit <$> (c :: cs)) this w).
Proof. split; [reflexivity | exact addTimelines_cons]. Qed.

Lemma inner_height_resize this :
  getTimelineInnerHeight (Some true) (resize this)
  = Some (Z.of_nat (length (timelines this)) * row this)%Z.
Proof.
  destruct this as [lg ct op tls evs tr vis se]. destruct op as [? ? ? [? ? ? ?] ? ? ? ? ? ? ? ?].
  unfold getTimelineInnerHeight, resize, row, calculateHeight, set_options; cbn.
  f_equal. lia.
Qed.

(** X3. After [resize] the chart is as high as its timelines need: the
    inner height without the axis is the number of timelines times the
    height of a row.  [addTimeline], [addTimelines] and
    [removeTimeline] resize, so it follows the timelines they leave. *)
Theorem chart_height_follows_timelines :
  (forall this,
     getTimelineInnerHeight (Some true) (resize this)
     = Some (Z.of_nat (length (timelines this)) * row this)%Z) /\
  (forall name color id this w,
     let this' := snd (fst (addTimeline name color id None this w)) in
     length (timelines this') = S (length (timelines this)) /\
     getTimelineInnerHeight (Some true) this'
     = Some (Z.of_nat (length (timelines this')) * row this)%Z) /\
  (forall c cs this w,
     let this' := snd (fst (addTimelines (c :: cs) None this w)) in
     length (timelines this') = length (timelines this) + S (length cs) /\
     getTimelineInnerHeight (Some true) this'
     = Some (Z.of_nat (length (timelines this')) * row this)%Z) /\
  (forall id this w,
     let this' := fst (removeTimeline id this w) in
     getTimelineInnerHeight (Some true) this'
     = Some (Z.of_nat (length (timelines this')) * row this)%Z).
Proof.
  split; [exact inner_height_resize|]. split; [|split].
  - intros name color id this w. unfold addTimeline.
    destruct (match id with Some i => (of_ID i, w) | None => fresh_id w end) as [tid w0].
    destruct (new_object _ w0) as [tl w1]. cbn [default fst snd]. cbv zeta.
    rewrite inner_height_resize. cbn [resize set_options timelines set_timelines].
    rewrite length_app. cbn [length]. split; [lia|reflexivity].
  - intros c cs this w. cbv zeta.
    pose proof (addTimeline_calls_spec (call_of None <$> (c :: cs)) this w) as Hs.
    cbv zeta in Hs. destruct Hs as (_ & Hl & _).
    rewrite addTimeline_calls_map_configs in Hl. cbn [fst] in Hl.
    rewrite length_fmap in Hl. cbn [length] in Hl.
    unfold addTimelines. destruct (map_configs (c :: cs) w) as [added w'].
    cbn [default fst snd] in *. rewrite inner_height_resize.
    cbn [resize set_options timelines set_timelines].
    rewrite !length_app, Hl. split; reflexivity.
  - intros id this w. cbv zeta. unfold removeTimeline. cbn [fst].
    rewrite inner_height_resize. reflexivity.
Qed.
End TimelinesMore.

(** ** Where the timelines are drawn *)
Section Rows.
Import D3Timeline.

Lemma indexOf_lookup l : forall i x,
  NoDup l -> l !! i = Some x -> indexOf x l = Z.of_nat i.
Proof.
  induction l as [|a l IH]; intros i x Hnd Hl; [done|].
  apply NoDup_cons in Hnd as [Ha Hnd].
  destruct i as [|i]; cbn in Hl.
  - injection Hl as ->. cbn. by rewrite strict_eq_refl.
  - assert (a <> x) as Hne.
    { intros ->. apply Ha. by eapply list_elem_of_lookup_2. }
    cbn [indexOf]. rewrite (proj2 (strict_eq_false a x) Hne).
    rewrite (IH i x Hnd Hl).
    destruct (Z.ltb_spec (Z.of_nat i) 0); lia.
Qed.

(** X4. The timelines are stacked from the bottom up, one row apart: the
    timeline at position [i] of [N] is drawn [N - 1 - i] rows below the
    top margin, so the last one added is at the top margin; and with
    the height [resize] computes every row lies above the axis. *)
Theorem timeline_rows_stack this i tl :
  NoDup (timelines this) ->
  timelines this !! i = Some tl ->
  calculateTimelineOffsetY this (Some tl)
  = (Margin.top (Options.margin (options this)) +
     (Z.of_nat (length (timelines this)) - 1 - Z.of_nat i) * row this)%Z /\
  ((0 <= row this)%Z ->
   exists height,
     Options.height (options (resize this)) = Some height /\
     (Margin.top (Options.margin (options this)) <= calculateTimelineOffsetY this (Some tl) /\
      calculateTimelineOffsetY this (Some tl) + row this
      <= height -
         Margin.bottom (Options.margin (options this)) -
         Options.axisHeight (options this))%Z).
Proof.
  intros Hnd Hl. pose proof (lookup_lt_Some _ _ _ Hl) as Hlt.
  unfold calculateTimelineOffsetY. rewrite (indexOf_lookup _ _ _ Hnd Hl).
  unfold row.
  set (R1 := (Options.timelineHeight (options this) +
              Options.timelineSpacing (options this))%Z).
  set (R2 := (Options.timelineSpacing (options this) +
              Options.timelineHeight (options this))%Z).
  assert (R1 = R2) as -> by (unfold R1, R2; lia).
  split; [lia|]. intros HR.
  assert (Options.height (options (resize this))
          = Some (Margin.top (Options.margin (options this)) +
                  Margin.bottom (Options.margin (options this)) +
                  Options.axisHeight (options this) +
                  Z.of_nat (length (timelines this)) * R2)%Z) as ->.
  { destruct this as [lg ct op tls evs tr vis se].
    destruct op as [? ? ? [? ? ? ?] ? ? ? ? ? ? ? ?]. reflexivity. }
  eexists. split; [reflexivity|]. nia.
Qed.
End Rows.

(** ** Adding and removing events *)
Section EventsMore.
Context {P : Platform}.
Import D3Timeline.

Lemma In_filter_id h (id : Z) l e :
  In e (List.filter (fun e => negb (strict_eq (getv h e "id") (VNum id))) l)
  <-> In e l /\ getv h e "id" <> VNum id.
Proof.
  rewrite filter_In, negb_true_iff. by rewrite strict_eq_false.
Qed.

Lemma filter_all {A} (f : A -> bool) l :
  (forall x, In x l -> f x = true) -> List.filter f l = l.
Proof.
  induction l as [|a l IH]; [done|]. intros H. cbn.
  rewrite (H a) by (by left). f_equal. apply IH. intros x Hx. apply H. by right.
Qed.

Lemma filter_twice {A} (f : A -> bool) l :
  List.filter f (List.filter f l) = List.filter f l.
Proof.
  induction l as [|a l IH]; [done|]. cbn. destruct (f a) eqn:E; [|done].
  cbn. by rewrite E, IH.
Qed.

Lemma addEvent_events event tid autofit this w :
  let r := addEvent event tid autofit this w in
  events (snd (fst r)) = events this \/
  (exists o, events (snd (fst r)) = events this ++ [VRef (length (store w))] /\
             store (snd r) = store w ++ [ORecord o] /\
             getv (store (snd r)) (VRef (length (store w))) "id"
             = match PartialEventData.id event with
               | Some i => of_ID i
               | None => of_ID (generateID (ids w))
               end).
Proof.
  cbv zeta. unfold addEvent.
  destruct (find_timeline _ _ _) as [tl|]; [|by left].
  destruct (negb _); [by left|]. right.
  unfold make_eventData.
  destruct (PartialEventData.id event) as [i|];
    destruct (PartialEventData.startTime event) as [s|];
    destruct (PartialEventData.endTime event) as [e|]; cbn;
    (eexists; split; [by destruct (default true autofit)|]; split; [reflexivity|]);
    unfold getv; rewrite list_lookup_middle by done; reflexivity.
Qed.

(** X5. [removeEvent] drops the events with the given (numeric)
    identifier, keeps the others in their order and touches neither
    the timelines nor the store; doing it twice changes nothing more;
    and it undoes an [addEvent] whose event carries that identifier,
    when no event had it before. *)
Theorem removeEvent_removes_by_id :
  (forall id this w,
     let r := removeEvent id this w in
     snd r = w /\ timelines (fst r) = timelines this /\
     (forall e, In e (events (fst r)) <->
                In e (events this) /\ getv (store w) e "id" <> VNum id) /\
     sublist (events (fst r)) (events this) /\
     removeEvent id (fst r) w = r) /\
  (forall n event tid autofit this w,
     events_have_ids (store w) this ->
     (forall e, In e (events this) -> getv (store w) e "id" <> VNum n) ->
     PartialEventData.id event = Some (IDNum n) ->
     let r := addEvent event tid autofit this w in
     events (fst (removeEvent n (snd (fst r)) (snd r))) = events this).
Proof.
  split.
  - intros id this w. cbv zeta. unfold removeEvent, render. cbn [fst snd events timelines set_events].
    split; [done|]. split; [done|]. split; [intros e; apply In_filter_id|].
    split; [apply filter_sublist|].
    unfold set_events. cbn. by rewrite filter_twice.
  - intros n event tid autofit this w Hids Hfresh Hid. cbv zeta.
    assert (forall hs e, In e (events this) ->
              negb (strict_eq (getv (store w ++ hs) e "id") (VNum n)) = true) as Hkeep.
    { intros hs e He. apply negb_true_iff, strict_eq_false.
      unfold events_have_ids in Hids. rewrite Forall_forall in Hids.
      destruct (Hids e) as [i Hi]; [by apply list_elem_of_In|].
      rewrite getv_app; [by apply Hfresh|]. rewrite Hi. apply of_ID_defined. }
    destruct (addEvent_events event tid autofit this w) as [He|(o & He & Hs & Hi)];
      unfold removeEvent, render; cbn [fst events set_events]; rewrite He.
    + assert (exists hs, store (snd (addEvent event tid autofit this w)) = store w ++ hs)
        as [hs ->].
      { unfold addEvent. destruct (find_timeline _ _ _) as [tl|]; [|exists []; by rewrite app_nil_r].
        destruct (negb _); [exists []; by rewrite app_nil_r|].
        destruct (make_eventData_spec event
                    (nullish (of_optional of_ID tid)
                       (of_optional of_ID (PartialEventData.timelineId event))) tl w)
          as (o & H1 & H2 & _). rewrite H1. cbn. eauto. }
      apply filter_all. intros e Hin. by apply Hkeep.
    + rewrite List.filter_app. cbn [List.filter]. rewrite Hi, Hid. cbn [of_ID].
      rewrite strict_eq_refl. cbn [negb]. rewrite app_nil_r. rewrite Hs.
      apply filter_all. intros e Hin. by apply Hkeep.
Qed.
End EventsMore.

(** ** Batches of events *)
Section BatchEvents.
Context {P : Platform}.
Import D3Timeline.

Lemma map_events_length tid this events_ : forall w vs w',
  map_events (addEvents_item tid this) events_ w = (Ok vs, w') ->
  length vs = length events_.
Proof.
  induction events_ as [|e rest IH]; intros w vs w'; cbn.
  - by intros [= <- <-].
  - destruct (addEvents_item tid this e w) as [[v|x] w1]; [|discriminate].
    destruct (map_events _ rest w1) as [[vs'|x] w2] eqn:Hm; [|discriminate].
    intros [= <- <-]. cbn. f_equal. by eapply IH.
Qed.



End BatchEvents.

(** ** Deep equality and cloning *)
Section DeepEqual.
Context {P : Platform}.

Lemma json_eqb_refl j : json_eqb j j = true.
Proof.
  induction j as [ | b | n | x | items IH | ms IH] using json_ind'; cbn.
  - done.
  - by destruct b.
  - apply Z.eqb_refl.
  - apply String.eqb_refl.
  - induction IH as [|a items Ha _ IHl]; [done|]. by rewrite Ha, IHl.
  - induction IH as [|[k a] ms Ha _ IHl]; [done|]. cbn in Ha.
    by rewrite String.eqb_refl, Ha, IHl.
Qed.

Lemma text_eqb_Rendered space doc : text_eqb (Rendered space doc) (Rendered space doc) = true.
Proof. cbn. by rewrite Z.eqb_refl, json_eqb_refl. Qed.

Variable s : JSONSerializer.t.

(** What is printed for a value does not change when [stringify] has
    been over the store. *)
Lemma print_evolves n h h' v r :
  evolves s h h' ->
  print (JSONSerializer.dateFormat s) n h v = Some r ->
  print (JSONSerializer.dateFormat s) n h' v = Some r.
Proof.
  intros He Hp. destruct (is_Date v) eqn:Hd.
  - destruct v; try discriminate. destruct n; exact Hp.
  - rewrite <- (print_slot_dateless _ n h' v Hd).
    eapply print_slot_evolves; [exact He|apply slot_evolves_refl|].
    by rewrite print_slot_dateless.
Qed.

Lemma deepEqual_prints n a b h r :
  print (JSONSerializer.dateFormat s) n h a = Some r ->
  print (JSONSerializer.dateFormat s) n h b = Some r ->
  exists h', JSONSerializer.deepEqual s n a b h = Some (true, h').
Proof.
  intros Ha Hb.
  destruct (Ser_prints s _ _ _ _ Ha) as (h1 & Hs1).
  pose proof (Ser_evolves s _ _ _ _ _ Hs1) as He1.
  destruct (Ser_prints s _ _ _ _ (print_evolves _ _ _ _ _ He1 Hb)) as (h2 & Hs2).
  exists h2. unfold JSONSerializer.deepEqual.
  rewrite stringify_eq, Hs1. cbv beta iota. rewrite stringify_eq, Hs2. cbv beta iota.
  destruct r as [doc|]; cbn [fmap option_fmap option_map]; [|done].
  by rewrite text_eqb_Rendered.
Qed.


End DeepEqual.

Section DeepClone.
Context {P : Platform} {Laws : PlatformLaws P}.
Variable s : JSONSerializer.t.

End DeepClone.

Section Dateless.
Context {P : Platform}.
Variable s : JSONSerializer.t.

Lemma rewritten_dateless h' xs vs :
  Forall2 (rewritten s h') xs vs ->
  forallb (fun v => negb (is_Date v)) xs = true -> vs = xs.
Proof.
  induction 1 as [|x v xs vs Hxv _ IH]; [done|].
  cbn. intros [Hx Hxs]%andb_prop. f_equal; [|by apply IH].
  destruct x; try done.
Qed.

Lemma stringify_returns n value h t :
  reify n h value = Some t ->
  exists r h', JSONSerializer.stringify s n value h = Some (r, h').
Proof.
  intros Hr. apply (reify_print (JSONSerializer.dateFormat s)) in Hr.
  destruct (Ser_prints s _ _ _ _ Hr) as (h' & Hser).
  eexists _, h'. by rewrite stringify_eq, Hser.
Qed.

(** X12. [stringify] leaves as it was every object it goes through that
    holds no [Date]: the timelines of an exported instance, for example. *)
Theorem stringify_keeps_dateless_objects n value h r h' l o :
  JSONSerializer.stringify s n value h = Some (r, h') ->
  reachable h value l -> h !! l = Some o ->
  forallb (fun v => negb (is_Date v)) (slots o) = true ->
  h' !! l = Some o.
Proof.
  rewrite stringify_eq. intros Hs Hreach Hl Hd.
  destruct (SerializeJSONProperty _ n value h) as [[r0 h0]|] eqn:Hser; [|done].
  injection Hs as _ <-.
  destruct (Ser_rewrites s _ _ _ _ _ l o Hser Hreach Hl) as (vs & Hl' & HF).
  rewrite Hl'. rewrite (rewritten_dateless _ _ _ HF Hd). by rewrite with_slots_slots.
Qed.
End Dateless.

(** ** The shape of the connectors *)
Section Segments.
Import D3Timeline.

(** X14. Whatever the path type, a segment ends at its end point, so the
    pieces of a connector join up.  The [magnet] segment, and the [grid]
    segment between two points at least [5] apart in height, are made
    of horizontal and vertical strokes; between points closer than
    that the [grid] segment is the straight line. *)
Theorem path_segment_shapes start end_ :
  (forall pathType,
     end_of <$> last (generatePathSegment start end_ pathType) = Some (point_xy end_)) /\
  strokes_axis_parallel (point_xy start) (generatePathSegment start end_ magnet) /\
  ((5 <= Qabs (Point.y start - Point.y end_))%Q ->
   strokes_axis_parallel (point_xy start) (generatePathSegment start end_ grid)) /\
  ((Qabs (Point.y start - Point.y end_) < 5)%Q ->
   generatePathSegment start end_ grid = generatePathSegment start end_ straight).
Proof.
  split; [intros ty; apply segment_ends|]. split; [|split].
  - cbn. repeat split; (by left) || (by right).
  - intros H5. unfold generatePathSegment.
    destruct (Qlt_le_dec _ 5) as [Hlt|_].
    + exfalso. eapply Qlt_not_le; [exact Hlt|exact H5].
    + cbn. repeat split; (by left) || (by right).
  - intros Hlt. unfold generatePathSegment.
    destruct (Qlt_le_dec _ 5) as [_|Hle]; [done|].
    exfalso. eapply Qlt_not_le; [exact Hlt|exact Hle].
Qed.
End Segments.

Section ConnectorOrder.
Import D3Timeline.
Variable xScale : val -> Q.

Lemma with_index_sort_insert h k e l :
  with_index h k (sort_insert h e l)
  = if (stage_index h e =? k)%Z then e :: with_index h k l else with_index h k l.
Proof.
  unfold with_index. induction l as [|x l IH]; [done|].
  cbn [sort_insert]. destruct (Z.leb_spec (stage_index h e) (stage_index h x)) as [Hle|Hgt].
  - reflexivity.
  - cbn [List.filter]. rewrite IH.
    destruct (Z.eqb_spec (stage_index h e) k) as [He|He];
      destruct (Z.eqb_spec (stage_index h x) k) as [Hx|Hx]; try done. lia.
Qed.

(** The sort of [renderStageLines] is stable. *)
Lemma with_index_sort_by_index h k l :
  with_index h k (sort_by_index h l) = with_index h k l.
Proof.
  induction l as [|e l IH]; [done|].
  cbn [sort_by_index fold_right]. fold (sort_by_index h l).
  rewrite with_index_sort_insert, IH. reflexivity.
Qed.

Lemma adjacent_pairs_length (ps : list Point.t) :
  length (adjacent_pairs ps) = length ps - 1.
Proof.
  induction ps as [|a [|b ps] IH]; [done..|].
  cbn [adjacent_pairs length] in *. lia.
Qed.

Lemma drawn_for_stage this h dom stageId :
  stageLinesVisible this = true ->
  drawn_for stageId (renderStageLines xScale this h dom)
  = match render_stage xScale this h (stageId, stage_members h (events this) stageId) with
    | Some g => [g]
    | None => []
    end.
Proof.
  intros Hvis. destruct (stageGroups_grouped h (events this)) as (Hnd & Hm & Hk).
  unfold renderStageLines. rewrite Hvis. cbn [negb].
  destruct (decide (stageId ∈ map fst (stageGroups h (events this)))) as [Hin|Hin].
  - by rewrite drawn_for_omap, Hm.
  - rewrite drawn_for_absent by done.
    destruct (stage_members h (events this) stageId) eqn:E; [done|].
    exfalso. apply Hin, Hk. by rewrite E.
Qed.

(** X15. The connector of a stage joins its events in ascending order of
    stage index, events of equal index in the order they were added;
    when the [arrow] option is on it carries one arrow per pair of
    neighbours, else none. *)
Theorem stage_connector_order_and_arrows this h dom stageId :
  stageLinesVisible this = true ->
  let members := stage_members h (events this) stageId in
  2 <= length members ->
  exists g,
    drawn_for stageId (renderStageLines xScale this h dom) = [g] /\
    anchors (StageLine.d g)
    = map point_xy (map (stage_point xScale this h) (sort_by_index h members)) /\
    ascending h (sort_by_index h members) /\
    (forall k, with_index h k (sort_by_index h members) = with_index h k members) /\
    StageLine.arrows g
    = (if StageLineParams.arrow (Options.stageLineParams (options this))
       then adjacent_pairs (map (stage_point xScale this h) (sort_by_index h members))
       else []) /\
    length (StageLine.arrows g)
    = if StageLineParams.arrow (Options.stageLineParams (options this))
      then length members - 1 else 0.
Proof.
  intros Hvis members H2. rewrite (drawn_for_stage _ _ _ _ Hvis). fold members.
  rewrite render_stage_spec. destruct (Nat.ltb_spec (length members) 2); [lia|].
  eexists. split; [reflexivity|]. cbn [StageLine.d StageLine.arrows].
  pose proof (sort_by_index_length h members) as Hl.
  split.
  { destruct (sort_by_index h members) as [|a [|b l]]; cbn [length] in Hl; try lia.
    cbn [map]. by rewrite anchors_pathData. }
  split; [apply sort_by_index_sorted|]. split; [intros k; apply with_index_sort_by_index|].
  split; [reflexivity|].
  destruct (StageLineParams.arrow _); [|reflexivity].
  by rewrite adjacent_pairs_length, length_map, Hl.
Qed.
End ConnectorOrder.

(** ** Export and import without the serializer *)
Section ExportObjects.
Context {P : Platform}.
Import D3Timeline.

(** X13. [importData(exportData())], the timelines and events of the
    exporting instance carrying their identifiers: the importing
    instance gets the very timeline and event objects of the exporting
    one (the arrays are copied, their elements are not), and a time
    range object of its own with the same properties. *)
Theorem importData_of_exportData this that w l ps :
  timelines_have_ids (store w) this ->
  events_have_ids (store w) this ->
  timeRange this = VRef l ->
  store w !! l = Some (ORecord ps) ->
  exists that' w2,
    importData (fst (exportData this w)) that (snd (exportData this w))
    = (Ok true, that', w2) /\
    timelines that' = timelines this /\
    events that' = events this /\
    timeRange that' <> timeRange this /\
    store w2 !! l = Some (ORecord ps) /\
    forall k, getv (store w2) (timeRange that') k = getv (store w) (timeRange this) k.
Proof.
  intros Hti Hei Htr Hl. rewrite exportData_eq. cbn [fst snd store with_store].
  set (h := store w) in *. set (h' := h ++ exported this h).
  assert (h' !! length h = Some (OArray (timelines this))) as H0.
  { unfold h', exported. by rewrite list_lookup_middle. }
  assert (h' !! (length h + 1) = Some (OArray (events this))) as H1.
  { unfold h'. rewrite lookup_app_r by lia.
    by replace (length h + 1 - length h) with 1 by lia. }
  assert (h' !! (length h + 2) = Some (ORecord ps)) as H2.
  { unfold h'. rewrite lookup_app_r by lia.
    replace (length h + 2 - length h) with 2 by lia. cbn.
    rewrite Htr. cbn. by rewrite (lookup_app_l_Some _ _ _ _ Hl). }
  assert (h' !! (length h + 3)
          = Some (ORecord [("timelines", VRef (length h));
                           ("events", VRef (length h + 1));
                           ("timeRange", VRef (length h + 2))])) as H3.
  { unfold h'. rewrite lookup_app_r by lia.
    by replace (length h + 3 - length h) with 3 by lia. }
  assert (length h' = length h + 4) as Hlen.
  { unfold h'. rewrite length_app. reflexivity. }
  pose proof (lookup_lt_Some _ _ _ Hl) as Hlt.
  assert (Get h' (VRef (length h + 3)) "timelines" = Ok (VRef (length h))) as G1
    by (unfold Get, getv; rewrite H3; reflexivity).
  assert (Get h' (VRef (length h + 3)) "events" = Ok (VRef (length h + 1))) as G2
    by (unfold Get, getv; rewrite H3; reflexivity).
  assert (Get h' (VRef (length h + 3)) "timeRange" = Ok (VRef (length h + 2))) as G3
    by (unfold Get, getv; rewrite H3; reflexivity).
  assert (spread_array h' (VRef (length h)) = Ok (timelines this)) as S1
    by (unfold spread_array; rewrite H0; reflexivity).
  assert (spread_array h' (VRef (length h + 1)) = Ok (events this)) as S2
    by (unfold spread_array; rewrite H1; reflexivity).
  assert (spread_object h' (VRef (length h + 2)) = ps) as S3
    by (unfold spread_object; rewrite H2; reflexivity).
  unfold importData. cbn [store with_store].
  rewrite G1, S1, G2, S2, G3, S3. cbn [new_object alloc store with_store].
  match goal with
  | |- context [render_keys ?h ?t] => assert (render_keys h t = Ok tt) as ->
  end.
  { unfold render_keys, h'. rewrite <- app_assoc.
    cbn [resize set_options timelines events set_timeRange set_events set_timelines].
    rewrite (join_keys_have_ids _ _ _ Hti). exact (join_keys_have_ids _ _ _ Hei). }
  eexists _, _. split; [reflexivity|].
  cbn [resize set_options timelines events timeRange set_timeRange set_events
       set_timelines store with_store].
  split; [done|]. split; [done|]. split; [rewrite Htr; intros [= E]; lia|].
  split.
  { apply lookup_app_l_Some. unfold h'. by apply lookup_app_l_Some. }
  intros k. rewrite Htr. unfold getv. rewrite list_lookup_middle by done.
  fold h. by rewrite Hl.
Qed.
End ExportObjects.

(** ** Events and the timelines they name *)
Section Attached.
Context {P : Platform}.
Import D3Timeline.

Lemma belongs_app h hs this e :
  timelines_have_ids h this -> belongs h this e -> belongs (h ++ hs) this e.
Proof.
  intros Hids (tl & Hin & Hid & Hne). exists tl. split; [done|].
  unfold timelines_have_ids in Hids. rewrite Forall_forall in Hids.
  destruct (Hids tl Hin) as [i Hi].
  rewrite !getv_app; [done|done|]. rewrite Hi. apply of_ID_defined.
Qed.

Lemma consistent_app h hs this : consistent h this -> consistent (h ++ hs) this.
Proof.
  intros [Hids Hatt]. split; [by apply timelines_have_ids_app|].
  eapply Forall_impl; [exact Hatt|]. intros e He. by apply belongs_app.
Qed.

Lemma consistent_resize h this : consistent h this -> consistent h (resize this).
Proof. done. Qed.

Lemma consistent_more_timelines h this tls :
  consistent h this ->
  Forall (fun tl => exists i : ID, getv h tl "id" = of_ID i) tls ->
  consistent h (set_timelines (timelines this ++ tls) this).
Proof.
  intros [Hids Hatt] Hnew. split.
  - unfold timelines_have_ids. cbn. by apply Forall_app.
  - unfold attached. cbn. eapply Forall_impl; [exact Hatt|].
    intros e (tl & Hin & H). exists tl. split; [|done]. cbn.
    apply elem_of_app. by left.
Qed.

Lemma consistent_addTimeline name color id autofit this w :
  consistent (store w) this ->
  consistent (store (snd (addTimeline name color id autofit this w)))
             (snd (fst (addTimeline name color id autofit this w))).
Proof.
  intros Hc. unfold addTimeline.
  destruct (match id with Some i => (of_ID i, w) | None => fresh_id w end)
    as [tid w0] eqn:Hid.
  assert (store w0 = store w /\ exists i : ID, tid = of_ID i) as [Hs [i ->]].
  { destruct id as [i|]; injection Hid as <- <-; split; eauto. }
  cbn [new_object alloc fst snd store with_store]. rewrite Hs.
  assert (consistent (store w ++ [ORecord [("id", of_ID i); ("name", VStr name);
                                          ("color", VStr (default "#667eea" color))]])
            (set_timelines (timelines this ++ [VRef (length (store w))]) this)) as H.
  { apply consistent_more_timelines; [by apply consistent_app|].
    constructor; [|constructor]. exists i. unfold getv.
    by rewrite list_lookup_middle. }
  by destruct (default true autofit).
Qed.

Lemma consistent_addTimeline_calls calls : forall this w,
  consistent (store w) this ->
  consistent (store (snd (addTimeline_calls calls this w)))
             (snd (fst (addTimeline_calls calls this w))).
Proof.
  induction calls as [|c calls IH]; intros this w Hc; [done|].
  cbn [addTimeline_calls].
  pose proof (consistent_addTimeline (AddTimelineCall.name c) (AddTimelineCall.color c)
                (AddTimelineCall.id c) (AddTimelineCall.autofit c) this w Hc) as H1.
  destruct (addTimeline _ _ _ _ this w) as [[tl this1] w1]. cbn [fst snd] in H1.
  specialize (IH this1 w1 H1).
  destruct (addTimeline_calls calls this1 w1) as [[tls this2] w2]. exact IH.
Qed.

Lemma nullish_found h this x y tl :
  timelines_have_ids h this -> find_timeline h this x = Some tl ->
  nullish x y = x /\ x <> VUndefined /\ tl ∈ timelines this /\ getv h tl "id" = x.
Proof.
  intros Hids Hf. apply find_timeline_Some in Hf as [Hin Hx].
  apply list_elem_of_In in Hin.
  unfold timelines_have_ids in Hids. rewrite Forall_forall in Hids.
  destruct (Hids tl Hin) as [i Hi]. rewrite Hi in Hx. subst x.
  repeat split; try done; [by destruct i | apply of_ID_defined].
Qed.

Lemma consistent_new_event h this o x tl :
  consistent h this -> tl ∈ timelines this -> getv h tl "id" = x -> x <> VUndefined ->
  getv (h ++ [ORecord o]) (VRef (length h)) "timelineId" = x ->
  consistent (h ++ [ORecord o]) (set_events (events this ++ [VRef (length h)]) this).
Proof.
  intros Hc Hin Hx Hne Ho. pose proof (consistent_app _ [ORecord o] _ Hc) as [Hids Hatt].
  split; [exact Hids|]. unfold attached. cbn. apply Forall_app. split; [exact Hatt|].
  constructor; [|constructor]. exists tl. split; [done|]. rewrite Ho.
  split; [|done]. rewrite getv_app; [done|]. by rewrite Hx.
Qed.

Lemma consistent_addEvent event tid autofit this w :
  consistent (store w) this ->
  consistent (store (snd (addEvent event tid autofit this w)))
             (snd (fst (addEvent event tid autofit this w))).
Proof.
  intros Hc. unfold addEvent.
  destruct (find_timeline (store w) this (of_optional of_ID tid)) as [tl|] eqn:Hf; [|done].
  destruct (nullish_found _ _ _ (of_optional of_ID (PartialEventData.timelineId event))
              _ (proj1 Hc) Hf) as (Hn & Hne & Hin & Hx).
  rewrite Hn. destruct (negb _); [done|].
  destruct (make_eventData_spec event (of_optional of_ID tid) tl w)
    as (o & H1 & H2 & _ & H4).
  rewrite H1. cbn [fst snd store with_store].
  pose proof (consistent_new_event _ _ o _ _ Hc Hin Hx Hne H4) as H.
  by destruct (default true autofit).
Qed.

Lemma map_events_belong tid this events_ : forall w vs w',
  timelines_have_ids (store w) this ->
  map_events (addEvents_item tid this) events_ w = (Ok vs, w') ->
  (exists hs, store w' = store w ++ hs) /\ Forall (belongs (store w') this) vs.
Proof.
  induction events_ as [|e rest IH]; intros w vs w' Hids; cbn [map_events].
  - intros [= <- <-]. split; [exists []; by rewrite app_nil_r|constructor].
  - unfold addEvents_item at 1.
    set (target := nullish _ _).
    destruct (negb (truthy target)) eqn:Ht; [discriminate|].
    destruct (find_timeline (store w) this target) as [tl|] eqn:Hf; [|discriminate].
    destruct (nullish_found _ _ _ VUndefined _ Hids Hf) as (_ & Hne & Hin & Hx).
    destruct (make_eventData_spec e target tl w) as (o & H1 & H2 & _ & H4).
    rewrite H1.
    set (w1 := with_store _ _).
    assert (store w1 = store w ++ [ORecord o]) as Hw1 by reflexivity.
    assert (timelines_have_ids (store w1) this) as Hids1
      by (rewrite Hw1; by apply timelines_have_ids_app).
    destruct (map_events _ rest w1) as [[vs'|x] w2] eqn:Hm; [|discriminate].
    intros [= <- <-].
    destruct (IH _ _ _ Hids1 Hm) as [[hs Hs] HF].
    split; [exists ([ORecord o] ++ hs); by rewrite Hs, Hw1, <- app_assoc|].
    constructor; [|exact HF]. rewrite Hs. apply belongs_app; [exact Hids1|].
    exists tl. split; [done|]. rewrite Hw1, H4. split; [|done].
    rewrite getv_app; [done|]. by rewrite Hx.
Qed.

Lemma addEvents_item_extends tid this e w :
  exists hs, store (snd (addEvents_item tid this e w)) = store w ++ hs.
Proof.
  unfold addEvents_item. destruct (negb _); [exists []; by rewrite app_nil_r|].
  destruct (find_timeline _ _ _) as [tl|]; [|exists []; by rewrite app_nil_r].
  destruct (make_eventData_spec e
              (nullish (of_optional of_ID tid)
                 (of_optional of_ID (PartialEventData.timelineId e))) tl w)
    as (o & H1 & H2 & _). rewrite H1. cbn. eauto.
Qed.

Lemma map_events_extends tid this events_ : forall w,
  exists hs, store (snd (map_events (addEvents_item tid this) events_ w)) = store w ++ hs.
Proof.
  induction events_ as [|e rest IH]; intros w; cbn [map_events].
  - exists []. by rewrite app_nil_r.
  - destruct (addEvents_item_extends tid this e w) as [hs1 H1].
    destruct (addEvents_item tid this e w) as [[v|x] w1]; cbn [snd] in *; [|eauto].
    destruct (IH w1) as [hs2 H2].
    destruct (map_events _ rest w1) as [[vs|x] w2]; cbn [snd] in *;
      exists (hs1 ++ hs2); by rewrite H2, H1, app_assoc.
Qed.

Lemma consistent_addEvents events_ tid autofit this w :
  consistent (store w) this ->
  consistent (store (snd (addEvents events_ tid autofit this w)))
             (snd (fst (addEvents events_ tid autofit this w))).
Proof.
  intros Hc. unfold addEvents. destruct events_ as [|e rest]; [done|].
  destruct (map_events _ (e :: rest) w) as [[added|x] w1] eqn:Hm; cbn [fst snd].
  - destruct (map_events_belong _ _ _ _ _ _ (proj1 Hc) Hm) as [[hs Hs] HF].
    rewrite Hs in *. destruct (consistent_app _ hs _ Hc) as [Hids Hatt].
    assert (consistent (store w ++ hs) (set_events (events this ++ added) this)) as H.
    { split; [exact Hids|]. unfold attached. cbn. apply Forall_app. by split. }
    by destruct (default true autofit).
  - destruct (map_events_extends tid this (e :: rest) w) as [hs Hs].
    rewrite Hm in Hs. cbn [snd] in Hs. rewrite Hs. by apply consistent_app.
Qed.

Lemma find_filter {A} (f g : A -> bool) l x :
  List.find f l = Some x -> g x = true -> is_Some (List.find f (List.filter g l)).
Proof.
  intros Hf Hg. apply find_some in Hf as [Hin Hfx].
  destruct (List.find f (List.filter g l)) as [y|] eqn:E; [done|].
  pose proof (find_none _ _ E x) as Hn. rewrite Hfx in Hn.
  discriminate Hn. apply filter_In. by split.
Qed.

Lemma consistent_removeTimeline id this w :
  consistent (store w) this ->
  consistent (store (snd (removeTimeline id this w))) (fst (removeTimeline id this w)).
Proof.
  intros [Hids Hatt]. unfold removeTimeline. cbn [fst snd].
  apply consistent_resize. split.
  - unfold timelines_have_ids in *. cbn. rewrite Forall_forall in *.
    intros tl Htl. apply Hids. apply list_elem_of_In in Htl.
    apply filter_In in Htl as [Htl _]. by apply list_elem_of_In.
  - unfold attached in *. cbn. rewrite Forall_forall in *.
    intros e He. apply list_elem_of_In, filter_In in He as [He Hne].
    apply negb_true_iff, strict_eq_false in Hne.
    destruct (Hatt e) as (tl & Hin & Hid & Hu); [by apply list_elem_of_In|].
    exists tl. split; [|done]. apply list_elem_of_In, filter_In.
    split; [by apply list_elem_of_In|].
    apply negb_true_iff, strict_eq_false. by rewrite Hid.
Qed.

Lemma consistent_removeEvent id this w :
  consistent (store w) this ->
  consistent (store (snd (removeEvent id this w))) (fst (removeEvent id this w)).
Proof.
  intros [Hids Hatt]. unfold removeEvent, render. cbn [fst snd].
  split; [exact Hids|]. unfold attached in *. cbn. rewrite Forall_forall in *.
  intros e He. apply list_elem_of_In, filter_In in He as [He _].
  destruct (Hatt e) as (tl & H); [by apply list_elem_of_In|]. by exists tl.
Qed.

Lemma consistent_addTimelines configs autofit this w :
  consistent (store w) this ->
  consistent (store (snd (addTimelines configs autofit this w)))
             (snd (fst (addTimelines configs autofit this w))).
Proof.
  intros Hc. destruct configs as [|c cs]; [done|].
  rewrite addTimelines_cons. by apply consistent_addTimeline_calls.
Qed.

Lemma consistent_apply_op op this w :
  consistent (store w) this ->
  consistent (store (snd (apply_op op this w))) (fst (apply_op op this w)).
Proof.
  intros Hc. destruct op as [name color id autofit | configs autofit | event tid autofit
                            | events_ tid autofit | id | id]; cbn [apply_op].
  - pose proof (consistent_addTimeline name color id autofit this w Hc) as H.
    by destruct (addTimeline _ _ _ _ _ _) as [[? ?] ?].
  - pose proof (consistent_addTimelines configs autofit this w Hc) as H.
    by destruct (addTimelines _ _ _ _) as [[? ?] ?].
  - pose proof (consistent_addEvent event tid autofit this w Hc) as H.
    by destruct (addEvent _ _ _ _ _) as [[? ?] ?].
  - pose proof (consistent_addEvents events_ tid autofit this w Hc) as H.
    by destruct (addEvents _ _ _ _ _) as [[? ?] ?].
  - by apply consistent_removeTimeline.
  - by apply consistent_removeEvent.
Qed.

Lemma consistent_run ops : forall this w,
  consistent (store w) this ->
  consistent (store (snd (run ops this w))) (fst (run ops this w)).
Proof.
  induction ops as [|op ops IH]; intros this w Hc; [done|].
  cbn [run]. pose proof (consistent_apply_op op this w Hc) as H.
  destruct (apply_op op this w) as [this1 w1]. by apply IH.
Qed.

Lemma constructor_empty container options w0 this w :
  constructor container options w0 = (Ok this, w) ->
  timelines this = [] /\ events this = [].
Proof.
  unfold constructor. cbn. destruct (le_zero _); [discriminate|].
  intros [= <- <-]. by split.
Qed.

(** X16. However timelines and events are added and removed after the
    construction, every event of the instance names a timeline of the
    instance: [removeTimeline] takes the events of the timeline along,
    and [addEvent] and [addEvents] accept an event only for a timeline
    that is there. *)
Theorem events_stay_attached container options w0 this w ops :
  constructor container options w0 = (Ok this, w) ->
  let r := run ops this w in
  timelines_have_ids (store (snd r)) (fst r) /\
  (forall e, (e ∈ events (fst r)) -> belongs (store (snd r)) (fst r) e).
Proof.
  intros Hc. apply constructor_empty in Hc as [Ht He]. cbv zeta.
  assert (consistent (store w) this) as H0.
  { split; [unfold timelines_have_ids; by rewrite Ht | unfold attached; by rewrite He]. }
  destruct (consistent_run ops this w H0) as [Hids Hatt].
  split; [exact Hids|]. unfold attached in Hatt. rewrite Forall_forall in Hatt. exact Hatt.
Qed.
End Attached.

(** ** What a parse allocates *)
Section Fresh.
Context {P : Platform}.
Variable s : JSONSerializer.t.

Lemma fresh_from_le k k' v : k <= k' -> fresh_from k' v -> fresh_from k v.
Proof. destruct v; cbn; try done. lia. Qed.

Lemma news_fresh_le k k' news : k <= k' -> news_fresh k' news -> news_fresh k news.
Proof.
  intros Hle HN. eapply Forall_impl; [exact HN|]. intros o Ho.
  eapply Forall_impl; [exact Ho|]. intros v. by apply fresh_from_le.
Qed.

Lemma reviver_fresh k v h : fresh_from k v -> fresh_from k (JSONSerializer.reviver s v h).
Proof. intros Hv. unfold JSONSerializer.reviver. by destruct (strict_eq _ _). Qed.

Lemma thread_items_fresh items :
  Forall (allocates_fresh s) items ->
  forall h, exists news,
    snd (thread_items (Internalize (JSONSerializer.reviver s)) items h) = h ++ news /\
    Forall (fresh_from (length h))
      (fst (thread_items (Internalize (JSONSerializer.reviver s)) items h)) /\
    news_fresh (length h) news.
Proof.
  induction 1 as [|j items Hj _ IH]; intros h.
  - exists []. cbn. rewrite app_nil_r. repeat split; constructor.
  - cbn [thread_items]. destruct (Hj h) as (n1 & H1 & F1 & N1).
    destruct (Internalize _ j h) as [v h1]. cbn [fst snd] in *. subst h1.
    destruct (IH (h ++ n1)) as (n2 & H2 & F2 & N2).
    destruct (thread_items _ items (h ++ n1)) as [vs h2]. cbn [fst snd] in *. subst h2.
    assert (length h <= length (h ++ n1)) as Hle by (rewrite length_app; lia).
    exists (n1 ++ n2). rewrite app_assoc. split; [done|]. split.
    + constructor; [done|]. eapply Forall_impl; [exact F2|].
      intros x. by apply fresh_from_le.
    + apply Forall_app. split; [done|]. by eapply news_fresh_le.
Qed.

Lemma thread_members_fresh ms :
  Forall (fun m => allocates_fresh s (snd m)) ms ->
  forall h, exists news,
    snd (thread_members (Internalize (JSONSerializer.reviver s)) ms h) = h ++ news /\
    Forall (fresh_from (length h))
      (snd <$> fst (thread_members (Internalize (JSONSerializer.reviver s)) ms h)) /\
    news_fresh (length h) news.
Proof.
  induction 1 as [|[k j] ms Hj _ IH]; intros h.
  - exists []. cbn. rewrite app_nil_r. repeat split; constructor.
  - cbn [thread_members]. cbn [snd] in Hj. destruct (Hj h) as (n1 & H1 & F1 & N1).
    destruct (Internalize _ j h) as [v h1]. cbn [fst snd] in *. subst h1.
    destruct (IH (h ++ n1)) as (n2 & H2 & F2 & N2).
    destruct (thread_members _ ms (h ++ n1)) as [ps h2]. cbn [fst snd] in *. subst h2.
    assert (length h <= length (h ++ n1)) as Hle by (rewrite length_app; lia).
    exists (n1 ++ n2). rewrite app_assoc. split; [done|]. split.
    + cbn. constructor; [done|]. eapply Forall_impl; [exact F2|].
      intros x. by apply fresh_from_le.
    + apply Forall_app. split; [done|]. by eapply news_fresh_le.
Qed.

Lemma Internalize_fresh j : allocates_fresh s j.
Proof.
  induction j as [ | b | z | x | items IH | ms IH] using json_ind'; intros h;
    try (exists []; cbn; rewrite app_nil_r; repeat split; constructor).
  - destruct (thread_items_fresh items IH h) as (news & H1 & F & N).
    cbn [Internalize]. destruct (thread_items _ items h) as [vs h1].
    cbn [fst snd] in *. subst h1. cbn [alloc fst snd].
    exists (news ++ [OArray vs]). rewrite app_assoc. split; [done|]. split.
    + apply reviver_fresh. cbn. rewrite length_app. lia.
    + apply Forall_app. split; [done|]. constructor; [exact F|constructor].
  - destruct (thread_members_fresh ms IH h) as (news & H1 & F & N).
    cbn [Internalize]. destruct (thread_members _ ms h) as [ps h1].
    cbn [fst snd] in *. subst h1. cbn [alloc fst snd].
    exists (news ++ [ORecord ps]). rewrite app_assoc. split; [done|]. split.
    + apply reviver_fresh. cbn. rewrite length_app. lia.
    + apply Forall_app. split; [done|]. constructor; [exact F|constructor].
Qed.
End Fresh.

Section ImportCopies.
Context {P : Platform}.
Import D3Timeline.

Lemma fresh_lookup h news l o :
  news_fresh (length h) news -> length h <= l -> (h ++ news) !! l = Some o ->
  Forall (fresh_from (length h)) (slots o).
Proof.
  intros HN Hle Hl. rewrite lookup_app_r in Hl by done.
  unfold news_fresh in HN. rewrite Forall_forall in HN.
  apply HN. by eapply list_elem_of_lookup_2.
Qed.

Lemma fresh_assoc k key ps :
  Forall (fresh_from k) (snd <$> ps) -> fresh_from k (default VUndefined (assoc key ps)).
Proof.
  induction ps as [|[k' v] ps IH]; [done|]. cbn.
  intros [Hv Hps]%Forall_cons. destruct (String.eqb key k'); [done|]. by apply IH.
Qed.

Lemma fresh_getv h news v key :
  news_fresh (length h) news -> fresh_from (length h) v ->
  fresh_from (length h) (getv (h ++ news) v key).
Proof.
  intros HN Hv. destruct v; try done. cbn in Hv. unfold getv.
  destruct ((h ++ news) !! l) as [[xs|ps]|] eqn:Hl; try done.
  apply fresh_assoc. exact (fresh_lookup _ _ _ _ HN Hv Hl).
Qed.

Lemma fresh_chars k x : Forall (fresh_from k) (chars x).
Proof. induction x; cbn; by constructor. Qed.

Lemma fresh_spread_array h news v xs :
  news_fresh (length h) news -> fresh_from (length h) v ->
  spread_array (h ++ news) v = Ok xs -> Forall (fresh_from (length h)) xs.
Proof.
  intros HN Hv. destruct v; try done; cbn.
  - intros [= <-]. apply fresh_chars.
  - destruct ((h ++ news) !! l) as [[ys|ps]|] eqn:Hl; try done.
    intros [= <-]. exact (fresh_lookup _ _ _ _ HN Hv Hl).
Qed.

(** X17. After a successful [importDataString] the timelines and events of
    the instance, and its time range, are objects the parse has
    created: the instance shares none with what was in the store
    before, the exporting instance included (unlike
    [importData(exportData())]). *)
Theorem importDataString_copies space doc this w this' w' :
  importDataString (Rendered space doc) this w = (Ok true, this', w') ->
  Forall (fresh_from (length (store w))) (timelines this') /\
  Forall (fresh_from (length (store w))) (events this') /\
  fresh_from (length (store w)) (timeRange this').
Proof.
  rewrite importDataString_eq.
  destruct (Internalize_fresh import_serializer doc (store w)) as (news & Hs & Hv & HN).
  destruct (Internalize _ doc (store w)) as [v h1]. cbn [fst snd] in *. subst h1.
  unfold importData, importData_catch. cbn [store with_store].
  destruct (Get (store w ++ news) v "timelines") as [x1|e] eqn:G1; [|discriminate].
  destruct (spread_array (store w ++ news) x1) as [ts|e] eqn:S1; [|discriminate].
  destruct (Get (store w ++ news) v "events") as [x2|e] eqn:G2; [|discriminate].
  destruct (spread_array (store w ++ news) x2) as [es|e] eqn:S2; [|discriminate].
  destruct (Get (store w ++ news) v "timeRange") as [x3|e] eqn:G3; [|discriminate].
  cbn [new_object alloc].
  destruct (render_keys _ _) as [[]|e]; [|discriminate].
  intros [= <- <-]. cbn.
  assert (forall key x, Get (store w ++ news) v key = Ok x ->
                        fresh_from (length (store w)) x) as HG.
  { intros key x Hx.
    assert (x = getv (store w ++ news) v key) as ->
      by (unfold Get in Hx; destruct v; congruence).
    by apply fresh_getv. }
  split; [|split].
  - eapply fresh_spread_array; [exact HN| |exact S1]. by eapply HG.
  - eapply fresh_spread_array; [exact HN| |exact S2]. by eapply HG.
  - rewrite length_app. lia.
Qed.

(** X18. [autoFormat] only changes the indentation the text is printed
    with (two spaces, none by default): the document and what the
    export does to the store are the same. *)
Theorem exportDataString_autoFormat n this w :
  match exportDataString n (Some true) this w, exportDataString n None this w with
  | Some (Some (Rendered space1 doc1), w1), Some (Some (Rendered space2 doc2), w2) =>
      space1 = 2%Z /\ space2 = 0%Z /\ doc1 = doc2 /\ w1 = w2
  | Some (None, w1), Some (None, w2) => w1 = w2
  | None, None => True
  | _, _ => False
  end.
Proof.
  rewrite !exportDataString_eq, !stringify_eq.
  change (JSONSerializer.replacer (export_serializer (Some true)))
    with (JSONSerializer.replacer (export_serializer None)).
  destruct (SerializeJSONProperty _ n _ _) as [[[doc|] h']|]; cbn; done.
Qed.
End ImportCopies.

(** ** The properties on the sample instance *)

Lemma runtime_laws : PlatformLaws Sample.runtime.
Proof.
  split.
  - intros t.
    change (match DecimalString.NilEmpty.int_of_string
                    (DecimalString.NilEmpty.string_of_int (Z.to_int t)) with
            | Some i => Z.of_int i
            | None => 0%Z
            end = t).
    by rewrite DecimalString.NilEmpty.isi, DecimalZ.of_to.
  - intros t. cbn. unfold Sample.decimal. discriminate.
Qed.

Lemma planned_timelines :
  D3Timeline.timelines (fst Sample.planned) = [VRef 1; VRef 2].
Proof. vm_compute. reflexivity. Qed.

Lemma planned_have_ids :
  timelines_have_ids (store (snd Sample.planned)) (fst Sample.planned).
Proof.
  unfold timelines_have_ids. rewrite planned_timelines.
  repeat constructor; [exists (IDNum 0) | exists (IDStr "b")]; vm_compute; reflexivity.
Qed.


(** No timeline is called ["c"]: [addEvent] answers [null], [addEvents]
    raises. *)
Lemma unknown_timeline_witness :
  D3Timeline.addEvent (P := Sample.runtime) (Sample.kickoff None) (Some (IDStr "c")) None
    (fst Sample.planned) (snd Sample.planned)
  = (Ok VNull, fst Sample.planned, snd Sample.planned) /\
  exists msg w',
    D3Timeline.addEvents (P := Sample.runtime) [Sample.kickoff None] (Some (IDStr "c")) None
      (fst Sample.planned) (snd Sample.planned)
    = (Throw (Error msg), fst Sample.planned, w').
Proof.
  assert (D3Timeline.find_timeline (store (snd Sample.planned)) (fst Sample.planned)
            (nullish (of_optional of_ID (Some (IDStr "c")))
               (of_optional of_ID
                  (D3Timeline.PartialEventData.timelineId (Sample.kickoff None))))
          = None) as Hnone by (vm_compute; reflexivity).
  destruct (unknown_timeline_null_or_throw (P := Sample.runtime)
              (Sample.kickoff None) (Some (IDStr "c")) None
              (fst Sample.planned) (snd Sample.planned)
              planned_have_ids Hnone) as [H1 H2].
  split; [exact H1 | exact (H2 [] [])].
Defined.



Lemma planned_fileable (event : D3Timeline.PartialEventData.t) :
  fileable (store (snd Sample.planned)) (fst Sample.planned)
    (Some (IDStr "b")) event.
Proof. split; [reflexivity|]. exists (VRef 2). vm_compute. reflexivity. Qed.


(** The two events of the stage ["s1"] are joined by one connector with
    two anchors. *)
Lemma stage_connector_witness :
  exists g,
    drawn_for (VStr "s1")
      (D3Timeline.renderStageLines Sample.xScale (fst Sample.staged)
         (store (snd Sample.staged)) [])
    = [g] /\
    length (anchors (D3Timeline.StageLine.d g)) = 2.
Proof.
  assert (D3Timeline.stageLinesVisible (fst Sample.staged) = true) as Hvis
    by (vm_compute; reflexivity).
  assert (length (stage_members (store (snd Sample.staged))
                    (D3Timeline.events (fst Sample.staged)) (VStr "s1")) = 2) as Hlen
    by (vm_compute; reflexivity).
  destruct (stage_connector_drawn_iff_two Sample.xScale (fst Sample.staged)
              (store (snd Sample.staged)) [] (VStr "s1") Hvis) as [_ H].
  destruct H as (g & sorted & Hd & _ & _ & _ & Hl); [rewrite Hlen; apply le_n|].
  exists g. split; [exact Hd|]. rewrite Hl. exact Hlen.
Defined.

(** With the stage lines hidden the same two events are joined by
    nothing. *)
Lemma hidden_stage_lines_draw_nothing :
  2 <= length (stage_members (store (snd Sample.staged))
                 (D3Timeline.events Sample.hidden) (VStr "s1")) /\
  ~ exists g,
      g ∈ D3Timeline.renderStageLines Sample.xScale Sample.hidden
            (store (snd Sample.staged)) [] /\
      D3Timeline.StageLine.stageId g = VStr "s1".
Proof.
  split.
  - assert (length (stage_members (store (snd Sample.staged))
                      (D3Timeline.events Sample.hidden) (VStr "s1")) = 2) as ->
      by (vm_compute; reflexivity).
    apply le_n.
  - assert (D3Timeline.renderStageLines Sample.xScale Sample.hidden
              (store (snd Sample.staged)) [] = []) as ->
      by (vm_compute; reflexivity).
    intros (g & Hg & _). by apply elem_of_nil in Hg.
Qed.


(** [importData({timelines: [{name: "x"}], events: []})]: the arrays are
    read and assigned, the drawing raises on the timeline without [id],
    and the call logs the error and returns [false]. *)
Example importData_timeline_without_id :
  exists this' w',
    D3Timeline.importData (fst Sample.unidentified) (fst Sample.planned)
      (snd Sample.unidentified)
    = (Ok false, this', w') /\
    Logger.console (D3Timeline.logger this')
    = [(Logger.error,
        "数据导入失败: Cannot read properties of undefined (reading 'toString')")] /\
    length (D3Timeline.timelines this') = 1 /\
    D3Timeline.events this' = [].
Proof. eexists _, _. repeat split; vm_compute; reflexivity. Qed.

(** [importDataString] on a string that is no JSON document: the
    [SyntaxError] of [JSON.parse] goes to the caller. *)
Example importDataString_not_JSON :
  D3Timeline.importDataString (P := Sample.runtime) (NotJSON "{timelines")
    (fst Sample.planned) (snd Sample.planned)
  = (Throw (SyntaxError "Unexpected token"), fst Sample.planned, snd Sample.planned).
Proof. vm_compute. reflexivity. Qed.



(** ** The further properties on the sample instance *)

Lemma timeline_rows_witness :
  D3Timeline.calculateTimelineOffsetY (fst Sample.planned) (Some (VRef 1)) = 100%Z /\
  D3Timeline.calculateTimelineOffsetY (fst Sample.planned) (Some (VRef 2)) = 20%Z.
Proof.
  assert (NoDup (D3Timeline.timelines (fst Sample.planned))) as Hnd
    by (rewrite planned_timelines; apply NoDup_cons; split;
        [intros H%list_elem_of_singleton; discriminate | apply NoDup_singleton]).
  assert (D3Timeline.timelines (fst Sample.planned) !! 0 = Some (VRef 1)) as H0
    by (vm_compute; reflexivity).
  assert (D3Timeline.timelines (fst Sample.planned) !! 1 = Some (VRef 2)) as H1
    by (vm_compute; reflexivity).
  split.
  - rewrite (proj1 (timeline_rows_stack (fst Sample.planned) 0 (VRef 1) Hnd H0)).
    vm_compute. reflexivity.
  - rewrite (proj1 (timeline_rows_stack (fst Sample.planned) 1 (VRef 2) Hnd H1)).
    vm_compute. reflexivity.
Defined.

Lemma planned_finds_b :
  D3Timeline.find_timeline (store (snd Sample.planned)) (fst Sample.planned)
    (of_ID (IDStr "b")) = Some (VRef 2).
Proof. vm_compute. reflexivity. Qed.



Lemma staged_event_reads :
  exists t, reify 2 (store (snd Sample.staged)) (VRef 5) = Some t /\
            plain t = true /\ t <> TUndefined /\ is_TDate t = false.
Proof.
  eexists. split; [vm_compute; reflexivity|].
  split; [vm_compute; reflexivity|]. split; [discriminate | reflexivity].
Qed.



Lemma stringify_keeps_dateless_witness :
  exists r h',
    JSONSerializer.stringify (P := Sample.runtime) import_serializer 2 (VRef 5)
      (store (snd Sample.staged)) = Some (r, h') /\
    h' !! 3 = store (snd Sample.staged) !! 3.
Proof.
  destruct staged_event_reads as (t & Hr & _).
  destruct (stringify_returns (P := Sample.runtime) import_serializer 2 (VRef 5)
              (store (snd Sample.staged)) t Hr) as (r & h' & Hs).
  exists r, h'. split; [exact Hs|].
  assert (exists o, store (snd Sample.staged) !! 3 = Some o /\
                    forallb (fun v => negb (is_Date v)) (slots o) = true /\
                    reachable (store (snd Sample.staged)) (VRef 5) 3) as (o & Ho & Hd & Hre).
  { eexists. split; [vm_compute; reflexivity|]. split; [vm_compute; reflexivity|].
    eapply reach_step with (v := VRef 3);
      [vm_compute; reflexivity | | eapply reach_here; vm_compute; reflexivity].
    vm_compute. repeat constructor. }
  rewrite Ho.
  exact (stringify_keeps_dateless_objects (P := Sample.runtime) import_serializer 2 (VRef 5)
           (store (snd Sample.staged)) r h' 3 o Hs Hre Ho Hd).
Defined.

Lemma staged_have_ids :
  timelines_have_ids (store (snd Sample.staged)) (fst Sample.staged) /\
  events_have_ids (store (snd Sample.staged)) (fst Sample.staged).
Proof.
  unfold timelines_have_ids, events_have_ids.
  assert (D3Timeline.timelines (fst Sample.staged) = [VRef 1; VRef 2]) as ->
    by (vm_compute; reflexivity).
  assert (D3Timeline.events (fst Sample.staged) = [VRef 5; VRef 6]) as ->
    by (vm_compute; reflexivity).
  split; repeat constructor;
    [exists (IDNum 0) | exists (IDStr "b") | exists (IDNum 1) | exists (IDNum 2)];
    vm_compute; reflexivity.
Qed.

Lemma importData_of_exportData_witness :
  exists that' w2,
    D3Timeline.importData (fst (D3Timeline.exportData (fst Sample.staged) (snd Sample.staged)))
      (fst Sample.built) (snd (D3Timeline.exportData (fst Sample.staged) (snd Sample.staged)))
    = (Ok true, that', w2) /\
    D3Timeline.events that' = D3Timeline.events (fst Sample.staged) /\
    D3Timeline.timeRange that' <> D3Timeline.timeRange (fst Sample.staged).
Proof.
  assert (exists ps, store (snd Sample.staged) !! 0 = Some (ORecord ps)) as [ps Hl]
    by (eexists; vm_compute; reflexivity).
  assert (D3Timeline.timeRange (fst Sample.staged) = VRef 0) as Htr
    by (vm_compute; reflexivity).
  destruct (importData_of_exportData (fst Sample.staged) (fst Sample.built)
              (snd Sample.staged) 0 ps (proj1 staged_have_ids) (proj2 staged_have_ids)
              Htr Hl)
    as (that' & w2 & Hi & _ & He & Hne & _).
  exists that', w2. split; [exact Hi|]. split; [exact He | exact Hne].
Defined.

Lemma stage_connector_order_witness :
  exists g,
    drawn_for (VStr "s1")
      (D3Timeline.renderStageLines Sample.xScale (fst Sample.staged)
         (store (snd Sample.staged)) [])
    = [g] /\
    length (D3Timeline.StageLine.arrows g) = 1.
Proof.
  assert (D3Timeline.stageLinesVisible (fst Sample.staged) = true) as Hvis
    by (vm_compute; reflexivity).
  assert (length (stage_members (store (snd Sample.staged))
                    (D3Timeline.events (fst Sample.staged)) (VStr "s1")) = 2) as Hlen
    by (vm_compute; reflexivity).
  destruct (stage_connector_order_and_arrows Sample.xScale (fst Sample.staged)
              (store (snd Sample.staged)) [] (VStr "s1") Hvis)
    as (g & Hd & _ & _ & _ & _ & Ha); [rewrite Hlen; apply le_n|].
  exists g. split; [exact Hd|]. rewrite Ha, Hlen. vm_compute. reflexivity.
Defined.

(** The session leaves the timeline ["b"] and two events, and each of
    the two names it. *)
Lemma events_stay_attached_witness :
  exists e1 e2,
    D3Timeline.events (fst (run (P := Sample.runtime) sample_session
                              (fst Sample.built) (snd Sample.built))) = [e1; e2] /\
    belongs (store (snd (run (P := Sample.runtime) sample_session
                           (fst Sample.built) (snd Sample.built))))
      (fst (run (P := Sample.runtime) sample_session (fst Sample.built) (snd Sample.built)))
      e1 /\
    belongs (store (snd (run (P := Sample.runtime) sample_session
                           (fst Sample.built) (snd Sample.built))))
      (fst (run (P := Sample.runtime) sample_session (fst Sample.built) (snd Sample.built)))
      e2 /\
    timelines_have_ids
      (store (snd (run (P := Sample.runtime) sample_session
                     (fst Sample.built) (snd Sample.built))))
      (fst (run (P := Sample.runtime) sample_session (fst Sample.built) (snd Sample.built))).
Proof.
  assert (D3Timeline.constructor (P := Sample.runtime) Sample.container0
            D3Timeline.TimelineOptions.empty Sample.world0
          = (Ok (fst Sample.built), snd Sample.built)) as Hc by (vm_compute; reflexivity).
  pose proof (events_stay_attached (P := Sample.runtime) _ _ _ _ _ sample_session Hc) as H.
  cbv zeta in H. destruct H as [Hids Hatt].
  assert (exists e1 e2,
            D3Timeline.events (fst (run (P := Sample.runtime) sample_session
                                      (fst Sample.built) (snd Sample.built))) = [e1; e2])
    as (e1 & e2 & He) by (eexists _, _; vm_compute; reflexivity).
  exists e1, e2. split; [exact He|].
  split; [apply Hatt; rewrite He; apply elem_of_cons; by left|].
  split; [apply Hatt; rewrite He; apply elem_of_cons; right; apply elem_of_cons; by left|].
  exact Hids.
Defined.

Lemma importDataString_copies_witness :
  exists this' w',
    D3Timeline.importDataString (P := Sample.runtime) sample_text
      (fst Sample.staged) (snd Sample.staged) = (Ok true, this', w') /\
    Forall (fresh_from (length (store (snd Sample.staged)))) (D3Timeline.events this').
Proof.
  assert (exists this' w',
            D3Timeline.importDataString (P := Sample.runtime) sample_text
              (fst Sample.staged) (snd Sample.staged) = (Ok true, this', w'))
    as (this' & w' & H) by (eexists _, _; vm_compute; reflexivity).
  exists this', w'. split; [exact H|].
  exact (proj1 (proj2 (importDataString_copies (P := Sample.runtime) _ _ _ _ _ _ H))).
Defined.
